(** * Rotation-matrix relaxations (drake/solvers/rotation_constraint.cc)

    A shallow embedding of the geometry primitives, the Gray-code interval
    indexing and the constraint emitters of the McCormick-envelope relaxation
    of SO(3), together with the properties the specification states about
    them.

    Conventions of the embedding:
    - a C++ [double] is a real number ([R]); comparisons are the decidable
      comparisons of [R];
    - a C++ [int] is a [Z]; the one place where the code shifts ([1 << k])
      has its 32-bit wrap-around written out;
    - a call that can [throw], fail a [DRAKE_DEMAND]/[DRAKE_ASSERT] (both
      armed) or read outside an Eigen matrix returns a [result];
    - [prog->Add...] calls thread the [MathematicalProgram] explicitly. *)

From Stdlib Require Import Reals Lra Lia ZArith List String Bool Permutation.
From Stdlib Require Import RNsatz.
Import ListNotations.

Open Scope R_scope.

(** ** Outcomes of a call *)

Inductive result (A : Type) : Type :=
| Ok (a : A)                (* normal return *)
| Throw (what : string)     (* throw std::runtime_error(what) *)
| Abort                     (* failed DRAKE_DEMAND / DRAKE_ASSERT *)
| OutOfRange.               (* coefficient read outside a matrix or vector *)

Arguments Ok {A} a.
Arguments Throw {A} what.
Arguments Abort {A}.
Arguments OutOfRange {A}.

Definition bind {A B} (m : result A) (k : A -> result B) : result B :=
  match m with
  | Ok a => k a
  | Throw w => Throw w
  | Abort => Abort
  | OutOfRange => OutOfRange
  end.

Notation "x <- m ;; k" := (bind m (fun x => k))
  (at level 61, m at next level, right associativity).
Notation "' pat <- m ;; k" := (bind m (fun x => match x with pat => k end))
  (at level 61, pat pattern, m at next level, right associativity).

Definition DRAKE_DEMAND (c : bool) : result unit := if c then Ok tt else Abort.
Definition DRAKE_ASSERT (c : bool) : result unit := if c then Ok tt else Abort.

(** Monadic left fold: a [for] loop whose body may fail. *)
Fixpoint foldM {A S} (f : S -> A -> result S) (l : list A) (s : S) : result S :=
  match l with
  | [] => Ok s
  | a :: l' => s' <- f s a ;; foldM f l' s'
  end.

(** ** Comparisons on [double] *)

Definition Rltb (a b : R) : bool := if Rlt_dec a b then true else false.
Definition Rleb (a b : R) : bool := if Rle_dec a b then true else false.
Definition Rgtb (a b : R) : bool := Rltb b a.
Definition Rgeb (a b : R) : bool := Rleb b a.
Definition Reqb (a b : R) : bool := if Req_dec_T a b then true else false.

(** [numeric_limits<double>::epsilon()]. *)
Definition epsilon : R := / 2 ^ 52.

(** ** Fixed-size vectors and matrices (Eigen::Matrix<T, 3, 1>, <T, 3, 3>) *)

Record Vector3 (A : Type) : Type := vec3 { vx : A; vy : A; vz : A }.
Arguments vec3 {A} _ _ _.
Arguments vx {A} _.
Arguments vy {A} _.
Arguments vz {A} _.

(** [v(i)]. *)
Definition coef {A} (v : Vector3 A) (i : nat) : A :=
  match i with
  | O => vx v
  | S O => vy v
  | _ => vz v
  end.

(** [v(i) = a]. *)
Definition set_coef {A} (v : Vector3 A) (i : nat) (a : A) : Vector3 A :=
  match i with
  | O => vec3 a (vy v) (vz v)
  | S O => vec3 (vx v) a (vz v)
  | _ => vec3 (vx v) (vy v) a
  end.

Definition vmap {A B} (f : A -> B) (v : Vector3 A) : Vector3 B :=
  vec3 (f (vx v)) (f (vy v)) (f (vz v)).

Definition vlist {A} (v : Vector3 A) : list A := [vx v; vy v; vz v].

(** A 3x3 matrix is stored by columns, as Eigen does. *)
Definition Matrix3 (A : Type) : Type := Vector3 (Vector3 A).

Definition col {A} (M : Matrix3 A) (j : nat) : Vector3 A := coef M j.
Definition mcoef {A} (M : Matrix3 A) (i j : nat) : A := coef (col M j) i.
Definition row {A} (M : Matrix3 A) (i : nat) : Vector3 A :=
  vec3 (mcoef M i 0) (mcoef M i 1) (mcoef M i 2).
Definition transpose {A} (M : Matrix3 A) : Matrix3 A :=
  vec3 (row M 0) (row M 1) (row M 2).
Definition diagonal {A} (M : Matrix3 A) : Vector3 A :=
  vec3 (mcoef M 0 0) (mcoef M 1 1) (mcoef M 2 2).
(** The coefficients in storage order. *)
Definition mlist {A} (M : Matrix3 A) : list A :=
  vlist (col M 0) ++ vlist (col M 1) ++ vlist (col M 2).

Definition Vector3d : Type := Vector3 R.

Definition vsub (a b : Vector3d) : Vector3d :=
  vec3 (vx a - vx b) (vy a - vy b) (vz a - vz b).
Definition vscale (k : R) (a : Vector3d) : Vector3d :=
  vec3 (k * vx a) (k * vy a) (k * vz a).
Definition vdiv (a : Vector3d) (k : R) : Vector3d :=
  vec3 (vx a / k) (vy a / k) (vz a / k).
Definition vopp (a : Vector3d) : Vector3d := vec3 (- vx a) (- vy a) (- vz a).
Definition dot (a b : Vector3d) : R := vx a * vx b + vy a * vy b + vz a * vz b.
Definition cross (a b : Vector3d) : Vector3d :=
  vec3 (vy a * vz b - vz a * vy b)
       (vz a * vx b - vx a * vz b)
       (vx a * vy b - vy a * vx b).
Definition vsum (a : Vector3d) : R := vx a + vy a + vz a.
Definition squaredNorm (a : Vector3d) : R := dot a a.
(** [a.norm()], which is also [a.lpNorm<2>()]. *)
Definition norm (a : Vector3d) : R := sqrt (squaredNorm a).
Definition vzero : Vector3d := vec3 0 0 0.
(** [(a.array() >= 0).all()]. *)
Definition all_nonneg (a : Vector3d) : bool :=
  Rgeb (vx a) 0 && Rgeb (vy a) 0 && Rgeb (vz a) 0.

(** ** Symbolic variables, expressions and formulas *)

Inductive VarType : Type := CONTINUOUS | BINARY.

(** [symbolic::Variable]. *)
Record DecisionVariable : Type := mkVar {
  get_id : nat;
  get_name : string;
  get_type : VarType
}.

Inductive Expression : Type :=
| EConst (c : R)
| EVar (v : DecisionVariable)
| EAdd (a b : Expression)
| ESub (a b : Expression)
| EMul (a b : Expression)
| ENeg (a : Expression).

Definition Environment : Type := DecisionVariable -> R.

Fixpoint Evaluate (env : Environment) (e : Expression) : R :=
  match e with
  | EConst c => c
  | EVar v => env v
  | EAdd a b => Evaluate env a + Evaluate env b
  | ESub a b => Evaluate env a - Evaluate env b
  | EMul a b => Evaluate env a * Evaluate env b
  | ENeg a => - Evaluate env a
  end.

Inductive Formula : Type :=
| FLe (a b : Expression)
| FGe (a b : Expression)
| FEq (a b : Expression)
| FAnd (f g : Formula).

Fixpoint Holds (env : Environment) (f : Formula) : Prop :=
  match f with
  | FLe a b => Evaluate env a <= Evaluate env b
  | FGe a b => Evaluate env a >= Evaluate env b
  | FEq a b => Evaluate env a = Evaluate env b
  | FAnd f g => Holds env f /\ Holds env g
  end.

(** The scalar types the templates of the file are instantiated at
    ([double] and [symbolic::Expression]). *)
Class Scalar (S : Type) : Type := {
  s_const : R -> S;
  s_add : S -> S -> S;
  s_sub : S -> S -> S;
  s_mul : S -> S -> S;
  s_neg : S -> S
}.

#[export] Instance Scalar_double : Scalar R :=
  {| s_const := fun c => c; s_add := Rplus; s_sub := Rminus;
     s_mul := Rmult; s_neg := Ropp |}.

#[export] Instance Scalar_Expression : Scalar Expression :=
  {| s_const := EConst; s_add := EAdd; s_sub := ESub;
     s_mul := EMul; s_neg := ENeg |}.

(** Implicit conversion of a coefficient of [b] to the result scalar. *)
Class Cast (S2 S1 : Type) : Type := cast : S2 -> S1.

#[export] Instance Cast_double : Cast R R := fun c => c.
#[export] Instance Cast_Variable : Cast DecisionVariable Expression := EVar.

(** [v.sum()], [a.dot(v)] and [a.cross(v)] on vectors of scalars. *)
Definition ssum {S} `{Scalar S} (v : Vector3 S) : S :=
  s_add (s_add (vx v) (vy v)) (vz v).

Definition sdot (a : Vector3d) (v : Vector3 Expression) : Expression :=
  EAdd (EAdd (EMul (EConst (vx a)) (vx v)) (EMul (EConst (vy a)) (vy v)))
       (EMul (EConst (vz a)) (vz v)).

Definition scross (a : Vector3d) (v : Vector3 Expression) : Vector3 Expression :=
  vec3 (ESub (EMul (EConst (vy a)) (vz v)) (EMul (EConst (vz a)) (vy v)))
       (ESub (EMul (EConst (vz a)) (vx v)) (EMul (EConst (vx a)) (vz v)))
       (ESub (EMul (EConst (vx a)) (vy v)) (EMul (EConst (vy a)) (vx v))).

Definition vars (v : Vector3 DecisionVariable) : Vector3 Expression := vmap EVar v.

(** ** The optimization program

    Modelled from the spec: [MathematicalProgram] is an external
    collaborator of this file; only the calls the file makes are modelled,
    each recording one descriptor (section 9 of the specification). *)

Inductive Constraint : Type :=
| BoundingBoxConstraint (lb ub : R) (x : list DecisionVariable)
| LinearConstraint (a : list R) (lb ub : R) (x : list DecisionVariable)
| LinearFormulaConstraint (f : Formula)
| LorentzConeConstraint (z : list Expression).

Record MathematicalProgram : Type := mkProg {
  decision_variables : list DecisionVariable;
  linear_costs : list Expression;
  constraints : list Constraint
}.

Definition empty_program : MathematicalProgram := mkProg [] [] [].

Definition fresh_id (prog : MathematicalProgram) : nat :=
  List.length (decision_variables prog).

Definition add_variables (prog : MathematicalProgram) (vs : list DecisionVariable)
  : MathematicalProgram :=
  mkProg (decision_variables prog ++ vs) (linear_costs prog) (constraints prog).

Definition add_constraint (prog : MathematicalProgram) (c : Constraint)
  : MathematicalProgram :=
  mkProg (decision_variables prog) (linear_costs prog) (constraints prog ++ [c]).

(** [prog->NewContinuousVariables<3>(name)]. *)
Definition NewContinuousVariables3 (prog : MathematicalProgram) (name : string)
  : Vector3 DecisionVariable * MathematicalProgram :=
  let k := fresh_id prog in
  let v := vec3 (mkVar k name CONTINUOUS) (mkVar (k + 1) name CONTINUOUS)
                (mkVar (k + 2) name CONTINUOUS) in
  (v, add_variables prog (vlist v)).

(** [prog->NewContinuousVariables<1>(name)]. *)
Definition NewContinuousVariables1 (prog : MathematicalProgram) (name : string)
  : DecisionVariable * MathematicalProgram :=
  let v := mkVar (fresh_id prog) name CONTINUOUS in
  (v, add_variables prog [v]).

(** [prog->NewContinuousVariables<3, 3>(name)]. *)
Definition NewContinuousVariables33 (prog : MathematicalProgram) (name : string)
  : Matrix3 DecisionVariable * MathematicalProgram :=
  let k := fresh_id prog in
  let c j := vec3 (mkVar (k + 3 * j) name CONTINUOUS)
                  (mkVar (k + 3 * j + 1) name CONTINUOUS)
                  (mkVar (k + 3 * j + 2) name CONTINUOUS) in
  let M := vec3 (c 0%nat) (c 1%nat) (c 2%nat) in
  (M, add_variables prog (mlist M)).

Definition AddBoundingBoxConstraint (prog : MathematicalProgram) (lb ub : R)
  (x : list DecisionVariable) : MathematicalProgram :=
  add_constraint prog (BoundingBoxConstraint lb ub x).

Definition AddLinearConstraint (prog : MathematicalProgram) (a : list R)
  (lb ub : R) (x : list DecisionVariable) : MathematicalProgram :=
  add_constraint prog (LinearConstraint a lb ub x).

Definition AddLinearFormula (prog : MathematicalProgram) (f : Formula)
  : MathematicalProgram :=
  add_constraint prog (LinearFormulaConstraint f).

Definition AddLorentzConeConstraint (prog : MathematicalProgram)
  (z : list Expression) : MathematicalProgram :=
  add_constraint prog (LorentzConeConstraint z).

Definition AddLinearCost (prog : MathematicalProgram) (e : Expression)
  : MathematicalProgram :=
  mkProg (decision_variables prog) (linear_costs prog ++ [e]) (constraints prog).

(** What a descriptor demands of an assignment. *)
Fixpoint lin (a : list R) (x : list DecisionVariable) (env : Environment) : R :=
  match a, x with
  | c :: a', v :: x' => c * env v + lin a' x' env
  | _, _ => 0
  end.

Definition Satisfies (env : Environment) (c : Constraint) : Prop :=
  match c with
  | BoundingBoxConstraint lb ub x => Forall (fun v => lb <= env v <= ub) x
  | LinearConstraint a lb ub x => lb <= lin a x env <= ub
  | LinearFormulaConstraint f => Holds env f
  | LorentzConeConstraint z =>
      match z with
      | [] => True
      | z0 :: zs =>
          sqrt (fold_right (fun e acc => Evaluate env e * Evaluate env e + acc) 0 zs)
          <= Evaluate env z0
      end
  end.

(** ** NewRotationMatrixVars *)

Definition NewRotationMatrixVars (prog : MathematicalProgram) (name : string)
  : Matrix3 DecisionVariable * MathematicalProgram :=
  let '(R, prog) := NewContinuousVariables33 prog name in
  (* Forall i,j, -1 <= R(i,j) <= 1. *)
  let prog := AddBoundingBoxConstraint prog (-1) 1 (mlist R) in
  (* -1 <= trace(R) <= 3. *)
  let prog := AddLinearConstraint prog [1; 1; 1] (-1) 3 (vlist (diagonal R)) in
  (R, prog).

(** ** Machine integers *)

(** The value of an [int] computation whose mathematical result is [z]. *)
Definition int_wrap (z : Z) : Z := ((z + 2 ^ 31) mod 2 ^ 32 - 2 ^ 31)%Z.
Definition int_add (a b : Z) : Z := int_wrap (a + b).
Definition int_sub (a b : Z) : Z := int_wrap (a - b).
(** [1 << k]. *)
Definition int_shl1 (k : Z) : Z := int_wrap (Z.shiftl 1 k).

(** [for (int i = 0; i < n; ++i)] visits [range n]. *)
Definition range (n : Z) : list Z := map Z.of_nat (seq 0 (Z.to_nat n)).

(** Modelled from the spec: [CeilLog2] (declared in
    drake/solvers/mixed_integer_optimization_util.h, which is not among the
    sources) is the ceiling of the binary logarithm. *)
Definition CeilLog2 (n : Z) : Z := Z.log2_up n.

(** ** Gray-code tables *)

(** [Eigen::MatrixXi]: the dimensions and the coefficients by rows. *)
Record MatrixXi : Type := mkMat {
  rows : Z;
  cols : Z;
  data : list (list Z)
}.

(** [M(r, c)]. *)
Definition coeff (M : MatrixXi) (r c : Z) : result Z :=
  if ((0 <=? r) && (r <? rows M) && (0 <=? c) && (c <? cols M))%Z then
    Ok (nth (Z.to_nat c) (nth (Z.to_nat r) (data M) []) 0%Z)
  else OutOfRange.

(** [b(i)] on a dynamically sized vector. *)
Definition vcoeff {A} (b : list A) (i : nat) : result A :=
  match nth_error b i with
  | Some a => Ok a
  | None => OutOfRange
  end.

(** Modelled from the spec: [math::CalculateReflectedGrayCodes]
    (drake/math/gray_code.h is not among the sources) returns the reflected
    binary Gray code on [num_digits] digits as a 0/1 matrix with
    [2 ^ num_digits] rows.  These are its rows. *)
Fixpoint reflected_gray_rows (num_digits : nat) : list (list Z) :=
  match num_digits with
  | O => [[]]
  | S d => map (cons 0%Z) (reflected_gray_rows d)
           ++ map (cons 1%Z) (rev (reflected_gray_rows d))
  end.

(** Modelled from the spec: the table of [math::CalculateReflectedGrayCodes],
    with the rows above and its two dimensions. *)
Definition CalculateReflectedGrayCodes (num_digits : nat) : MatrixXi :=
  mkMat (2 ^ Z.of_nat num_digits) (Z.of_nat num_digits)
        (reflected_gray_rows num_digits).

(** ** Orthant and interval indexing *)

Definition EnvelopeMinValue (i num_binary_variables_per_half_axis : Z) : R :=
  IZR i / IZR num_binary_variables_per_half_axis.

(** Modelled from the spec: [internal::FlipVector]
    (drake/solvers/rotation_constraint_internal.h is not among the sources)
    reflects a positive-orthant vector into the given orthant; bit [b] of the
    orthant index selects the sign of axis [b], and orthant 0 is (+++). *)
Definition FlipVector {A} (opp : A -> A) (vpos : Vector3 A) (orthant : Z)
  : Vector3 A :=
  vec3 (if Z.testbit orthant 0 then opp (vx vpos) else vx vpos)
       (if Z.testbit orthant 1 then opp (vy vpos) else vy vpos)
       (if Z.testbit orthant 2 then opp (vz vpos) else vz vpos).

Definition OrthantToAxisMask (orthant : Z) : Vector3 Z :=
  FlipVector Z.opp (vec3 1 1 1)%Z orthant.

Definition PositiveAxisIntervalIndexToFullAxisIntervalIndex
  (interval_idx : Vector3 Z) (orthant num_intervals_per_half_axis : Z)
  : Vector3 Z :=
  let mask := OrthantToAxisMask orthant in
  let ret i :=
    if (coef mask i >? 0)%Z
    then int_add (coef interval_idx i) num_intervals_per_half_axis
    else int_sub (int_sub num_intervals_per_half_axis 1) (coef interval_idx i) in
  vec3 (ret 0%nat) (ret 1%nat) (ret 2%nat).

(** The two [DRAKE_ASSERT]s at the head of
    [PickBinaryExpressionGivenInterval]. *)
Definition pick_asserts {S2} (interval_idx : Z) (gray_codes : MatrixXi)
  (b : list S2) : bool :=
  ((0 <=? interval_idx)%Z && (interval_idx <=? rows gray_codes)%Z)
  && (Z.of_nat (List.length b) =? cols gray_codes)%Z.

Definition PickBinaryExpressionGivenInterval {S1 S2} `{Scalar S1} `{Cast S2 S1}
  (interval_idx : Z) (gray_codes : MatrixXi) (b : list S2) : result S1 :=
  _ <- DRAKE_ASSERT ((0 <=? interval_idx)%Z
                     && (interval_idx <=? rows gray_codes)%Z) ;;
  _ <- DRAKE_ASSERT (Z.of_nat (List.length b) =? cols gray_codes)%Z ;;
  foldM (fun ret i =>
           g <- coeff gray_codes interval_idx (Z.of_nat i) ;;
           bi <- vcoeff b i ;;
           Ok (s_add ret (if (g =? 0)%Z
                          then cast bi
                          else s_sub (s_const 1) (cast bi))))
        (seq 0 (Z.to_nat (cols gray_codes))) (s_const 0).

Definition Intercept (x y : R) : result R :=
  _ <- DRAKE_ASSERT (Rleb (x * x + y * y) 1) ;;
  Ok (sqrt (1 - x * x - y * y)).

Definition CalcBoxBinaryExpressionInOrthant {S1 S2} `{Scalar S1} `{Cast S2 S1}
  (xi yi zi orthant : Z) (gray_codes : MatrixXi) (B_vec : Vector3 (list S2))
  (num_intervals_per_half_axis : Z) : result (Vector3 S1) :=
  let orthant_box_interval_idx :=
    PositiveAxisIntervalIndexToFullAxisIntervalIndex
      (vec3 xi yi zi) orthant num_intervals_per_half_axis in
  c0 <- PickBinaryExpressionGivenInterval
          (coef orthant_box_interval_idx 0) gray_codes (coef B_vec 0) ;;
  c1 <- PickBinaryExpressionGivenInterval
          (coef orthant_box_interval_idx 1) gray_codes (coef B_vec 1) ;;
  c2 <- PickBinaryExpressionGivenInterval
          (coef orthant_box_interval_idx 2) gray_codes (coef B_vec 2) ;;
  Ok (vec3 c0 c1 c2).

(** ** Box / sphere intersection *)

(** Vertex [i] of the box: bit [axis] of [i] picks [bmin] over [bmax]. *)
Definition box_vertex (bmin bmax : Vector3d) (i : Z) : Vector3d :=
  let pick axis :=
    if negb (Z.land i (Z.shiftl 1 (Z.of_nat axis)) =? 0)%Z
    then coef bmin axis else coef bmax axis in
  vec3 (pick 0%nat) (pick 1%nat) (pick 2%nat).

(** The two end points of the edge along [axis] whose other two coordinates
    are [val1] and [val2].  Every coordinate of the two points is written
    before it is read, so their initial contents do not matter. *)
Definition edge_end_points (bmin bmax : Vector3d) (axis : nat) (val1 val2 : R)
  : Vector3d * Vector3d :=
  let fixed_axis1 := ((axis + 1) mod 3)%nat in
  let fixed_axis2 := ((axis + 2) mod 3)%nat in
  let pt_closer :=
    set_coef (set_coef (set_coef vzero axis (coef bmin axis)) fixed_axis1 val1)
             fixed_axis2 val2 in
  let pt_farther :=
    set_coef (set_coef (set_coef vzero axis (coef bmax axis))
                       fixed_axis1 (coef pt_closer fixed_axis1))
             fixed_axis2 (coef pt_closer fixed_axis2) in
  (pt_closer, pt_farther).

(** Body of the innermost loop over the edges: the crossing point the edge
    contributes, if any. *)
Definition edge_crossing (bmin bmax : Vector3d) (axis : nat) (val1 val2 : R)
  : result (option Vector3d) :=
  let fixed_axis1 := ((axis + 1) mod 3)%nat in
  let fixed_axis2 := ((axis + 2) mod 3)%nat in
  let '(pt_closer, pt_farther) := edge_end_points bmin bmax axis val1 val2 in
  if Rltb (norm pt_closer) 1 && Rgtb (norm pt_farther) 1 then
    let pt_intersect := set_coef vzero fixed_axis1 (coef pt_closer fixed_axis1) in
    let pt_intersect :=
      set_coef pt_intersect fixed_axis2 (coef pt_closer fixed_axis2) in
    z <- Intercept (coef pt_intersect fixed_axis1)
                   (coef pt_intersect fixed_axis2) ;;
    Ok (Some (set_coef pt_intersect axis z))
  else Ok None.

Definition push_back {A} (l : list A) (a : A) : list A := l ++ [a].

Definition ComputeBoxEdgesAndSphereIntersection (bmin bmax : Vector3d)
  : result (list Vector3d) :=
  (* Assumes the positive orthant (and bmax > bmin). *)
  _ <- DRAKE_ASSERT (Rgeb (vx bmin) 0 && Rgeb (vy bmin) 0 && Rgeb (vz bmin) 0) ;;
  _ <- DRAKE_ASSERT (Rgtb (vx bmax) (vx bmin) && Rgtb (vy bmax) (vy bmin)
                     && Rgtb (vz bmax) (vz bmin)) ;;
  (* Assumes the unit circle intersects the box. *)
  _ <- DRAKE_ASSERT (Rleb (norm bmin) 1) ;;
  _ <- DRAKE_ASSERT (Rgeb (norm bmax) 1) ;;
  if Reqb (norm bmin) 1 then Ok [bmin]
  else if Reqb (norm bmax) 1 then Ok [bmax]
  else
    (* 1. the vertices of the box that are on the sphere *)
    let intersections :=
      fold_left (fun acc i =>
                   let vertex := box_vertex bmin bmax i in
                   if Reqb (norm vertex) 1 then push_back acc vertex else acc)
                (range 8) [] in
    (* 2. the crossing point of each edge, if one exists *)
    foldM (fun acc axis =>
             let fixed_axis1 := ((axis + 1) mod 3)%nat in
             let fixed_axis2 := ((axis + 2) mod 3)%nat in
             foldM (fun acc val1 =>
                      foldM (fun acc val2 =>
                               r <- edge_crossing bmin bmax axis val1 val2 ;;
                               match r with
                               | Some pt_intersect =>
                                   Ok (push_back acc pt_intersect)
                               | None => Ok acc
                               end)
                            [coef bmin fixed_axis2; coef bmax fixed_axis2] acc)
                   [coef bmin fixed_axis1; coef bmax fixed_axis1] acc)
          [0; 1; 2]%nat intersections.

(** ** Planes through the intersection vertices *)

Definition ComputeTriangleOutwardNormal (pt0 pt1 pt2 : Vector3d)
  : result (Vector3d * R) :=
  _ <- DRAKE_DEMAND (all_nonneg pt0) ;;
  _ <- DRAKE_DEMAND (all_nonneg pt1) ;;
  _ <- DRAKE_DEMAND (all_nonneg pt2) ;;
  let n := cross (vsub pt2 pt0) (vsub pt1 pt0) in
  (* If the three points are almost colinear, then throw an error. *)
  let n_norm := norm n in
  if Rltb n_norm (1 / 1000) then Throw "The points are almost colinear."
  else
    let n := vdiv n n_norm in
    let n := if Rltb (vsum n) 0 then vscale (-1) n else n in
    let d := dot pt0 n in
    _ <- DRAKE_DEMAND (all_nonneg n) ;;
    Ok (n, d).

(** [pts[i]]; the callers below index inside the vector. *)
Definition at_index (pts : list Vector3d) (i : nat) : result Vector3d :=
  vcoeff pts i.

Definition AreAllVerticesCoPlanar (pts : list Vector3d)
  : result (bool * Vector3d * R) :=
  _ <- DRAKE_DEMAND (3 <=? List.length pts)%nat ;;
  p0 <- at_index pts 0 ;;
  p1 <- at_index pts 1 ;;
  p2 <- at_index pts 2 ;;
  '(n, d) <- ComputeTriangleOutwardNormal p0 p1 p2 ;;
  (* Determine if the other vertices are on the plane n' * x = d; the loop
     stops at the first vertex off the plane. *)
  if forallb (fun p => negb (Rgtb (Rabs (dot n p - d)) (1 / 10 ^ 10)))
             (skipn 3 pts)
  then Ok (true, n, d)
  else Ok (false, vzero, 0).

Section HalfSpaceRelaxation.

(** The conic solver is an external collaborator: [Solve prog] is the
    assignment [prog.Solve()] leaves behind for [GetSolution]. *)
Variable Solve : MathematicalProgram -> Environment.

Definition ComputeHalfSpaceRelaxationForBoxSphereIntersection
  (pts : list Vector3d) : result (Vector3d * R) :=
  _ <- DRAKE_DEMAND (3 <=? List.length pts)%nat ;;
  '(pts_on_plane, n, d) <- AreAllVerticesCoPlanar pts ;;
  if (pts_on_plane : bool) then Ok (n, d)
  else
    let prog_normal := empty_program in
    let '(n_var, prog_normal) := NewContinuousVariables3 prog_normal "x" in
    let '(d_var, prog_normal) := NewContinuousVariables1 prog_normal "x" in
    let prog_normal := AddLinearCost prog_normal (ENeg (EVar d_var)) in
    let prog_normal :=
      fold_left (fun prog pt =>
                   AddLinearFormula prog (FGe (sdot pt (vars n_var)) (EVar d_var)))
                pts prog_normal in
    let prog_normal :=
      AddLorentzConeConstraint prog_normal (EConst 1 :: vlist (vars n_var)) in
    let solution := Solve prog_normal in
    let n := vmap solution n_var in
    let d := solution d_var in
    _ <- DRAKE_DEMAND (Rgtb (vx n) 0 && Rgtb (vy n) 0 && Rgtb (vz n) 0) ;;
    _ <- DRAKE_DEMAND (Rgtb d 0 && Rltb d 1) ;;
    Ok (n, d).

End HalfSpaceRelaxation.

(** The facets are returned as the rows [(A.row(i), b(i))]. *)
Definition ComputeInnerFacetsForBoxSphereIntersection (pts : list Vector3d)
  : result (list (Vector3d * R)) :=
  _ <- foldM (fun _ pt => DRAKE_DEMAND (all_nonneg pt)) pts tt ;;
  let size := List.length pts in
  foldM (fun Ab i =>
    foldM (fun Ab j =>
      foldM (fun Ab k =>
        (* the triangle formed by pts[i], pts[j] and pts[k] *)
        '(c, d) <- ComputeTriangleOutwardNormal
                     (nth i pts vzero) (nth j pts vzero) (nth k pts vzero) ;;
        (* valid if every other vertex satisfies c' * pts[l] >= d *)
        let is_valid_halfspace :=
          forallb (fun l =>
                     negb (negb (l =? i)%nat && negb (l =? j)%nat
                           && negb (l =? k)%nat
                           && Rltb (dot c (nth l pts vzero)) (d - 1 / 10 ^ 10)))
                  (seq 0 size) in
        if is_valid_halfspace
        then Ok (push_back Ab (vopp c, - d))
        else Ok Ab)
      (seq (j + 1) (size - (j + 1))) Ab)
    (seq (i + 1) (size - (i + 1))) Ab)
  (seq 0 size) [].

(** ** The McCormick constraint emitter *)

Section McCormick.

Variable Solve : MathematicalProgram -> Environment.

(** The vector being constrained, its binary variables along each axis, the
    two other vectors of the frame, the resolution and the Gray codes. *)
Variable v : Vector3 DecisionVariable.
Variable B_i : Vector3 (list DecisionVariable).
Variable v1 v2 : Vector3 DecisionVariable.
Variable num_intervals_per_half_axis : Z.
Variable gray_codes : MatrixXi.

Definition orthant_box_expression (xi yi zi o : Z)
  : result (Vector3 Expression) :=
  CalcBoxBinaryExpressionInOrthant (S1 := Expression) (S2 := DecisionVariable)
    xi yi zi o gray_codes B_i num_intervals_per_half_axis.

(** The box does not intersect the surface of the sphere: one orthant. *)
Definition EmitNoIntersection (xi yi zi : Z) (prog : MathematicalProgram)
  (o : Z) : result MathematicalProgram :=
  orthant_c <- orthant_box_expression xi yi zi o ;;
  Ok (AddLinearFormula prog (FGe (ssum orthant_c) (EConst 1))).

(** The box touches the sphere at the single point [unique_intersection]:
    one orthant. *)
Definition EmitUniqueIntersection (xi yi zi : Z)
  (unique_intersection : Vector3d) (prog : MathematicalProgram) (o : Z)
  : result MathematicalProgram :=
  let orthant_u := FlipVector Ropp unique_intersection o in
  orthant_c <- orthant_box_expression xi yi zi o ;;
  let orthant_c_sum := ssum orthant_c in
  let prog :=
    fold_left (fun prog i =>
      let prog := AddLinearFormula prog
        (FLe (ESub (EVar (coef v i)) (EConst (coef orthant_u i)))
             (EMul (EConst 2) orthant_c_sum)) in
      AddLinearFormula prog
        (FGe (ESub (EVar (coef v i)) (EConst (coef orthant_u i)))
             (EMul (EConst (-2)) orthant_c_sum)))
      [0; 1; 2]%nat prog in
  let v_dot_v1 := sdot orthant_u (vars v1) in
  let v_dot_v2 := sdot orthant_u (vars v2) in
  let prog := AddLinearFormula prog (FLe v_dot_v1 orthant_c_sum) in
  let prog := AddLinearFormula prog (FLe (ENeg orthant_c_sum) v_dot_v1) in
  let prog := AddLinearFormula prog (FLe v_dot_v2 orthant_c_sum) in
  let prog := AddLinearFormula prog (FLe (ENeg orthant_c_sum) v_dot_v2) in
  let v_cross_v1 := scross orthant_u (vars v1) in
  let prog :=
    fold_left (fun prog i =>
      let prog := AddLinearFormula prog
        (FLe (ESub (coef v_cross_v1 i) (EVar (coef v2 i)))
             (EMul (EConst 2) orthant_c_sum)) in
      AddLinearFormula prog
        (FGe (ESub (coef v_cross_v1 i) (EVar (coef v2 i)))
             (EMul (EConst (-2)) orthant_c_sum)))
      [0; 1; 2]%nat prog in
  Ok prog.

(** [lhs <= rhs] between vectors of expressions, one formula. *)
Definition vector_le (lhs rhs : Vector3 Expression) : Formula :=
  FAnd (FAnd (FLe (vx lhs) (vx rhs)) (FLe (vy lhs) (vy rhs)))
       (FLe (vz lhs) (vz rhs)).
Definition vector_ge (lhs rhs : Vector3 Expression) : Formula :=
  FAnd (FAnd (FGe (vx lhs) (vx rhs)) (FGe (vy lhs) (vy rhs)))
       (FGe (vz lhs) (vz rhs)).

(** The max vector norm constraint [-1 <= normal' * x <= 1] of an orthant. *)
Definition norm_bound (orthant_normal : Vector3d) : Constraint :=
  LinearConstraint (vlist orthant_normal) (-1) 1 (vlist v).

(** The box meets the sphere in a region with half space [(normal, d)] and
    inner facets [Ab]: one orthant. *)
Definition EmitIntersectionRegion (xi yi zi : Z) (normal : Vector3d) (d : R)
  (Ab : list (Vector3d * R)) (prog : MathematicalProgram) (o : Z)
  : result MathematicalProgram :=
  let cos_theta := d in
  let theta := acos cos_theta in
  let orthant_normal := FlipVector Ropp normal o in
  orthant_c <- orthant_box_expression xi yi zi o ;;
  let orthant_c_sum := ssum orthant_c in
  let prog :=
    fold_left (fun prog (Ab_i : Vector3d * R) =>
      let '(A_i, b_i) := Ab_i in
      let orthant_a := vopp (FlipVector Ropp (vopp A_i) o) in
      AddLinearFormula prog
        (FLe (ESub (sdot orthant_a (vars v)) (EConst b_i))
             (EMul (EConst (1 - b_i)) orthant_c_sum)))
      Ab prog in
  (* Max vector norm constraint: -1 <= normal'*x <= 1. *)
  let prog :=
    if (Z.rem o 2 =? 0)%Z
    then add_constraint prog (norm_bound orthant_normal)
    else prog in
  (* Dot-product constraint. *)
  let sin_theta := sin theta in
  let prog := AddLinearFormula prog
    (FLe (sdot orthant_normal (vars v1))
         (EAdd (EConst sin_theta) orthant_c_sum)) in
  let prog := AddLinearFormula prog
    (FGe (sdot orthant_normal (vars v1))
         (ESub (EConst (- sin_theta)) orthant_c_sum)) in
  let prog := AddLinearFormula prog
    (FLe (sdot orthant_normal (vars v2))
         (EAdd (EConst sin_theta) orthant_c_sum)) in
  let prog := AddLinearFormula prog
    (FGe (sdot orthant_normal (vars v2))
         (ESub (EConst (- sin_theta)) orthant_c_sum)) in
  (* Cross-product constraint. *)
  let n_cross_v1 := scross orthant_normal (vars v1) in
  let v2_minus_normal_cross_v1 :=
    vec3 (ESub (EVar (vx v2)) (vx n_cross_v1))
         (ESub (EVar (vy v2)) (vy n_cross_v1))
         (ESub (EVar (vz v2)) (vz n_cross_v1)) in
  let two_c := EMul (EConst 2) orthant_c_sum in
  let prog := AddLinearFormula prog
    (vector_le v2_minus_normal_cross_v1
       (vmap (fun c => EAdd (EConst c) two_c)
             (vscale 2 (vec3 (sin (theta / 2)) (sin (theta / 2))
                             (sin (theta / 2)))))) in
  let prog := AddLinearFormula prog
    (vector_ge v2_minus_normal_cross_v1
       (vmap (fun c => ESub (EConst c) two_c)
             (vscale (-2) (vec3 (sin (theta / 2)) (sin (theta / 2))
                                (sin (theta / 2)))))) in
  Ok prog.

Definition box_min_of (xi yi zi : Z) : Vector3d :=
  vec3 (EnvelopeMinValue xi num_intervals_per_half_axis)
       (EnvelopeMinValue yi num_intervals_per_half_axis)
       (EnvelopeMinValue zi num_intervals_per_half_axis).

Definition box_max_of (xi yi zi : Z) : Vector3d :=
  vec3 (EnvelopeMinValue (int_add xi 1) num_intervals_per_half_axis)
       (EnvelopeMinValue (int_add yi 1) num_intervals_per_half_axis)
       (EnvelopeMinValue (int_add zi 1) num_intervals_per_half_axis).

(** The three states of a grid cell. *)
Definition box_intersects_sphere (box_min box_max : Vector3d) : bool :=
  Rleb (norm box_min) (1 + 2 * epsilon) && Rgeb (norm box_max) (1 - 2 * epsilon).

Definition box_touches_sphere (box_min box_max : Vector3d) : bool :=
  Rltb (Rabs (norm box_min - 1)) (2 * epsilon)
  || Rltb (Rabs (norm box_max - 1)) (2 * epsilon).

(** Body of the innermost loop over the grid cells. *)
Definition EmitCell (prog : MathematicalProgram) (xi yi zi : Z)
  : result MathematicalProgram :=
  let box_min := box_min_of xi yi zi in
  let box_max := box_max_of xi yi zi in
  let box_min_norm := norm box_min in
  let box_max_norm := norm box_max in
  if box_intersects_sphere box_min box_max then
    if box_touches_sphere box_min box_max then
      let unique_intersection :=
        if Rltb (Rabs (box_min_norm - 1)) (2 * epsilon)
        then vdiv box_min box_min_norm
        else vdiv box_max box_max_norm in
      foldM (EmitUniqueIntersection xi yi zi unique_intersection) (range 8) prog
    else
      pts <- ComputeBoxEdgesAndSphereIntersection box_min box_max ;;
      _ <- DRAKE_DEMAND (3 <=? List.length pts)%nat ;;
      '(normal, d) <-
        ComputeHalfSpaceRelaxationForBoxSphereIntersection Solve pts ;;
      Ab <- ComputeInnerFacetsForBoxSphereIntersection pts ;;
      foldM (EmitIntersectionRegion xi yi zi normal d Ab) (range 8) prog
  else
    (* This box does not intersect with the surface of the sphere. *)
    foldM (EmitNoIntersection xi yi zi) (range 8) prog.

Definition AddMcCormickVectorConstraints (prog : MathematicalProgram)
  : result MathematicalProgram :=
  let N := num_intervals_per_half_axis in
  foldM (fun prog xi =>
    foldM (fun prog yi =>
      foldM (fun prog zi => EmitCell prog xi yi zi) (range N) prog)
    (range N) prog)
  (range N) prog.

End McCormick.

(** ** Columns in neither the same nor the opposite orthant *)

Definition column_idx : list (nat * nat) := [(0, 1); (0, 2); (1, 2)]%nat.

(** Body of the loop over the column pairs. *)
Definition AddOrthantCutForColumnPair (B : Matrix3 DecisionVariable)
  (prog : MathematicalProgram) (column_pair : nat * nat) : MathematicalProgram :=
  let col_idx0 := fst column_pair in
  let col_idx1 := snd column_pair in
  let '(t, prog) := NewContinuousVariables3 prog "t" in
  let '(s, prog) := NewContinuousVariables3 prog "s" in
  let prog := AddLinearFormula prog (FLe (ssum (vars t)) (EConst 2)) in
  let prog := AddLinearFormula prog (FLe (ssum (vars s)) (EConst 2)) in
  fold_left (fun prog i =>
    let B0 := EVar (mcoef B i col_idx0) in
    let B1 := EVar (mcoef B i col_idx1) in
    let prog := AddLinearFormula prog
      (FGe (EVar (coef t i)) (ESub (EAdd B0 B1) (EConst 1))) in
    let prog := AddLinearFormula prog
      (FGe (ESub (EAdd B0 B1) (EConst 1)) (ENeg (EVar (coef t i)))) in
    let prog := AddLinearFormula prog
      (FGe (EVar (coef s i)) (ESub B0 B1)) in
    AddLinearFormula prog
      (FGe (ESub B0 B1) (ENeg (EVar (coef s i)))))
    [0; 1; 2]%nat prog.

Definition AddNotInSameOrOppositeOrthantConstraint (prog : MathematicalProgram)
  (B : Matrix3 DecisionVariable) (num_intervals_per_half_axis : Z)
  : MathematicalProgram :=
  if (num_intervals_per_half_axis
      =? int_shl1 (CeilLog2 num_intervals_per_half_axis))%Z
  then fold_left (AddOrthantCutForColumnPair B) column_idx prog
  else prog.

(** * Vocabulary of the statements *)

(** ** The orthant cut *)

Definition is_power_of_two (n : Z) : Prop :=
  exists k : Z, (0 <= k)%Z /\ n = (2 ^ k)%Z.

(** The cut of one column pair, in the words of the specification: with
    auxiliary vectors [t] and [s], sum(t) <= 2, sum(s) <= 2 and, on every row
    [i], -t(i) <= B(i,c0) + B(i,c1) - 1 <= t(i) and
    -s(i) <= B(i,c0) - B(i,c1) <= s(i). *)
Definition orthant_cut_holds (env : Environment) (B : Matrix3 DecisionVariable)
  (c0 c1 : nat) (t s : Vector3 DecisionVariable) : Prop :=
  env (vx t) + env (vy t) + env (vz t) <= 2
  /\ env (vx s) + env (vy s) + env (vz s) <= 2
  /\ forall i, (i < 3)%nat ->
       (- env (coef t i) <= env (mcoef B i c0) + env (mcoef B i c1) - 1
        <= env (coef t i))
       /\ (- env (coef s i) <= env (mcoef B i c0) - env (mcoef B i c1)
           <= env (coef s i)).

(** ** Gray-code tables *)

(** Row [k] of a table. *)
Definition row_of (G : MatrixXi) (k : Z) : list Z :=
  nth (Z.to_nat k) (data G) [].

(** Number of positions at which two rows differ. *)
Fixpoint hamming (r1 r2 : list Z) : nat :=
  match r1, r2 with
  | x :: r1', y :: r2' => ((if (x =? y)%Z then 0 else 1) + hamming r1' r2')%nat
  | _, _ => 0%nat
  end.

Fixpoint adjacent_rows_differ_by_one (rs : list (list Z)) : bool :=
  match rs with
  | r1 :: rs' =>
      match rs' with
      | r2 :: _ => (hamming r1 r2 =? 1)%nat && adjacent_rows_differ_by_one rs'
      | [] => true
      end
  | [] => true
  end.

Fixpoint rows_distinct (rs : list (list Z)) : bool :=
  match rs with
  | r :: rs' =>
      forallb (fun r' => negb (hamming r r' =? 0)%nat) rs' && rows_distinct rs'
  | [] => true
  end.

(** The stored dimensions agree with the stored coefficients. *)
Definition well_formed (G : MatrixXi) : bool :=
  (0 <=? cols G)%Z
  && (Z.of_nat (List.length (data G)) =? rows G)%Z
  && forallb (fun r => (Z.of_nat (List.length r) =? cols G)%Z) (data G).

(** A Gray-code table: a 0/1 matrix whose consecutive rows differ in exactly
    one bit and whose rows are pairwise different. *)
Definition is_gray_code_table (G : MatrixXi) : bool :=
  well_formed G
  && forallb (forallb (fun x => (x =? 0)%Z || (x =? 1)%Z)) (data G)
  && adjacent_rows_differ_by_one (data G)
  && rows_distinct (data G).

(** The loop of [PickBinaryExpressionGivenInterval], by name. *)
Section PickTerms.

Context {S1 S2 : Type} `{Scalar S1} `{Cast S2 S1}.

(** One term of the sum. *)
Definition pick_term (g : Z) (bi : S2) : S1 :=
  if (g =? 0)%Z then cast bi else s_sub (s_const 1) (cast bi).

(** One iteration. *)
Definition pick_body (G : MatrixXi) (k : Z) (b : list S2) (ret : S1) (i : nat)
  : result S1 :=
  g <- coeff G k (Z.of_nat i) ;;
  bi <- vcoeff b i ;;
  Ok (s_add ret (if (g =? 0)%Z then cast bi
                 else s_sub (s_const 1) (cast bi))).

End PickTerms.

(** ** Boxes and the sphere *)

(** [bmin <= p <= bmax], componentwise. *)
Definition in_box (bmin bmax p : Vector3d) : Prop :=
  vx bmin <= vx p <= vx bmax
  /\ vy bmin <= vy p <= vy bmax
  /\ vz bmin <= vz p <= vz bmax.

(** The preconditions of [ComputeBoxEdgesAndSphereIntersection]. *)
Definition box_meets_sphere (bmin bmax : Vector3d) : Prop :=
  (0 <= vx bmin /\ 0 <= vy bmin /\ 0 <= vz bmin)
  /\ (vx bmin < vx bmax /\ vy bmin < vy bmax /\ vz bmin < vz bmax)
  /\ norm bmin <= 1 <= norm bmax.

(** The twelve edges visited by the second loop of
    [ComputeBoxEdgesAndSphereIntersection]: the axis of the edge and its two
    fixed coordinates. *)
Definition is_box_edge (bmin bmax : Vector3d) (axis : nat) (val1 val2 : R)
  : Prop :=
  (axis < 3)%nat
  /\ In val1 [coef bmin ((axis + 1) mod 3); coef bmax ((axis + 1) mod 3)]
  /\ In val2 [coef bmin ((axis + 2) mod 3); coef bmax ((axis + 2) mod 3)].

(** ** Triangles and half spaces *)

(** The normalized cross product of a triangle, with its sign flipped when
    the sum of its components is negative. *)
Definition triangle_unit_normal (pt0 pt1 pt2 : Vector3d) : Vector3d :=
  let c := cross (vsub pt2 pt0) (vsub pt1 pt0) in
  let u := vdiv c (norm c) in
  if Rltb (vsum u) 0 then vscale (-1) u else u.

(** The behaviour the specification states for
    [ComputeTriangleOutwardNormal]: on points of the non-negative orthant
    either the cross product is shorter than 1e-3 and the call throws, or it
    returns the sign-adjusted unit normal, with all components non-negative,
    and the offset [pt0 . n]. *)
Definition triangle_normal_as_specified : Prop :=
  forall pt0 pt1 pt2 : Vector3d,
    all_nonneg pt0 = true -> all_nonneg pt1 = true -> all_nonneg pt2 = true ->
    let c := cross (vsub pt2 pt0) (vsub pt1 pt0) in
    (norm c < 1 / 1000 ->
     exists what, ComputeTriangleOutwardNormal pt0 pt1 pt2 = Throw what)
    /\ (~ norm c < 1 / 1000 ->
        exists n d,
          ComputeTriangleOutwardNormal pt0 pt1 pt2 = Ok (n, d)
          /\ (n = vdiv c (norm c) \/ n = vscale (-1) (vdiv c (norm c)))
          /\ all_nonneg n = true
          /\ d = dot pt0 n).

(** The postcondition asserted at the end of
    [ComputeHalfSpaceRelaxationForBoxSphereIntersection]. *)
Definition half_space_postcondition (n : Vector3d) (d : R) : Prop :=
  (0 < vx n /\ 0 < vy n /\ 0 < vz n) /\ 0 < d < 1.

(** The statement of the specification on the result of
    [ComputeHalfSpaceRelaxationForBoxSphereIntersection]: for every vertex
    list with at least three points, whatever is returned, on any return
    path, has a strictly positive normal and [0 < d < 1]. *)
Definition half_space_postcondition_on_every_path : Prop :=
  forall (Solve : MathematicalProgram -> Environment) (pts : list Vector3d)
         (n : Vector3d) (d : R),
    (3 <= List.length pts)%nat ->
    ComputeHalfSpaceRelaxationForBoxSphereIntersection Solve pts = Ok (n, d) ->
    half_space_postcondition n d.

(** ** The emitter *)

(** What [AddRotationMatrixMcCormickEnvelopeMilpConstraints] guarantees when
    it calls the emitter: a valid resolution, a Gray-code table with a row
    for each of the [2 N] intervals of an axis, and one binary variable per
    Gray-code digit on each axis. *)
Definition valid_encoding (N : Z) (G : MatrixXi)
  (B_i : Vector3 (list DecisionVariable)) : Prop :=
  (1 <= N < 2 ^ 30)%Z
  /\ is_gray_code_table G = true
  /\ (2 * N <= rows G)%Z
  /\ Forall (fun b => Z.of_nat (List.length b) = cols G) (vlist B_i).

(** A cell of the grid the emitter loops over. *)
Definition valid_cell (N xi yi zi : Z) : Prop :=
  (0 <= xi < N)%Z /\ (0 <= yi < N)%Z /\ (0 <= zi < N)%Z.

(** The assignment gives 0 or 1 to every binary variable of [B_i]. *)
Definition binary_assignment (env : Environment)
  (B_i : Vector3 (list DecisionVariable)) : Prop :=
  Forall (Forall (fun x => env x = 0 \/ env x = 1)) (vlist B_i).

(** The binary variables select, on every axis, the interval of the box
    [(xi, yi, zi)] reflected into orthant [o]. *)
Definition selects_box (env : Environment) (G : MatrixXi)
  (B_i : Vector3 (list DecisionVariable)) (N xi yi zi o : Z) : Prop :=
  forall axis, (axis < 3)%nat ->
    map env (coef B_i axis)
    = map IZR (row_of G (coef (PositiveAxisIntervalIndexToFullAxisIntervalIndex
                                 (vec3 xi yi zi) o N) axis)).


(** The constraints of a program added by
    [AddLinearConstraint(a, lb, ub, vars)]; in the emitter these are the
    norm bounds. *)
Definition norm_bounds_of (cs : list Constraint) : list Constraint :=
  filter (fun c => match c with
                   | LinearConstraint _ _ _ _ => true
                   | _ => false
                   end) cs.

(** The statement of the specification that every one of the eight orthants
    of a cell with an intersection region gets its norm bound: eight norm
    bounds per cell. *)
Definition norm_bound_in_every_orthant : Prop :=
  forall (Solve : MathematicalProgram -> Environment)
         (v : Vector3 DecisionVariable) (B_i : Vector3 (list DecisionVariable))
         (v1 v2 : Vector3 DecisionVariable) (N : Z) (G : MatrixXi)
         (prog prog' : MathematicalProgram) (xi yi zi : Z),
    valid_encoding N G B_i -> valid_cell N xi yi zi ->
    box_intersects_sphere (box_min_of N xi yi zi) (box_max_of N xi yi zi) = true ->
    box_touches_sphere (box_min_of N xi yi zi) (box_max_of N xi yi zi) = false ->
    EmitCell Solve v B_i v1 v2 N G prog xi yi zi = Ok prog' ->
    List.length (norm_bounds_of (constraints prog'))
    = (List.length (norm_bounds_of (constraints prog)) + 8)%nat.

(** The later program has every constraint of the earlier one. *)
Definition keeps_constraints (p p' : MathematicalProgram) : Prop :=
  incl (constraints p) (constraints p').

(** ** Concrete data of the examples *)

Definition b0 : DecisionVariable := mkVar 0 "b" BINARY.
Definition b1 : DecisionVariable := mkVar 1 "b" BINARY.

(** The assignment [b = (0, 1)], row 1 of the two-digit Gray code. *)
Definition env_row1 : Environment :=
  fun x => if (get_id x =? 1)%nat then 1 else 0.

(** A 3x3 matrix of binary variables with identifiers 0..8. *)
Definition B_example : Matrix3 DecisionVariable :=
  let c j := vec3 (mkVar (3 * j) "B" BINARY) (mkVar (3 * j + 1) "B" BINARY)
                  (mkVar (3 * j + 2) "B" BINARY) in
  vec3 (c 0%nat) (c 1%nat) (c 2%nat).

(** The unit cube, its intersection vertices in the order the function
    returns them, and the unit normal of the plane through them. *)
Definition unit_cube_min : Vector3d := vec3 0 0 0.
Definition unit_cube_max : Vector3d := vec3 1 1 1.
Definition unit_cube_pts : list Vector3d := [vec3 0 0 1; vec3 0 1 0; vec3 1 0 0].
Definition unit_cube_normal : Vector3d :=
  vec3 (1 / sqrt 3) (1 / sqrt 3) (1 / sqrt 3).

(** A box with an edge that crosses the sphere. *)
Definition slab_min : Vector3d := vec3 0 0 0.
Definition slab_max : Vector3d := vec3 (3 / 5) (3 / 5) 1.

(** Three points of the non-negative orthant whose triangle has the normal
    (2, 2, -1) / 3. *)
Definition tilted_pt0 : Vector3d := vec3 0 0 0.
Definition tilted_pt1 : Vector3d := vec3 1 0 2.
Definition tilted_pt2 : Vector3d := vec3 0 1 2.

(** Three points of the unit sphere, in the non-negative orthant, on the
    plane z = 0. *)
Definition flat_pts : list Vector3d :=
  [vec3 1 0 0; vec3 0 1 0; vec3 (3 / 5) (4 / 5) 0].

(** One rotation column [v] with the two other columns, one or two binary
    digits per axis, and a solver that answers 0 everywhere. *)
Definition v_example : Vector3 DecisionVariable :=
  vec3 (mkVar 0 "R" CONTINUOUS) (mkVar 1 "R" CONTINUOUS) (mkVar 2 "R" CONTINUOUS).
Definition v1_example : Vector3 DecisionVariable :=
  vec3 (mkVar 3 "R" CONTINUOUS) (mkVar 4 "R" CONTINUOUS) (mkVar 5 "R" CONTINUOUS).
Definition v2_example : Vector3 DecisionVariable :=
  vec3 (mkVar 6 "R" CONTINUOUS) (mkVar 7 "R" CONTINUOUS) (mkVar 8 "R" CONTINUOUS).
Definition B1_example : Vector3 (list DecisionVariable) :=
  vec3 [mkVar 9 "B" BINARY] [mkVar 10 "B" BINARY] [mkVar 11 "B" BINARY].
Definition zero_solver : MathematicalProgram -> Environment := fun _ _ => 0.

(** * Further functions of the file *)

(** ** Roll, pitch and yaw limits *)

(** Modelled from the spec: [RollPitchYawLimits] is a bit mask of permitted
    half ranges of the three angles (the enumeration is declared in
    drake/solvers/rotation_constraint.h, which is not among the sources).
    The values of its flags are those the comment at the head of
    [AddBoundingBoxConstraintsImpliedByRollPitchYawLimits] lists. *)
Definition kRoll_NegPI_2_to_PI_2 : Z := Z.shiftl 1 1.   (* cos(r) >= 0 *)
Definition kRoll_0_to_PI : Z := Z.shiftl 1 2.           (* sin(r) >= 0 *)
Definition kPitch_NegPI_2_to_PI_2 : Z := Z.shiftl 1 3.  (* cos(p) >= 0 *)
Definition kPitch_0_to_PI : Z := Z.shiftl 1 4.          (* sin(p) >= 0 *)
Definition kYaw_NegPI_2_to_PI_2 : Z := Z.shiftl 1 5.    (* cos(y) >= 0 *)
Definition kYaw_0_to_PI : Z := Z.shiftl 1 6.            (* sin(y) >= 0 *)

(** [limits & flag], used as a condition. *)
Definition has_limit (limits flag : Z) : bool :=
  negb (Z.land limits flag =? 0)%Z.

Definition AddBoundingBoxConstraintsImpliedByRollPitchYawLimits
  (prog : MathematicalProgram) (R : Matrix3 DecisionVariable) (limits : Z)
  : MathematicalProgram :=
  let prog :=
    if has_limit limits kPitch_NegPI_2_to_PI_2
       && has_limit limits kYaw_NegPI_2_to_PI_2
    then AddBoundingBoxConstraint prog 0 1 [mcoef R 0 0] else prog in
  let prog :=
    if has_limit limits kPitch_NegPI_2_to_PI_2 && has_limit limits kYaw_0_to_PI
    then AddBoundingBoxConstraint prog 0 1 [mcoef R 1 0] else prog in
  let prog :=
    if has_limit limits kPitch_0_to_PI
    then AddBoundingBoxConstraint prog (-1) 0 [mcoef R 2 0] else prog in
  let prog :=
    if has_limit limits kRoll_NegPI_2_to_PI_2
       && has_limit limits kYaw_NegPI_2_to_PI_2
       && has_limit limits kPitch_0_to_PI && has_limit limits kRoll_0_to_PI
       && has_limit limits kYaw_0_to_PI
    then AddBoundingBoxConstraint prog 0 1 [mcoef R 1 1] else prog in
  let prog :=
    if has_limit limits kPitch_NegPI_2_to_PI_2 && has_limit limits kRoll_0_to_PI
    then AddBoundingBoxConstraint prog 0 1 [mcoef R 2 1] else prog in
  let prog :=
    if has_limit limits kRoll_0_to_PI && has_limit limits kYaw_0_to_PI
       && has_limit limits kRoll_NegPI_2_to_PI_2
       && has_limit limits kYaw_NegPI_2_to_PI_2
       && has_limit limits kPitch_0_to_PI
    then AddBoundingBoxConstraint prog 0 1 [mcoef R 0 2] else prog in
  if has_limit limits kPitch_NegPI_2_to_PI_2
     && has_limit limits kRoll_NegPI_2_to_PI_2
  then AddBoundingBoxConstraint prog 0 1 [mcoef R 2 2] else prog.

Definition AddBoundingBoxConstraintsImpliedByRollPitchYawLimitsToBinary
  (prog : MathematicalProgram) (B : Matrix3 DecisionVariable) (limits : Z)
  : MathematicalProgram :=
  let prog :=
    if has_limit limits kPitch_NegPI_2_to_PI_2
       && has_limit limits kYaw_NegPI_2_to_PI_2
    then AddBoundingBoxConstraint prog 1 1 [mcoef B 0 0] else prog in
  let prog :=
    if has_limit limits kPitch_NegPI_2_to_PI_2 && has_limit limits kYaw_0_to_PI
    then AddBoundingBoxConstraint prog 1 1 [mcoef B 1 0] else prog in
  let prog :=
    if has_limit limits kPitch_0_to_PI
    then AddBoundingBoxConstraint prog 0 0 [mcoef B 2 0] else prog in
  let prog :=
    if has_limit limits kRoll_NegPI_2_to_PI_2
       && has_limit limits kYaw_NegPI_2_to_PI_2
       && has_limit limits kPitch_0_to_PI && has_limit limits kRoll_0_to_PI
       && has_limit limits kYaw_0_to_PI
    then AddBoundingBoxConstraint prog 1 1 [mcoef B 1 1] else prog in
  let prog :=
    if has_limit limits kPitch_NegPI_2_to_PI_2 && has_limit limits kRoll_0_to_PI
    then AddBoundingBoxConstraint prog 1 1 [mcoef B 2 1] else prog in
  let prog :=
    if has_limit limits kRoll_0_to_PI && has_limit limits kYaw_0_to_PI
       && has_limit limits kRoll_NegPI_2_to_PI_2
       && has_limit limits kYaw_NegPI_2_to_PI_2
       && has_limit limits kPitch_0_to_PI
    then AddBoundingBoxConstraint prog 1 1 [mcoef B 0 2] else prog in
  if has_limit limits kPitch_NegPI_2_to_PI_2
     && has_limit limits kRoll_NegPI_2_to_PI_2
  then AddBoundingBoxConstraint prog 1 1 [mcoef B 2 2] else prog.

(** ** Orthogonality of two vectors as two Lorentz cones *)

(** [v1 + v2] and [v1 - v2] on vectors of variables. *)
Definition vars_add (v1 v2 : Vector3 DecisionVariable) : Vector3 Expression :=
  vec3 (EAdd (EVar (vx v1)) (EVar (vx v2))) (EAdd (EVar (vy v1)) (EVar (vy v2)))
       (EAdd (EVar (vz v1)) (EVar (vz v2))).
Definition vars_sub (v1 v2 : Vector3 DecisionVariable) : Vector3 Expression :=
  vec3 (ESub (EVar (vx v1)) (EVar (vx v2))) (ESub (EVar (vy v1)) (EVar (vy v2)))
       (ESub (EVar (vz v1)) (EVar (vz v2))).

Definition AddOrthogonalConstraint (prog : MathematicalProgram)
  (v1 v2 : Vector3 DecisionVariable) : MathematicalProgram :=
  (* |v1+v2|^2 <= 2, as a Lorentz cone using z = [ sqrt(2); v1+v2 ]. *)
  let z := EConst (sqrt 2) :: vlist (vars_add v1 v2) in
  let prog := AddLorentzConeConstraint prog z in
  (* |v1-v2|^2 <= 2: z.tail<3>() = v1 - v2. *)
  let z := firstn 1 z ++ vlist (vars_sub v1 v2) in
  AddLorentzConeConstraint prog z.

(** ** The SOCP relaxation *)

(** Modelled from the spec: rotated second-order cones are one more kind of
    descriptor the problem object collects (section 9 of the
    specification).  [AddRotatedLorentzConeConstraint(A, b, x)] records that
    [z = A x + b] is in the rotated Lorentz cone, [z0 z1 >= z2^2 + ... ],
    [z0 >= 0], [z1 >= 0]; [A] is given by rows. *)
Record RotatedLorentzConeConstraint : Type := mkRotatedCone {
  cone_A : list (list R);
  cone_b : list R;
  cone_x : list DecisionVariable
}.

(** Modelled from the spec: the problem object with the rotated cones it
    has collected next to its other descriptors. *)
Record SocpProgram : Type := mkSocp {
  program : MathematicalProgram;
  rotated_lorentz_cone_constraints : list RotatedLorentzConeConstraint
}.

Definition AddRotatedLorentzConeConstraint (prog : SocpProgram)
  (A : list (list R)) (b : list R) (x : list DecisionVariable) : SocpProgram :=
  mkSocp (program prog)
         (rotated_lorentz_cone_constraints prog ++ [mkRotatedCone A b x]).

(** A call that records descriptors of the other kinds. *)
Definition in_program (f : MathematicalProgram -> MathematicalProgram)
  (prog : SocpProgram) : SocpProgram :=
  mkSocp (f (program prog)) (rotated_lorentz_cone_constraints prog).

(** What a rotated cone descriptor demands of an assignment. *)
Definition in_rotated_cone (env : Environment)
  (c : RotatedLorentzConeConstraint) : Prop :=
  match map (fun Ab_i => lin (fst Ab_i) (cone_x c) env + snd Ab_i)
            (combine (cone_A c) (cone_b c)) with
  | z0 :: z1 :: zs =>
      0 <= z0 /\ 0 <= z1
      /\ fold_right (fun z acc => z * z + acc) 0 zs <= z0 * z1
  | _ => True
  end.

Definition AddRotationMatrixOrthonormalSocpConstraint (prog : SocpProgram)
  (R : Matrix3 DecisionVariable) : SocpProgram :=
  (* All columns should be unit length (but we can only write Ri'Ri<=1),
     as a rotated Lorentz cone with z = Ax+b = [1;1;R.col(i)]. *)
  let A := [[0; 0; 0]; [0; 0; 0]; [1; 0; 0]; [0; 1; 0]; [0; 0; 1]] in
  let b := [1; 1; 0; 0; 0] in
  let prog :=
    fold_left (fun prog i =>
                 let prog :=
                   AddRotatedLorentzConeConstraint prog A b (vlist (col R i)) in
                 AddRotatedLorentzConeConstraint prog A b (vlist (row R i)))
              [0; 1; 2]%nat prog in
  let prog :=
    in_program (fun p => AddOrthogonalConstraint p (col R 0) (col R 1)) prog in
  let prog :=
    in_program (fun p => AddOrthogonalConstraint p (col R 1) (col R 2)) prog in
  let prog :=
    in_program (fun p => AddOrthogonalConstraint p (col R 0) (col R 2)) prog in
  (* Same for the rows. *)
  let prog :=
    in_program (fun p => AddOrthogonalConstraint p (row R 0) (row R 1)) prog in
  let prog :=
    in_program (fun p => AddOrthogonalConstraint p (row R 1) (row R 2)) prog in
  in_program (fun p => AddOrthogonalConstraint p (row R 0) (row R 2)) prog.

(** ** PickPermutation *)

Definition PickPermutation {A} (a b : Vector3 A) (orthant : Z)
  : result (Vector3 A) :=
  _ <- DRAKE_DEMAND ((orthant >=? 0)%Z && (orthant <=? 7)%Z) ;;
  let mask := FlipVector Z.opp (vec3 1 1 1)%Z orthant in
  let c := a in
  let c :=
    fold_left (fun c i =>
                 if (coef mask i <? 0)%Z then set_coef c i (coef b i) else c)
              [0; 1; 2]%nat c in
  Ok c.

(** ** The unit-length cut on the SOS2 weights *)

Definition AddUnitLengthConstraintWithLogarithmicSOS2
  (prog : MathematicalProgram) (phi_vec : list R)
  (lambda0 lambda1 lambda2 : list DecisionVariable)
  : result MathematicalProgram :=
  let x_sum_of_squares_ub := EConst 0 in
  _ <- DRAKE_ASSERT (List.length phi_vec =? List.length lambda0)%nat ;;
  _ <- DRAKE_ASSERT (List.length phi_vec =? List.length lambda1)%nat ;;
  _ <- DRAKE_ASSERT (List.length phi_vec =? List.length lambda2)%nat ;;
  x_sum_of_squares_ub <-
    foldM (fun x_sum_of_squares_ub i =>
             phi_i <- vcoeff phi_vec i ;;
             l0 <- vcoeff lambda0 i ;;
             l1 <- vcoeff lambda1 i ;;
             l2 <- vcoeff lambda2 i ;;
             let phi_square := phi_i * phi_i in
             Ok (EAdd x_sum_of_squares_ub
                      (EMul (EAdd (EAdd (EVar l0) (EVar l1)) (EVar l2))
                            (EConst phi_square))))
          (seq 0 (List.length phi_vec)) x_sum_of_squares_ub ;;
  Ok (AddLinearFormula prog (FGe x_sum_of_squares_ub (EConst 1))).

(** * Vocabulary of the further properties *)

(** The later program differs from the earlier one by the constraints [cs],
    added at the end: same variables, same costs, no constraint removed or
    changed. *)
Definition only_adds (p p' : MathematicalProgram) (cs : list Constraint)
  : Prop :=
  decision_variables p' = decision_variables p
  /\ linear_costs p' = linear_costs p
  /\ constraints p' = constraints p ++ cs.

(** The rotation matrix of roll [r], pitch [p] and yaw [y], as the comment
    at the head of [AddBoundingBoxConstraintsImpliedByRollPitchYawLimits]
    gives it. *)
Definition rpy_matrix (r p y : R) : Matrix3 R :=
  vec3 (vec3 (cos p * cos y) (cos p * sin y) (- sin p))
       (vec3 (cos y * sin p * sin r - cos r * sin y)
             (cos r * cos y + sin p * sin r * sin y)
             (cos p * sin r))
       (vec3 (sin r * sin y + cos r * cos y * sin p)
             (cos r * sin p * sin y - cos y * sin r)
             (cos p * cos r)).

(** The angles are within the half ranges the mask names. *)
Definition within_limits (limits : Z) (r p y : R) : Prop :=
  (has_limit limits kRoll_NegPI_2_to_PI_2 = true -> - (PI / 2) <= r <= PI / 2)
  /\ (has_limit limits kRoll_0_to_PI = true -> 0 <= r <= PI)
  /\ (has_limit limits kPitch_NegPI_2_to_PI_2 = true ->
      - (PI / 2) <= p <= PI / 2)
  /\ (has_limit limits kPitch_0_to_PI = true -> 0 <= p <= PI)
  /\ (has_limit limits kYaw_NegPI_2_to_PI_2 = true -> - (PI / 2) <= y <= PI / 2)
  /\ (has_limit limits kYaw_0_to_PI = true -> 0 <= y <= PI).

(** The assignment gives the variables of [X] the values of [M]. *)
Definition assigns (env : Environment) (X : Matrix3 DecisionVariable)
  (M : Matrix3 R) : Prop :=
  forall i j, (i < 3)%nat -> (j < 3)%nat -> env (mcoef X i j) = mcoef M i j.

(** The values of a vector of variables. *)
Definition values (env : Environment) (v : Vector3 DecisionVariable)
  : Vector3d := vmap env v.

(** The values of a matrix of variables. *)
Definition matrix_values (env : Environment) (X : Matrix3 DecisionVariable)
  : Matrix3 R := vmap (vmap env) X.

(** The two vectors are no longer than 1 and, relaxed, orthogonal:
    [|a + b|^2 <= 2] and [|a - b|^2 <= 2]. *)
Definition relaxed_orthonormal_pair (a b : Vector3d) : Prop :=
  squaredNorm a <= 1 /\ squaredNorm b <= 1
  /\ squaredNorm a + 2 * dot a b + squaredNorm b <= 2
  /\ squaredNorm a - 2 * dot a b + squaredNorm b <= 2.

(** The columns, and the rows, of the matrix have unit length and are
    orthogonal to each other. *)
Definition orthonormal (M : Matrix3 R) : Prop :=
  (forall i, (i < 3)%nat ->
     squaredNorm (col M i) = 1 /\ squaredNorm (row M i) = 1)
  /\ (forall i j, (i < 3)%nat -> (j < 3)%nat -> i <> j ->
        dot (col M i) (col M j) = 0 /\ dot (row M i) (row M j) = 0).

(** A facet of the inner approximation of a vertex set: minus a triangle
    plane through three of the points, with every point on its inner side
    up to 1e-10. *)
Definition facet_of (pts : list Vector3d) (Ab_i : Vector3d * R) : Prop :=
  let '(A_i, b_i) := Ab_i in
  (exists i j k : nat,
      (i < j < k)%nat /\ (k < List.length pts)%nat
      /\ ComputeTriangleOutwardNormal (nth i pts vzero) (nth j pts vzero)
           (nth k pts vzero) = Ok (vopp A_i, - b_i))
  /\ norm A_i = 1
  /\ (vx A_i <= 0 /\ vy A_i <= 0 /\ vz A_i <= 0)
  /\ b_i <= 0
  /\ Forall (fun p => dot A_i p <= b_i + 1 / 10 ^ 10) pts.

(** [p] lies on one of the twelve edges of the box: two of its coordinates
    are coordinates of [bmin] or [bmax], the third one is between those of
    [bmin] and [bmax]. *)
Definition on_box_edge (bmin bmax p : Vector3d) : Prop :=
  exists axis : nat,
    is_box_edge bmin bmax axis (coef p ((axis + 1) mod 3))
      (coef p ((axis + 2) mod 3))
    /\ coef bmin axis <= coef p axis <= coef bmax axis.

(** A 3x3 matrix of continuous variables with identifiers 0..8, stored by
    columns, and the assignment that gives it the entries of the rotation
    with roll, pitch and yaw zero. *)
Definition R_example : Matrix3 DecisionVariable :=
  let c j := vec3 (mkVar (3 * j) "R" CONTINUOUS)
                  (mkVar (3 * j + 1) "R" CONTINUOUS)
                  (mkVar (3 * j + 2) "R" CONTINUOUS) in
  vec3 (c 0%nat) (c 1%nat) (c 2%nat).
Definition env_rpy_zero : Environment :=
  fun x => mcoef (rpy_matrix 0 0 0) (get_id x mod 3) (get_id x / 3).

(** All six limits. *)
Definition all_limits : Z := 126.

(** The limits "roll, pitch and yaw between -pi/2 and pi/2". *)
Definition cosine_limits : Z := 42.

(** The values are weights of a convex combination: none is negative and
    they sum to one (what the SOS2 constraint guarantees of each lambda). *)
Definition convex_weights (env : Environment) (lambda : list DecisionVariable)
  : Prop :=
  Forall (fun x => 0 <= env x) lambda
  /\ fold_right Rplus 0 (map env lambda) = 1.

(** [phi_vec(i) * phi_vec(i)], for every [i]. *)
Definition squares (phi_vec : list R) : list R := map (fun p => p * p) phi_vec.

(** Three weight variables on the break points -1, 0, 1, and the assignment
    that puts all the weight on the last one. *)
Definition lambda_example (k : nat) : list DecisionVariable :=
  [mkVar (3 * k) "lambda" CONTINUOUS; mkVar (3 * k + 1) "lambda" CONTINUOUS;
   mkVar (3 * k + 2) "lambda" CONTINUOUS].
Definition env_last_weight : Environment :=
  fun x => if (get_id x mod 3 =? 2)%nat then 1 else 0.

(** The descriptor is one of the two linear kinds. *)
Definition is_linear (c : Constraint) : bool :=
  match c with
  | LinearConstraint _ _ _ _ | LinearFormulaConstraint _ => true
  | BoundingBoxConstraint _ _ _ | LorentzConeConstraint _ => false
  end.

(** The later program is the earlier one with linear constraints added at
    the end. *)
Definition adds_linear_constraints (p p' : MathematicalProgram) : Prop :=
  exists cs : list Constraint,
    only_adds p p' cs /\ forallb is_linear cs = true.

(** The outcome of a call, with a function applied to a returned value. *)
Definition result_map {A B : Type} (f : A -> B) (r : result A) : result B :=
  match r with
  | Ok a => Ok (f a)
  | Throw w => Throw w
  | Abort => Abort
  | OutOfRange => OutOfRange
  end.

(** The value is 0 or 1. *)
Definition is_binary (x : R) : Prop := x = 0 \/ x = 1.

(** An assignment that agrees with [env] on the variables of the program
    and gives the six auxiliary variables created next the values [ts]. *)
Definition with_auxiliaries (prog : MathematicalProgram) (env : Environment)
  (ts : list R) : Environment :=
  fun x =>
    if (fresh_id prog <=? get_id x)%nat
    then nth (get_id x - fresh_id prog) ts (env x)
    else env x.


(** The program [ComputeHalfSpaceRelaxationForBoxSphereIntersection] hands
    to the solver when the points are not co-planar: maximize [d] subject to
    [n . pt >= d] for every point and [|n| <= 1]. *)
Definition half_space_program (pts : list Vector3d) : MathematicalProgram :=
  let prog_normal := empty_program in
  let '(n_var, prog_normal) := NewContinuousVariables3 prog_normal "x" in
  let '(d_var, prog_normal) := NewContinuousVariables1 prog_normal "x" in
  let prog_normal := AddLinearCost prog_normal (ENeg (EVar d_var)) in
  let prog_normal :=
    fold_left (fun prog pt =>
                 AddLinearFormula prog (FGe (sdot pt (vars n_var)) (EVar d_var)))
              pts prog_normal in
  AddLorentzConeConstraint prog_normal (EConst 1 :: vlist (vars n_var)).

(** The variables of that program: the normal and the offset. *)
Definition half_space_n_var : Vector3 DecisionVariable :=
  vec3 (mkVar 0 "x" CONTINUOUS) (mkVar 1 "x" CONTINUOUS) (mkVar 2 "x" CONTINUOUS).
Definition half_space_d_var : DecisionVariable := mkVar 3 "x" CONTINUOUS.

(** Four points of the unit sphere that are not co-planar, and a solver
    that answers 1/2 for every variable. *)
Definition four_pts : list Vector3d :=
  [vec3 1 0 0; vec3 0 1 0; vec3 0 0 1; vec3 (3 / 5) (4 / 5) 0].
Definition half_solver : MathematicalProgram -> Environment :=
  fun _ _ => 1 / 2.

(** Four binary digits per axis, as the resolution [N = 5] needs. *)
Definition B4_example : Vector3 (list DecisionVariable) :=
  let digits k := map (fun i => mkVar (9 + 4 * k + i) "B" BINARY) (seq 0 4) in
  vec3 (digits 0%nat) (digits 1%nat) (digits 2%nat).

(** * Properties *)

(** ** Comparisons *)

Lemma Rltb_true a b : Rltb a b = true <-> a < b.
Proof. unfold Rltb; destruct (Rlt_dec a b); split; intros; auto; discriminate. Qed.

Lemma Rltb_false a b : Rltb a b = false <-> ~ a < b.
Proof. unfold Rltb; destruct (Rlt_dec a b); split; intros; auto; try discriminate; contradiction. Qed.

Lemma Rleb_true a b : Rleb a b = true <-> a <= b.
Proof. unfold Rleb; destruct (Rle_dec a b); split; intros; auto; discriminate. Qed.

Lemma Rleb_false a b : Rleb a b = false <-> ~ a <= b.
Proof. unfold Rleb; destruct (Rle_dec a b); split; intros; auto; try discriminate; contradiction. Qed.

Lemma Reqb_true a b : Reqb a b = true <-> a = b.
Proof. unfold Reqb; destruct (Req_dec_T a b); split; intros; auto; discriminate. Qed.

Lemma Reqb_false a b : Reqb a b = false <-> a <> b.
Proof. unfold Reqb; destruct (Req_dec_T a b); split; intros; auto; try discriminate; contradiction. Qed.

Lemma Rgtb_true a b : Rgtb a b = true <-> a > b.
Proof. unfold Rgtb; rewrite Rltb_true; tauto. Qed.

Lemma Rgeb_true a b : Rgeb a b = true <-> a >= b.
Proof. unfold Rgeb; rewrite Rleb_true; split; intros; lra. Qed.

Lemma Rgtb_false a b : Rgtb a b = false <-> ~ a > b.
Proof. unfold Rgtb; rewrite Rltb_false; tauto. Qed.

Lemma Rgeb_false a b : Rgeb a b = false <-> ~ a >= b.
Proof. unfold Rgeb; rewrite Rleb_false; split; intros H H'; apply H; lra. Qed.

(** Rewriting a comparison whose outcome is known. *)
Lemma Rltb_yes a b : a < b -> Rltb a b = true.
Proof. apply Rltb_true. Qed.
Lemma Rltb_no a b : b <= a -> Rltb a b = false.
Proof. intros; apply Rltb_false; lra. Qed.
Lemma Rleb_yes a b : a <= b -> Rleb a b = true.
Proof. apply Rleb_true. Qed.
Lemma Rleb_no a b : b < a -> Rleb a b = false.
Proof. intros; apply Rleb_false; lra. Qed.
Lemma Reqb_yes a b : a = b -> Reqb a b = true.
Proof. apply Reqb_true. Qed.
Lemma Reqb_no a b : a <> b -> Reqb a b = false.
Proof. apply Reqb_false. Qed.

(** ** NewRotationMatrixVars *)

(** C8. [NewRotationMatrixVars] creates nine fresh continuous variables, the
    coefficients of a 3x3 matrix [R], and installs exactly two constraints:
    the bounding box [-1 <= R(i,j) <= 1] over every coefficient and the linear
    constraint [-1 <= R(0,0) + R(1,1) + R(2,2) <= 3]; nothing else of the
    program changes. *)
Theorem NewRotationMatrixVars_box_and_trace
  (prog : MathematicalProgram) (name : string) :
  let '(R, prog') := NewRotationMatrixVars prog name in
  decision_variables prog' = decision_variables prog ++ mlist R
  /\ Forall (fun x => get_type x = CONTINUOUS) (mlist R)
  /\ map get_id (mlist R) = seq (fresh_id prog) 9
  /\ (forall i j, (i < 3)%nat -> (j < 3)%nat -> In (mcoef R i j) (mlist R))
  /\ linear_costs prog' = linear_costs prog
  /\ exists box trace,
       constraints prog' = constraints prog ++ [box; trace]
       /\ box = BoundingBoxConstraint (-1) 1 (mlist R)
       /\ trace = LinearConstraint [1; 1; 1] (-1) 3
                    [mcoef R 0 0; mcoef R 1 1; mcoef R 2 2]
       /\ forall env,
            (Satisfies env box <->
             forall i j, (i < 3)%nat -> (j < 3)%nat ->
                         -1 <= env (mcoef R i j) <= 1)
            /\ (Satisfies env trace <->
                -1 <= env (mcoef R 0 0) + env (mcoef R 1 1) + env (mcoef R 2 2)
                   <= 3).
Proof.
  unfold NewRotationMatrixVars, NewContinuousVariables33,
    AddBoundingBoxConstraint, AddLinearConstraint, add_constraint,
    add_variables; cbn.
  repeat split.
  - repeat constructor.
  - unfold fresh_id; cbn. repeat f_equal; lia.
  - intros i j Hi Hj.
    destruct i as [|[|[|i]]]; try lia;
      destruct j as [|[|[|j]]]; try lia; cbn; tauto.
  - eexists _, _; split; [rewrite <- app_assoc; reflexivity|].
    split; [reflexivity|]. split; [reflexivity|].
    intros env; split; split.
    + intros H i j Hi Hj.
      cbn [Satisfies] in H. rewrite Forall_forall in H. apply H.
      destruct i as [|[|[|i]]]; try lia;
        destruct j as [|[|[|j]]]; try lia; cbn; tauto.
    + intros H. cbn.
      repeat (constructor;
              [first [apply (H 0%nat 0%nat)|apply (H 1%nat 0%nat)
                     |apply (H 2%nat 0%nat)|apply (H 0%nat 1%nat)
                     |apply (H 1%nat 1%nat)|apply (H 2%nat 1%nat)
                     |apply (H 0%nat 2%nat)|apply (H 1%nat 2%nat)
                     |apply (H 2%nat 2%nat)]; lia|]).
      constructor.
    + cbn. intros; lra.
    + cbn. intros; lra.
Qed.

(** ** AddNotInSameOrOppositeOrthantConstraint *)

Lemma int_wrap_small (z : Z) :
  (- 2 ^ 31 <= z < 2 ^ 31)%Z -> int_wrap z = z.
Proof.
  intros H. unfold int_wrap.
  rewrite Z.mod_small; lia.
Qed.

(** On a valid resolution the guard of the function tests for a power of
    two. *)
Lemma power_of_two_guard (N : Z) :
  (1 <= N < 2 ^ 31)%Z ->
  (N =? int_shl1 (CeilLog2 N))%Z = true <-> is_power_of_two N.
Proof.
  intros HN. unfold int_shl1, CeilLog2.
  assert (Hk : (0 <= Z.log2_up N)%Z) by apply Z.log2_up_nonneg.
  rewrite Z.shiftl_1_l, Z.eqb_eq.
  split.
  - intros E.
    destruct (Z.eq_dec N 1) as [->|N1].
    { exists 0%Z; split; [lia | reflexivity]. }
    assert (Hs : (2 ^ Z.pred (Z.log2_up N) < N <= 2 ^ Z.log2_up N)%Z)
      by (apply Z.log2_up_spec; lia).
    assert (Hlt : (Z.pred (Z.log2_up N) < 31)%Z).
    { apply (Z.pow_lt_mono_r_iff 2); lia. }
    destruct (Z.eq_dec (Z.log2_up N) 31) as [E31|N31].
    + rewrite E31 in E. vm_compute in E. lia.
    + exists (Z.log2_up N). split; [assumption|].
      rewrite int_wrap_small in E; [assumption|].
      split; [lia|]. apply Z.pow_lt_mono_r; lia.
  - intros [k [Hk0 ->]].
    rewrite Z.log2_up_pow2 by assumption.
    rewrite int_wrap_small; lia.
Qed.

(** What one column pair adds to the program. *)
Lemma AddOrthantCutForColumnPair_spec (B : Matrix3 DecisionVariable)
  (prog : MathematicalProgram) (c0 c1 : nat) :
  exists (t s : Vector3 DecisionVariable) (cs : list Constraint),
    let prog' := AddOrthantCutForColumnPair B prog (c0, c1) in
    decision_variables prog' = decision_variables prog ++ vlist t ++ vlist s
    /\ linear_costs prog' = linear_costs prog
    /\ constraints prog' = constraints prog ++ cs
    /\ List.length cs = 14%nat
    /\ Forall (fun x => get_type x = CONTINUOUS) (vlist t ++ vlist s)
    /\ map get_id (vlist t ++ vlist s) = seq (fresh_id prog) 6
    /\ forall env,
         Forall (Satisfies env) cs <-> orthant_cut_holds env B c0 c1 t s.
Proof.
  unfold AddOrthantCutForColumnPair, NewContinuousVariables3, AddLinearFormula,
    add_constraint, add_variables, fresh_id; cbn.
  eexists _, _, _. split; [rewrite <- app_assoc; reflexivity|].
  split; [reflexivity|].
  split; [repeat rewrite <- app_assoc; reflexivity|].
  split; [reflexivity|].
  split; [repeat constructor|].
  split.
  { cbn. rewrite length_app; cbn. repeat f_equal; lia. }
  intros env. unfold orthant_cut_holds. cbn. split.
  - intros H.
    repeat match goal with
           | H : Forall _ (_ :: _) |- _ => inversion H; subst; clear H
           end.
    cbn in *. split; [lra|]. split; [lra|].
    intros i Hi. destruct i as [|[|[|i]]]; try lia; cbn; lra.
  - intros (Ht & Hs & H).
    pose proof (H 0%nat ltac:(lia)) as H0.
    pose proof (H 1%nat ltac:(lia)) as H1.
    pose proof (H 2%nat ltac:(lia)) as H2.
    cbn in H0, H1, H2.
    repeat (constructor; [cbn; lra|]). constructor.
Qed.

(** C4. For a resolution [N] in the range of the data model
    ([1 <= N], an [int]), [AddNotInSameOrOppositeOrthantConstraint] adds the
    cut exactly when [N] is a power of two: then, for the column pairs (0,1),
    (0,2) and (1,2) in turn, it creates two fresh continuous 3-vectors [t]
    and [s] and fourteen constraints that say sum(t) <= 2, sum(s) <= 2,
    -t(i) <= B(i,c0) + B(i,c1) - 1 <= t(i) and
    -s(i) <= B(i,c0) - B(i,c1) <= s(i); for any other [N] the program is
    returned unchanged.  The function has no failing outcome. *)
Theorem AddNotInSameOrOppositeOrthantConstraint_iff_power_of_two
  (prog : MathematicalProgram) (B : Matrix3 DecisionVariable) (N : Z) :
  (1 <= N < 2 ^ 31)%Z ->
  let prog' := AddNotInSameOrOppositeOrthantConstraint prog B N in
  (is_power_of_two N ->
   exists (t01 s01 t02 s02 t12 s12 : Vector3 DecisionVariable)
          (cs01 cs02 cs12 : list Constraint),
     let aux := vlist t01 ++ vlist s01 ++ vlist t02 ++ vlist s02
                ++ vlist t12 ++ vlist s12 in
     decision_variables prog' = decision_variables prog ++ aux
     /\ Forall (fun x => get_type x = CONTINUOUS) aux
     /\ map get_id aux = seq (fresh_id prog) 18
     /\ linear_costs prog' = linear_costs prog
     /\ constraints prog' = constraints prog ++ cs01 ++ cs02 ++ cs12
     /\ List.length cs01 = 14%nat /\ List.length cs02 = 14%nat
     /\ List.length cs12 = 14%nat
     /\ forall env,
          (Forall (Satisfies env) cs01 <-> orthant_cut_holds env B 0 1 t01 s01)
          /\ (Forall (Satisfies env) cs02 <-> orthant_cut_holds env B 0 2 t02 s02)
          /\ (Forall (Satisfies env) cs12 <-> orthant_cut_holds env B 1 2 t12 s12))
  /\ (~ is_power_of_two N -> prog' = prog)
  /\ (decision_variables prog' <> decision_variables prog <-> is_power_of_two N).
Proof.
  intros HN prog'.
  pose proof (power_of_two_guard N HN) as G.
  assert (Hyes : is_power_of_two N ->
    exists (t01 s01 t02 s02 t12 s12 : Vector3 DecisionVariable)
          (cs01 cs02 cs12 : list Constraint),
     let aux := vlist t01 ++ vlist s01 ++ vlist t02 ++ vlist s02
                ++ vlist t12 ++ vlist s12 in
     decision_variables prog' = decision_variables prog ++ aux
     /\ Forall (fun x => get_type x = CONTINUOUS) aux
     /\ map get_id aux = seq (fresh_id prog) 18
     /\ linear_costs prog' = linear_costs prog
     /\ constraints prog' = constraints prog ++ cs01 ++ cs02 ++ cs12
     /\ List.length cs01 = 14%nat /\ List.length cs02 = 14%nat
     /\ List.length cs12 = 14%nat
     /\ forall env,
          (Forall (Satisfies env) cs01 <-> orthant_cut_holds env B 0 1 t01 s01)
          /\ (Forall (Satisfies env) cs02 <-> orthant_cut_holds env B 0 2 t02 s02)
          /\ (Forall (Satisfies env) cs12 <-> orthant_cut_holds env B 1 2 t12 s12)).
  { intros P. apply G in P. subst prog'.
    unfold AddNotInSameOrOppositeOrthantConstraint. rewrite P.
    unfold column_idx. cbn [fold_left].
    destruct (AddOrthantCutForColumnPair_spec B prog 0 1)
      as (t01 & s01 & cs01 & V1 & L1 & C1 & N1 & T1 & I1 & S1).
    set (p1 := AddOrthantCutForColumnPair B prog (0%nat, 1%nat)) in *.
    destruct (AddOrthantCutForColumnPair_spec B p1 0 2)
      as (t02 & s02 & cs02 & V2 & L2 & C2 & N2 & T2 & I2 & S2).
    set (p2 := AddOrthantCutForColumnPair B p1 (0%nat, 2%nat)) in *.
    destruct (AddOrthantCutForColumnPair_spec B p2 1 2)
      as (t12 & s12 & cs12 & V3 & L3 & C3 & N3 & T3 & I3 & S3).
    set (p3 := AddOrthantCutForColumnPair B p2 (1%nat, 2%nat)) in *.
    cbn zeta in *.
    exists t01, s01, t02, s02, t12, s12, cs01, cs02, cs12.
    cbn zeta.
    split. { rewrite V3, V2, V1. repeat rewrite <- app_assoc. reflexivity. }
    split.
    { replace (vlist t01 ++ vlist s01 ++ vlist t02 ++ vlist s02
               ++ vlist t12 ++ vlist s12)
        with ((vlist t01 ++ vlist s01) ++ (vlist t02 ++ vlist s02)
              ++ (vlist t12 ++ vlist s12))
        by (repeat rewrite <- app_assoc; reflexivity).
      apply Forall_app; split; [exact T1|].
      apply Forall_app; split; [exact T2 | exact T3]. }
    split.
    { replace (vlist t01 ++ vlist s01 ++ vlist t02 ++ vlist s02
               ++ vlist t12 ++ vlist s12)
        with ((vlist t01 ++ vlist s01) ++ (vlist t02 ++ vlist s02)
              ++ (vlist t12 ++ vlist s12))
        by (repeat rewrite <- app_assoc; reflexivity).
      rewrite (map_app get_id (vlist t01 ++ vlist s01)),
        (map_app get_id (vlist t02 ++ vlist s02)), I1, I2, I3.
      unfold fresh_id. rewrite V2, V1, !length_app. cbn [vlist List.length].
      rewrite (seq_app 6 12 _ : seq _ 18 = _), (seq_app 6 6).
      repeat f_equal; lia. }
    split. { rewrite L3, L2, L1. reflexivity. }
    split. { rewrite C3, C2, C1. repeat rewrite <- app_assoc. reflexivity. }
    repeat split; try assumption; apply S1 || apply S2 || apply S3; assumption. }
  assert (Hno : ~ is_power_of_two N -> prog' = prog).
  { intros P. subst prog'. unfold AddNotInSameOrOppositeOrthantConstraint.
    destruct (N =? int_shl1 (CeilLog2 N))%Z eqn:E; [|reflexivity].
    exfalso. apply P, G. reflexivity. }
  split; [exact Hyes|]. split; [exact Hno|].
  split.
  - intros D.
    destruct (N =? int_shl1 (CeilLog2 N))%Z eqn:E; [apply G; reflexivity|].
    exfalso. apply D. rewrite Hno; [reflexivity|].
    intros P. apply G in P. congruence.
  - intros P D.
    destruct (Hyes P) as (t01 & s01 & t02 & s02 & t12 & s12 & cs01 & cs02
                          & cs12 & V & _).
    cbn zeta in V. rewrite V in D.
    apply (f_equal (@List.length _)) in D.
    rewrite length_app in D. cbn in D. lia.
Qed.

(** With four intervals per half axis the cut is added. *)
Lemma AddNotInSameOrOppositeOrthantConstraint_example :
  decision_variables
    (AddNotInSameOrOppositeOrthantConstraint empty_program B_example 4)
  <> decision_variables empty_program
  <-> is_power_of_two 4.
Proof.
  apply (AddNotInSameOrOppositeOrthantConstraint_iff_power_of_two
           empty_program B_example 4).
  lia.
Defined.

(** ** PickBinaryExpressionGivenInterval *)

Section PickLoop.

Context {S1 S2 : Type} `{Scalar S1} `{Cast S2 S1}.

(** When the row read is inside the table, the loop is a fold over the row
    and the vector read side by side. *)
Lemma pick_loop_in_range (G : MatrixXi) (k : Z) (b : list S2)
  (r_done r_rest : list Z) (b_done b_rest : list S2) (acc : S1) :
  (0 <= k < rows G)%Z ->
  row_of G k = r_done ++ r_rest ->
  b = b_done ++ b_rest ->
  List.length r_done = List.length b_done ->
  List.length r_rest = List.length b_rest ->
  Z.of_nat (List.length (r_done ++ r_rest)) = cols G ->
  foldM (pick_body G k b) (seq (List.length r_done) (List.length r_rest)) acc
  = Ok (fold_left (fun ret gb => s_add ret (pick_term (fst gb) (snd gb)))
                  (combine r_rest b_rest) acc).
Proof.
  intros Hk. revert r_done b_done b_rest acc.
  induction r_rest as [|g r_rest IH];
    intros r_done b_done b_rest acc Hr Hb L1 L2 Hc.
  - reflexivity.
  - destruct b_rest as [|bi b_rest]; [discriminate|].
    cbn [List.length seq foldM combine fold_left fst snd].
    assert (Hg : coeff G k (Z.of_nat (List.length r_done)) = Ok g).
    { unfold coeff.
      replace ((0 <=? k)%Z && (k <? rows G)%Z
               && (0 <=? Z.of_nat (List.length r_done))%Z
               && (Z.of_nat (List.length r_done) <? cols G)%Z) with true.
      - fold (row_of G k). rewrite Hr, Nat2Z.id, nth_middle. reflexivity.
      - symmetry. rewrite !andb_true_iff, !Z.leb_le, !Z.ltb_lt.
        rewrite <- Hc, length_app. cbn [List.length]. lia. }
    assert (Hbi : vcoeff b (List.length r_done) = Ok bi).
    { unfold vcoeff.
      rewrite Hb, L1, nth_error_app2, Nat.sub_diag by lia. reflexivity. }
    unfold pick_body at 1. rewrite Hg, Hbi. cbn [bind].
    fold (pick_term g bi).
    replace (S (List.length r_done)) with (List.length (r_done ++ [g]))
      by (rewrite length_app; cbn [List.length]; lia).
    apply (IH (r_done ++ [g]) (b_done ++ [bi]) b_rest).
    + rewrite Hr, <- app_assoc. reflexivity.
    + rewrite Hb, <- app_assoc. reflexivity.
    + rewrite !length_app, L1. reflexivity.
    + cbn [List.length] in L2. lia.
    + rewrite <- app_assoc. exact Hc.
Qed.

End PickLoop.

(** The symbolic instantiation evaluates to the [double] instantiation. *)
Lemma Evaluate_pick_fold (env : Environment) (r : list Z)
  (bs : list DecisionVariable) (acc : Expression) :
  Evaluate env
    (fold_left (fun ret gb => s_add ret (pick_term (fst gb) (snd gb)))
               (combine r bs) acc)
  = fold_left (fun ret gb => s_add ret (pick_term (S1 := R) (fst gb) (snd gb)))
              (combine r (map env bs)) (Evaluate env acc).
Proof.
  revert bs acc. induction r as [|g r IH]; intros [|b bs] acc; try reflexivity.
  cbn [combine map fold_left fst snd]. rewrite IH. f_equal.
  unfold pick_term. destruct (g =? 0)%Z; reflexivity.
Qed.

(** On 0/1 data the sum over a row counts the positions where the
    assignment differs from the row. *)
Lemma pick_fold_binary (r : list Z) (xs : list R) (acc : R) :
  List.length r = List.length xs ->
  Forall (fun g => g = 0%Z \/ g = 1%Z) r ->
  Forall (fun x => x = 0 \/ x = 1) xs ->
  let s := fold_left (fun ret gb => s_add ret (pick_term (S1 := R) (fst gb) (snd gb)))
                     (combine r xs) acc in
  acc <= s
  /\ (xs = map IZR r -> s = acc)
  /\ (xs <> map IZR r -> acc + 1 <= s).
Proof.
  revert xs acc. induction r as [|g r IH]; intros [|x xs] acc L Hr Hx;
    try discriminate.
  - cbn. repeat split; try lra. intros E; contradiction.
  - inversion Hr as [|? ? Hg Hr']; subst. inversion Hx as [|? ? Hx0 Hx']; subst.
    cbn [combine fold_left fst snd].
    injection L as L.
    destruct (IH xs (s_add acc (pick_term (S1 := R) g x)) L Hr' Hx')
      as (I1 & I2 & I3).
    cbn zeta in *.
    set (s := fold_left _ _ _) in *.
    assert (T : (x = IZR g /\ pick_term (S1 := R) g x = 0)
                \/ (x <> IZR g /\ pick_term (S1 := R) g x = 1)).
    { unfold pick_term, cast, Cast_double.
      destruct Hg as [-> | ->], Hx0 as [-> | ->]; cbn; [left|right|right|left];
        split; try lra. }
    cbn [s_add Scalar_double] in *.
    cbn [map].
    destruct T as [[E T] | [E T]]; rewrite T in *.
    + repeat split.
      * lra.
      * intros E'. injection E' as _ E'. rewrite (I2 E'). lra.
      * intros NE. assert (NE' : xs <> map IZR r) by (intros ->; apply NE; congruence).
        specialize (I3 NE'). lra.
    + repeat split.
      * lra.
      * intros E'. injection E' as E' _. contradiction.
      * intros _. lra.
Qed.

Lemma hamming_refl (r : list Z) : hamming r r = 0%nat.
Proof.
  induction r as [|x r IH]; [reflexivity|].
  cbn. rewrite Z.eqb_refl, IH. reflexivity.
Qed.

Lemma rows_distinct_nth (rs : list (list Z)) (i j : nat) :
  rows_distinct rs = true ->
  (i < j < List.length rs)%nat -> nth i rs [] <> nth j rs [].
Proof.
  revert i j. induction rs as [|r rs IH]; intros i j D [Hij Hj].
  - cbn in Hj. lia.
  - cbn [rows_distinct] in D. apply andb_true_iff in D as [D1 D2].
    destruct j as [|j]; [lia|]. cbn [List.length] in Hj.
    destruct i as [|i].
    + cbn [nth]. rewrite forallb_forall in D1.
      intros E. specialize (D1 (nth j rs [])).
      rewrite <- E, hamming_refl in D1.
      assert (In (nth j rs []) rs) as HIn by (apply nth_In; lia).
      rewrite <- E in HIn. specialize (D1 HIn). discriminate.
    + cbn [nth]. apply IH; [assumption | lia].
Qed.

Lemma gray_rows_differ (G : MatrixXi) (j k : Z) :
  is_gray_code_table G = true ->
  (0 <= j < rows G)%Z -> (0 <= k < rows G)%Z -> j <> k ->
  row_of G j <> row_of G k.
Proof.
  unfold is_gray_code_table, well_formed. rewrite !andb_true_iff.
  intros (((((_ & HL) & _) & _) & _) & D) Hj Hk NE.
  apply Z.eqb_eq in HL. unfold row_of.
  destruct (Z.lt_ge_cases j k).
  - apply rows_distinct_nth; [assumption | lia].
  - intros E. symmetry in E. revert E.
    apply rows_distinct_nth; [assumption | lia].
Qed.

(** A row inside a well formed 0/1 table has [cols] entries, all 0 or 1. *)
Lemma gray_row_shape (G : MatrixXi) (k : Z) :
  is_gray_code_table G = true -> (0 <= k < rows G)%Z ->
  Z.of_nat (List.length (row_of G k)) = cols G
  /\ Forall (fun g => g = 0%Z \/ g = 1%Z) (row_of G k).
Proof.
  unfold is_gray_code_table, well_formed. rewrite !andb_true_iff.
  intros (((((_ & HL) & HC) & HB) & _) & _) Hk.
  apply Z.eqb_eq in HL.
  assert (HIn : In (row_of G k) (data G)) by (apply nth_In; lia).
  rewrite forallb_forall in HC, HB. split.
  - apply Z.eqb_eq, HC, HIn.
  - specialize (HB _ HIn). rewrite forallb_forall in HB.
    apply Forall_forall. intros g Hg. specialize (HB g Hg).
    apply orb_true_iff in HB. rewrite !Z.eqb_eq in HB. exact HB.
Qed.

(** Inside the table the function returns, and its value is the fold over
    the row. *)
Lemma PickBinaryExpressionGivenInterval_in_range {S1 S2 : Type}
  `{Scalar S1} `{Cast S2 S1} (G : MatrixXi) (k : Z) (b : list S2) :
  (0 <= k < rows G)%Z ->
  Z.of_nat (List.length (row_of G k)) = cols G ->
  Z.of_nat (List.length b) = cols G ->
  PickBinaryExpressionGivenInterval k G b
  = Ok (fold_left (fun ret gb => s_add ret (pick_term (fst gb) (snd gb)))
                  (combine (row_of G k) b) (s_const 0)).
Proof.
  intros Hk Hr Hb. unfold PickBinaryExpressionGivenInterval.
  replace ((0 <=? k)%Z && (k <=? rows G)%Z) with true
    by (symmetry; rewrite andb_true_iff, !Z.leb_le; lia).
  replace (Z.of_nat (List.length b) =? cols G)%Z with true
    by (symmetry; apply Z.eqb_eq; exact Hb).
  cbn [DRAKE_ASSERT bind].
  rewrite <- Hr, Nat2Z.id.
  apply (pick_loop_in_range G k b [] (row_of G k) [] b); try reflexivity;
    try assumption; try lia.
Qed.

(** The expression is the distance of the assignment to row [k]. *)
Lemma pick_expression_selects_row
  (G : MatrixXi) (k : Z) (b : list DecisionVariable) (env : Environment) :
  is_gray_code_table G = true ->
  (0 <= k < rows G)%Z ->
  Z.of_nat (List.length b) = cols G ->
  Forall (fun x => env x = 0 \/ env x = 1) b ->
  exists e : Expression,
    PickBinaryExpressionGivenInterval k G b = Ok e
    /\ 0 <= Evaluate env e
    /\ (map env b = map IZR (row_of G k) -> Evaluate env e = 0)
    /\ (forall j, (0 <= j < rows G)%Z -> j <> k ->
                  map env b = map IZR (row_of G j) -> 1 <= Evaluate env e)
    /\ (map env b <> map IZR (row_of G k) -> 1 <= Evaluate env e).
Proof.
  intros HG Hk Hb Hbin.
  destruct (gray_row_shape G k HG Hk) as [Hlen Hrow].
  eexists. split.
  { apply PickBinaryExpressionGivenInterval_in_range; assumption. }
  rewrite Evaluate_pick_fold.
  destruct (pick_fold_binary (row_of G k) (map env b) (Evaluate env (s_const 0)))
    as (P1 & P2 & P3).
  { rewrite length_map. lia. }
  { exact Hrow. }
  { apply Forall_map. exact Hbin. }
  cbn zeta in *. cbn [s_const Scalar_Expression Evaluate] in *.
  split; [exact P1|]. split; [exact P2|].
  assert (P3' : map env b <> map IZR (row_of G k) ->
                1 <= fold_left
                       (fun ret gb => s_add ret (pick_term (S1 := R) (fst gb) (snd gb)))
                       (combine (row_of G k) (map env b)) 0).
  { intros NE. specialize (P3 NE). lra. }
  split; [|exact P3'].
  intros j Hj NE E. apply P3'. rewrite E. intros E'.
  apply (gray_rows_differ G j k HG Hj Hk NE).
  revert E'. generalize (row_of G j) (row_of G k).
  induction l as [|x l IH]; intros [|y l'] E'; try discriminate; [reflexivity|].
  cbn in E'. injection E' as E1 E2. apply eq_IZR in E1. subst.
  f_equal. apply IH. exact E2.
Qed.

(** C3. For a Gray-code table [G], a row index [k] inside it and binary
    variables [b] with [b.rows() == G.cols()], the expression built by
    [PickBinaryExpressionGivenInterval] evaluates, under any 0/1 assignment
    of [b], to 0 when the assignment is row [k] of [G], and to at least 1
    when it is any other row of [G] (indeed when it is anything but row
    [k]); it is never negative. *)
Theorem PickBinaryExpressionGivenInterval_selects_row
  (G : MatrixXi) (k : Z) (b : list DecisionVariable) (env : Environment) :
  is_gray_code_table G = true ->
  (0 <= k < rows G)%Z ->
  Z.of_nat (List.length b) = cols G ->
  Forall (fun x => env x = 0 \/ env x = 1) b ->
  exists e : Expression,
    PickBinaryExpressionGivenInterval k G b = Ok e
    /\ 0 <= Evaluate env e
    /\ (map env b = map IZR (row_of G k) -> Evaluate env e = 0)
    /\ (forall j, (0 <= j < rows G)%Z -> j <> k ->
                  map env b = map IZR (row_of G j) -> 1 <= Evaluate env e)
    /\ (map env b <> map IZR (row_of G k) -> 1 <= Evaluate env e).
Proof.
  exact (pick_expression_selects_row G k b env).
Qed.

Lemma PickBinaryExpressionGivenInterval_selects_row_example :
  exists e : Expression,
    PickBinaryExpressionGivenInterval 1 (CalculateReflectedGrayCodes 2) [b0; b1]
    = Ok e
    /\ 0 <= Evaluate env_row1 e
    /\ (map env_row1 [b0; b1]
        = map IZR (row_of (CalculateReflectedGrayCodes 2) 1) ->
        Evaluate env_row1 e = 0)
    /\ (forall j, (0 <= j < rows (CalculateReflectedGrayCodes 2))%Z -> j <> 1%Z ->
                  map env_row1 [b0; b1]
                  = map IZR (row_of (CalculateReflectedGrayCodes 2) j) ->
                  1 <= Evaluate env_row1 e)
    /\ (map env_row1 [b0; b1]
        <> map IZR (row_of (CalculateReflectedGrayCodes 2) 1) ->
        1 <= Evaluate env_row1 e).
Proof.
  apply (PickBinaryExpressionGivenInterval_selects_row
           (CalculateReflectedGrayCodes 2) 1 [b0; b1] env_row1).
  - reflexivity.
  - cbn. lia.
  - reflexivity.
  - constructor; [left; reflexivity|].
    constructor; [right; reflexivity|]. constructor.
Defined.

(** C10. The two assertions of [PickBinaryExpressionGivenInterval] accept
    [interval_idx == gray_codes.rows()]; on the one-digit Gray code (rows
    0 and 1), with [interval_idx = 2] and a vector [b] of one variable, both
    assertions pass and the first read, [gray_codes(2, 0)], is outside the
    table. *)
Theorem PickBinaryExpressionGivenInterval_asserts_accept_row_past_end :
  let G := CalculateReflectedGrayCodes 1 in
  rows G = 2%Z /\ cols G = 1%Z
  /\ pick_asserts 2 G [b0] = true
  /\ coeff G 2 0 = OutOfRange
  /\ PickBinaryExpressionGivenInterval (S1 := Expression) 2 G [b0] = OutOfRange
  /\ PickBinaryExpressionGivenInterval (S1 := R) 2 G [0] = OutOfRange.
Proof. cbv zeta. repeat split. Qed.

(** The same for every table with at least one column: the row index equal
    to the number of rows passes the assertions and is read out of range. *)
Lemma pick_asserts_off_by_one {S1 S2 : Type} `{Scalar S1} `{Cast S2 S1}
  (G : MatrixXi) (b : list S2) :
  (0 <= rows G)%Z -> (0 < cols G)%Z -> Z.of_nat (List.length b) = cols G ->
  pick_asserts (rows G) G b = true
  /\ PickBinaryExpressionGivenInterval (S1 := S1) (rows G) G b = OutOfRange.
Proof.
  intros Hr Hc Hb. unfold pick_asserts, PickBinaryExpressionGivenInterval.
  replace ((0 <=? rows G)%Z && (rows G <=? rows G)%Z) with true
    by (symmetry; rewrite andb_true_iff, !Z.leb_le; lia).
  replace (Z.of_nat (List.length b) =? cols G)%Z with true
    by (symmetry; apply Z.eqb_eq; exact Hb).
  split; [reflexivity|]. cbn [DRAKE_ASSERT bind].
  destruct (Z.to_nat (cols G)) as [|n] eqn:E; [lia|].
  cbn [seq foldM]. unfold coeff.
  rewrite Z.ltb_irrefl, andb_false_r. reflexivity.
Qed.

(** ** The reflected Gray code is a Gray-code table *)

Lemma hamming_sym (r1 r2 : list Z) : hamming r1 r2 = hamming r2 r1.
Proof.
  revert r2. induction r1 as [|x r1 IH]; intros [|y r2]; try reflexivity.
  cbn. rewrite (Z.eqb_sym x y), IH. reflexivity.
Qed.

Lemma adjacent_rows_nth (rs : list (list Z)) :
  adjacent_rows_differ_by_one rs = true <->
  forall i, (S i < List.length rs)%nat ->
            hamming (nth i rs []) (nth (S i) rs []) = 1%nat.
Proof.
  induction rs as [|r1 rs IH].
  - split; [intros _ i Hi; cbn in Hi; lia | reflexivity].
  - destruct rs as [|r2 rs].
    + split; [intros _ i Hi; cbn in Hi; lia | reflexivity].
    + change (adjacent_rows_differ_by_one (r1 :: r2 :: rs))
        with ((hamming r1 r2 =? 1)%nat
              && adjacent_rows_differ_by_one (r2 :: rs)).
      rewrite andb_true_iff, Nat.eqb_eq, IH. split.
      * intros [H1 H2] [|i] Hi; [exact H1|].
        apply (H2 i). cbn [List.length] in *. lia.
      * intros H. split; [apply (H 0%nat); cbn; lia|].
        intros i Hi. apply (H (S i)). cbn [List.length] in *. lia.
Qed.

Lemma rows_distinct_iff (rs : list (list Z)) :
  rows_distinct rs = true <->
  forall i j, (i < j < List.length rs)%nat ->
              hamming (nth i rs []) (nth j rs []) <> 0%nat.
Proof.
  induction rs as [|r rs IH].
  - split; [intros _ i j Hi; cbn in Hi; lia | reflexivity].
  - cbn [rows_distinct]. rewrite andb_true_iff, IH, forallb_forall. split.
    + intros [H1 H2] i j Hij. destruct j as [|j]; [lia|].
      cbn [List.length] in Hij. destruct i as [|i].
      * cbn [nth]. specialize (H1 (nth j rs [])).
        assert (In (nth j rs []) rs) as HIn by (apply nth_In; lia).
        specialize (H1 HIn). apply negb_true_iff, Nat.eqb_neq in H1. exact H1.
      * cbn [nth]. apply H2. lia.
    + intros H. split.
      * intros r' Hr'. destruct (In_nth rs r' [] Hr') as (j & Hj & <-).
        apply negb_true_iff, Nat.eqb_neq.
        apply (H 0%nat (S j)). cbn [List.length]. lia.
      * intros i j Hij. apply (H (S i) (S j)). cbn [List.length]. lia.
Qed.

Lemma reflected_gray_rows_length (d : nat) :
  List.length (reflected_gray_rows d) = (2 ^ d)%nat.
Proof.
  induction d as [|d IH]; [reflexivity|].
  cbn [reflected_gray_rows]. rewrite length_app, !length_map, length_rev, IH.
  cbn [Nat.pow]. lia.
Qed.

Lemma reflected_gray_rows_shape (d : nat) :
  Forall (fun r => List.length r = d
                   /\ Forall (fun x => x = 0%Z \/ x = 1%Z) r)
         (reflected_gray_rows d).
Proof.
  induction d as [|d IH].
  - repeat constructor.
  - cbn [reflected_gray_rows]. apply Forall_app. split.
    + apply Forall_map. eapply Forall_impl; [|exact IH].
      intros r [L B]. cbn. split; [lia|]. constructor; [left; reflexivity|exact B].
    + apply Forall_map, Forall_rev. eapply Forall_impl; [|exact IH].
      intros r [L B]. cbn. split; [lia|]. constructor; [right; reflexivity|exact B].
Qed.

(** Row [i] of the code on [d + 1] digits. *)
Lemma reflected_gray_rows_nth (d i : nat) :
  (i < 2 * 2 ^ d)%nat ->
  nth i (reflected_gray_rows (S d)) []
  = if (i <? 2 ^ d)%nat
    then 0%Z :: nth i (reflected_gray_rows d) []
    else 1%Z :: nth (2 * 2 ^ d - 1 - i) (reflected_gray_rows d) [].
Proof.
  intros Hi. pose proof (reflected_gray_rows_length d) as L.
  cbn [reflected_gray_rows].
  destruct (i <? 2 ^ d)%nat eqn:E.
  - apply Nat.ltb_lt in E. rewrite app_nth1 by (rewrite length_map; lia).
    rewrite (nth_indep _ [] (0%Z :: [])) by (rewrite length_map; lia).
    apply (map_nth (cons 0%Z)).
  - apply Nat.ltb_ge in E. rewrite app_nth2 by (rewrite length_map; lia).
    rewrite length_map, L.
    rewrite (nth_indep _ [] (1%Z :: []))
      by (rewrite length_map, length_rev; lia).
    rewrite (map_nth (cons 1%Z)). f_equal.
    rewrite rev_nth by lia. rewrite L. f_equal. lia.
Qed.

Lemma reflected_gray_rows_adjacent (d : nat) :
  adjacent_rows_differ_by_one (reflected_gray_rows d) = true.
Proof.
  induction d as [|d IH]; [reflexivity|].
  apply adjacent_rows_nth. intros i Hi.
  pose proof (proj1 (adjacent_rows_nth _) IH) as A.
  pose proof (reflected_gray_rows_length d) as L.
  assert (Hpos : (0 < 2 ^ d)%nat) by (apply Nat.neq_0_lt_0, Nat.pow_nonzero; lia).
  rewrite reflected_gray_rows_length in Hi. cbn [Nat.pow] in Hi.
  rewrite !reflected_gray_rows_nth by lia.
  destruct (Nat.ltb_spec i (2 ^ d)) as [E1|E1];
    destruct (Nat.ltb_spec (S i) (2 ^ d)) as [E2|E2]; try lia.
  - cbn [hamming]. rewrite Z.eqb_refl, Nat.add_0_l. apply A. rewrite L. lia.
  - cbn [hamming]. change (0 =? 1)%Z with false.
    replace (2 * 2 ^ d - 1 - S i)%nat with i by lia.
    rewrite hamming_refl. reflexivity.
  - cbn [hamming]. rewrite Z.eqb_refl, Nat.add_0_l.
    rewrite hamming_sym.
    replace (2 * 2 ^ d - 1 - i)%nat with (S (2 * 2 ^ d - 1 - S i)) by lia.
    apply A. rewrite L. lia.
Qed.

Lemma reflected_gray_rows_distinct (d : nat) :
  rows_distinct (reflected_gray_rows d) = true.
Proof.
  induction d as [|d IH]; [reflexivity|].
  apply rows_distinct_iff. intros i j Hij.
  pose proof (proj1 (rows_distinct_iff _) IH) as D.
  pose proof (reflected_gray_rows_length d) as L.
  rewrite reflected_gray_rows_length in Hij. cbn [Nat.pow] in Hij.
  rewrite !reflected_gray_rows_nth by lia.
  destruct (Nat.ltb_spec i (2 ^ d)) as [E1|E1];
    destruct (Nat.ltb_spec j (2 ^ d)) as [E2|E2]; try lia.
  - cbn [hamming]. rewrite Z.eqb_refl, Nat.add_0_l. apply D. rewrite L. lia.
  - cbn [hamming]. change (0 =? 1)%Z with false. discriminate.
  - cbn [hamming]. rewrite Z.eqb_refl, Nat.add_0_l.
    rewrite hamming_sym. apply D. rewrite L. lia.
Qed.

(** The table of the reflected Gray code on any number of digits has
    [2 ^ d] rows of [d] bits, consecutive rows one bit apart, and no row
    twice. *)
Lemma reflected_gray_code_table (d : nat) :
  is_gray_code_table (CalculateReflectedGrayCodes d) = true.
Proof.
  unfold is_gray_code_table, well_formed, CalculateReflectedGrayCodes.
  cbn [rows cols data].
  rewrite reflected_gray_rows_adjacent, reflected_gray_rows_distinct.
  rewrite !andb_true_r.
  pose proof (reflected_gray_rows_shape d) as S.
  rewrite !andb_true_iff. repeat split.
  - apply Z.leb_le. lia.
  - apply Z.eqb_eq. rewrite reflected_gray_rows_length.
    rewrite Nat2Z.inj_pow. reflexivity.
  - apply forallb_forall. intros r Hr. rewrite Forall_forall in S.
    apply Z.eqb_eq. f_equal. apply (S r Hr).
  - apply forallb_forall. intros r Hr. rewrite Forall_forall in S.
    destruct (S r Hr) as [_ B]. apply forallb_forall. intros x Hx.
    rewrite Forall_forall in B. destruct (B x Hx) as [-> | ->]; reflexivity.
Qed.

(** The table the caller of the emitter builds,
    [CalculateReflectedGrayCodes(CeilLog2(2 * N))], with one binary variable
    per digit on each axis, is a valid encoding. *)
Lemma caller_encoding_valid (N : Z) (B_i : Vector3 (list DecisionVariable)) :
  (1 <= N < 2 ^ 30)%Z ->
  Forall (fun b => Z.of_nat (List.length b) = CeilLog2 (2 * N)) (vlist B_i) ->
  valid_encoding N
    (CalculateReflectedGrayCodes (Z.to_nat (CeilLog2 (2 * N)))) B_i.
Proof.
  intros HN HB. unfold valid_encoding.
  assert (Hk : (0 <= CeilLog2 (2 * N))%Z) by apply Z.log2_up_nonneg.
  split; [exact HN|]. split; [apply reflected_gray_code_table|].
  unfold CalculateReflectedGrayCodes. cbn [rows cols]. rewrite Z2Nat.id by exact Hk.
  split; [|exact HB].
  unfold CeilLog2. apply Z.log2_up_spec. lia.
Qed.

(** ** Norms against the unit sphere *)

Lemma squaredNorm_nonneg (a : Vector3d) : 0 <= squaredNorm a.
Proof. unfold squaredNorm, dot. nra. Qed.

Lemma norm_nonneg (a : Vector3d) : 0 <= norm a.
Proof. apply sqrt_pos. Qed.

Lemma norm_norm (a : Vector3d) : norm a * norm a = squaredNorm a.
Proof. apply sqrt_sqrt, squaredNorm_nonneg. Qed.

Lemma norm_lt_1 (a : Vector3d) : norm a < 1 <-> squaredNorm a < 1.
Proof.
  pose proof (norm_nonneg a). pose proof (norm_norm a). split; intros; nra.
Qed.

Lemma norm_gt_1 (a : Vector3d) : 1 < norm a <-> 1 < squaredNorm a.
Proof.
  pose proof (norm_nonneg a). pose proof (norm_norm a). split; intros; nra.
Qed.

Lemma norm_le_1 (a : Vector3d) : norm a <= 1 <-> squaredNorm a <= 1.
Proof.
  pose proof (norm_nonneg a). pose proof (norm_norm a). split; intros; nra.
Qed.

Lemma norm_ge_1 (a : Vector3d) : 1 <= norm a <-> 1 <= squaredNorm a.
Proof.
  pose proof (norm_nonneg a). pose proof (norm_norm a). split; intros; nra.
Qed.

Lemma norm_eq_1 (a : Vector3d) : norm a = 1 <-> squaredNorm a = 1.
Proof.
  pose proof (norm_nonneg a). pose proof (norm_norm a). split; intros; nra.
Qed.

Lemma Rltb_norm_1 (a : Vector3d) : Rltb (norm a) 1 = Rltb (squaredNorm a) 1.
Proof.
  destruct (Rltb (squaredNorm a) 1) eqn:E.
  - apply Rltb_true, norm_lt_1, Rltb_true, E.
  - apply Rltb_false. rewrite norm_lt_1. apply Rltb_false, E.
Qed.

Lemma Rgtb_norm_1 (a : Vector3d) : Rgtb (norm a) 1 = Rltb 1 (squaredNorm a).
Proof.
  unfold Rgtb. destruct (Rltb 1 (squaredNorm a)) eqn:E.
  - apply Rltb_true, norm_gt_1, Rltb_true, E.
  - apply Rltb_false. rewrite norm_gt_1. apply Rltb_false, E.
Qed.

Lemma Rleb_norm_1 (a : Vector3d) : Rleb (norm a) 1 = Rleb (squaredNorm a) 1.
Proof.
  destruct (Rleb (squaredNorm a) 1) eqn:E.
  - apply Rleb_true, norm_le_1, Rleb_true, E.
  - apply Rleb_false. rewrite norm_le_1. apply Rleb_false, E.
Qed.

Lemma Rgeb_norm_1 (a : Vector3d) : Rgeb (norm a) 1 = Rleb 1 (squaredNorm a).
Proof.
  unfold Rgeb. destruct (Rleb 1 (squaredNorm a)) eqn:E.
  - apply Rleb_true, norm_ge_1, Rleb_true, E.
  - apply Rleb_false. rewrite norm_ge_1. apply Rleb_false, E.
Qed.

Lemma Reqb_norm_1 (a : Vector3d) : Reqb (norm a) 1 = Reqb (squaredNorm a) 1.
Proof.
  destruct (Reqb (squaredNorm a) 1) eqn:E.
  - apply Reqb_true, norm_eq_1, Reqb_true, E.
  - apply Reqb_false. rewrite norm_eq_1. apply Reqb_false, E.
Qed.

(** Settles every comparison between closed rational expressions that occurs
    in the goal. *)
Ltac decide_comparisons :=
  unfold Rgtb, Rgeb;
  repeat match goal with
         | |- context [Rltb ?a ?b] =>
             first [ rewrite (Rltb_yes a b) by lra
                   | rewrite (Rltb_no a b) by lra ]
         | |- context [Rleb ?a ?b] =>
             first [ rewrite (Rleb_yes a b) by lra
                   | rewrite (Rleb_no a b) by lra ]
         | |- context [Reqb ?a ?b] =>
             first [ rewrite (Reqb_yes a b) by lra
                   | rewrite (Reqb_no a b) by lra ]
         end.

Ltac norms_against_one :=
  rewrite ?Rltb_norm_1, ?Rgtb_norm_1, ?Rleb_norm_1, ?Rgeb_norm_1, ?Reqb_norm_1;
  unfold squaredNorm, dot; cbn [vx vy vz].

Ltac eval_indices :=
  repeat match goal with
         | |- context [(Z.land ?i (Z.shiftl 1 (Z.of_nat ?a)) =? 0)%Z] =>
             let r := eval vm_compute in
                        (Z.land i (Z.shiftl 1 (Z.of_nat a)) =? 0)%Z in
             change (Z.land i (Z.shiftl 1 (Z.of_nat a)) =? 0)%Z with r
         | |- context [((?a + ?b) mod 3)%nat] =>
             let r := eval vm_compute in ((a + b) mod 3)%nat in
             change ((a + b) mod 3)%nat with r
         end.

(** ** ComputeBoxEdgesAndSphereIntersection *)

Lemma unit_cube_intersection :
  ComputeBoxEdgesAndSphereIntersection unit_cube_min unit_cube_max
  = Ok [vec3 0 0 1; vec3 0 1 0; vec3 1 0 0].
Proof.
  unfold ComputeBoxEdgesAndSphereIntersection, unit_cube_min, unit_cube_max.
  norms_against_one. decide_comparisons. cbn [andb DRAKE_ASSERT bind].
  change (range 8) with [0; 1; 2; 3; 4; 5; 6; 7]%Z.
  unfold box_vertex. cbn [fold_left]. eval_indices.
  cbn [negb coef vx vy vz]. norms_against_one. decide_comparisons.
  cbn [push_back app].
  cbn [foldM bind]. unfold edge_crossing, edge_end_points. eval_indices.
  cbn [coef set_coef vx vy vz vzero]. norms_against_one. decide_comparisons.
  reflexivity.
Qed.

(** An edge contributes a point exactly when its end points straddle the
    sphere, and the point has the intercept as its coordinate along the
    edge. *)
Lemma edge_crossing_spec (bmin bmax : Vector3d) (axis : nat) (val1 val2 : R) :
  (axis < 3)%nat ->
  let fixed_axis1 := ((axis + 1) mod 3)%nat in
  let fixed_axis2 := ((axis + 2) mod 3)%nat in
  let pt_closer := fst (edge_end_points bmin bmax axis val1 val2) in
  let pt_farther := snd (edge_end_points bmin bmax axis val1 val2) in
  exists r : option Vector3d,
    edge_crossing bmin bmax axis val1 val2 = Ok r
    /\ forall p,
         r = Some p <->
         (norm pt_closer < 1 /\ 1 < norm pt_farther
          /\ coef p fixed_axis1 = val1 /\ coef p fixed_axis2 = val2
          /\ coef p axis = sqrt (1 - val1 * val1 - val2 * val2)).
Proof.
  intros Ha.
  assert (Hp : forall p q : Vector3d,
             vx p = vx q -> vy p = vy q -> vz p = vz q -> p = q).
  { intros [? ? ?] [? ? ?]; cbn; intros; subst; reflexivity. }
  destruct axis as [|[|[|axis]]]; try lia; cbv zeta;
    unfold edge_crossing, edge_end_points; eval_indices;
    cbn [coef set_coef vx vy vz vzero fst snd];
    rewrite Rltb_norm_1, Rgtb_norm_1;
    match goal with
    | |- context [Rltb (squaredNorm ?a) 1 && Rltb 1 (squaredNorm ?b)] =>
        destruct (Rltb (squaredNorm a) 1) eqn:E1;
        [destruct (Rltb 1 (squaredNorm b)) eqn:E2|];
        cbn [andb];
        try (apply Rltb_true, norm_lt_1 in E1);
        try (apply Rltb_true, norm_gt_1 in E2);
        try (apply Rltb_false in E1; rewrite <- norm_lt_1 in E1);
        try (apply Rltb_false in E2; rewrite <- norm_gt_1 in E2)
    end;
    try (eexists; split; [reflexivity|];
         intros p; split; [discriminate | intros (? & ? & _); lra]).
  all: pose proof E1 as E1'; apply norm_lt_1 in E1';
    unfold squaredNorm, dot in E1'; cbn [vx vy vz] in E1';
    unfold Intercept;
    rewrite Rleb_yes by nra; cbn [DRAKE_ASSERT bind];
    eexists; (split; [reflexivity|]);
    intros p; split;
    [ intros E; injection E as <-; cbn [coef vx vy vz]; repeat split; assumption
    | intros (_ & _ & A & B & C); apply (f_equal (@Some Vector3d));
      apply Hp; cbn [vx vy vz]; congruence ].
Qed.

(** A loop whose body keeps an invariant and never fails returns, with the
    invariant. *)
Lemma foldM_invariant {A S : Type} (Inv : S -> Prop)
  (f : S -> A -> result S) (l : list A) :
  (forall s a, In a l -> Inv s -> exists s', f s a = Ok s' /\ Inv s') ->
  forall s, Inv s -> exists s', foldM f l s = Ok s' /\ Inv s'.
Proof.
  induction l as [|a l IH]; intros Hf s Hs.
  - exists s. split; [reflexivity | assumption].
  - destruct (Hf s a (or_introl eq_refl) Hs) as (s1 & E1 & I1).
    destruct (IH (fun s a H => Hf s a (or_intror H)) s1 I1) as (s2 & E2 & I2).
    exists s2. cbn [foldM]. rewrite E1. cbn [bind]. split; assumption.
Qed.

Lemma box_vertex_in_box (bmin bmax : Vector3d) (i : Z) :
  vx bmin < vx bmax /\ vy bmin < vy bmax /\ vz bmin < vz bmax ->
  in_box bmin bmax (box_vertex bmin bmax i).
Proof.
  intros (Hx & Hy & Hz). unfold in_box, box_vertex. cbn [vx vy vz coef].
  repeat match goal with
         | |- context [if ?c then _ else _] => destruct c
         end; lra.
Qed.

(** Inside a box that meets the sphere, the point an edge contributes is on
    the sphere and inside the box. *)
Lemma edge_crossing_in_box (bmin bmax : Vector3d) (axis : nat) (val1 val2 : R) :
  box_meets_sphere bmin bmax ->
  (axis < 3)%nat ->
  val1 = coef bmin ((axis + 1) mod 3) \/ val1 = coef bmax ((axis + 1) mod 3) ->
  val2 = coef bmin ((axis + 2) mod 3) \/ val2 = coef bmax ((axis + 2) mod 3) ->
  exists r : option Vector3d,
    edge_crossing bmin bmax axis val1 val2 = Ok r
    /\ forall p, r = Some p -> norm p = 1 /\ in_box bmin bmax p.
Proof.
  intros ((Bx & By & Bz) & (Mx & My & Mz) & _) Ha H1 H2.
  destruct (edge_crossing_spec bmin bmax axis val1 val2 Ha) as (r & Er & Hr).
  exists r. split; [exact Er|]. intros p Ep.
  apply Hr in Ep. destruct Ep as (C1 & C2 & P1 & P2 & P3).
  apply norm_lt_1 in C1. apply norm_gt_1 in C2.
  unfold edge_end_points in C1, C2.
  pose proof (sqrt_pos (1 - val1 * val1 - val2 * val2)) as W0.
  assert (W : sqrt (1 - val1 * val1 - val2 * val2)
              * sqrt (1 - val1 * val1 - val2 * val2)
              = 1 - val1 * val1 - val2 * val2).
  { apply sqrt_sqrt.
    destruct axis as [|[|[|axis]]]; try lia;
      cbn [coef set_coef vx vy vz vzero fst snd Nat.modulo Nat.divmod
           Init.Nat.add Init.Nat.sub] in C1;
      unfold squaredNorm, dot in C1; cbn [vx vy vz] in C1; nra. }
  set (w := sqrt (1 - val1 * val1 - val2 * val2)) in *.
  destruct p as [px py pz].
  destruct axis as [|[|[|axis]]]; try lia;
    cbn [coef set_coef vx vy vz vzero fst snd Nat.modulo Nat.divmod
         Init.Nat.add Init.Nat.sub] in *;
    unfold squaredNorm, dot in C1, C2; cbn [vx vy vz] in C1, C2;
    subst; (split; [apply norm_eq_1; unfold squaredNorm, dot; cbn [vx vy vz]; nra|]);
    unfold in_box; cbn [vx vy vz];
    (repeat split; try nra; destruct H1, H2; subst; lra).
Qed.

(** C9. For a box in the non-negative orthant with [bmin < bmax]
    componentwise and [|bmin| <= 1 <= |bmax|],
    [ComputeBoxEdgesAndSphereIntersection] returns, and every point it
    returns is on the unit sphere and inside the box. *)
Theorem ComputeBoxEdgesAndSphereIntersection_on_sphere_in_box
  (bmin bmax : Vector3d) :
  box_meets_sphere bmin bmax ->
  exists pts : list Vector3d,
    ComputeBoxEdgesAndSphereIntersection bmin bmax = Ok pts
    /\ Forall (fun p => norm p = 1 /\ in_box bmin bmax p) pts.
Proof.
  intros HB. pose proof HB as ((Bx & By & Bz) & (Mx & My & Mz) & (N1 & N2)).
  unfold ComputeBoxEdgesAndSphereIntersection.
  unfold Rgeb at 1 2 3. unfold Rgtb at 1 2 3.
  rewrite !Rleb_yes, !Rltb_yes by assumption.
  unfold Rgeb at 1. rewrite (Rleb_yes 1 (norm bmax)) by assumption.
  cbn [andb DRAKE_ASSERT bind].
  destruct (Reqb (norm bmin) 1) eqn:E1.
  { exists [bmin]. split; [reflexivity|]. constructor; [|constructor].
    apply Reqb_true in E1. split; [exact E1|]. unfold in_box. lra. }
  destruct (Reqb (norm bmax) 1) eqn:E2.
  { exists [bmax]. split; [reflexivity|]. constructor; [|constructor].
    apply Reqb_true in E2. split; [exact E2|]. unfold in_box. lra. }
  set (Inv := Forall (fun p => norm p = 1 /\ in_box bmin bmax p)).
  assert (Hv : Inv (fold_left
                      (fun acc i =>
                         let vertex := box_vertex bmin bmax i in
                         if Reqb (norm vertex) 1
                         then push_back acc vertex else acc)
                      (range 8) [])).
  { generalize (range 8). generalize (@nil Vector3d) (Forall_nil (fun p => norm p = 1 /\ in_box bmin bmax p)).
    fold Inv. intros acc Hacc l. revert acc Hacc.
    induction l as [|i l IH]; intros acc Hacc; [exact Hacc|].
    cbn [fold_left]. apply IH. cbv zeta.
    destruct (Reqb (norm (box_vertex bmin bmax i)) 1) eqn:E; [|exact Hacc].
    apply Forall_app. split; [exact Hacc|].
    constructor; [|constructor]. split; [apply Reqb_true, E|].
    apply box_vertex_in_box. lra. }
  apply (foldM_invariant Inv); [|exact Hv].
  intros acc axis Haxis Hacc.
  assert (Ha : (axis < 3)%nat) by (cbn in Haxis; lia).
  apply (foldM_invariant Inv); [|exact Hacc].
  intros acc1 val1 Hval1 Hacc1.
  apply (foldM_invariant Inv); [|exact Hacc1].
  intros acc2 val2 Hval2 Hacc2.
  destruct (edge_crossing_in_box bmin bmax axis val1 val2 HB Ha)
    as (r & Er & Hr).
  { cbn in Hval1. intuition. }
  { cbn in Hval2. intuition. }
  rewrite Er. cbn [bind]. destruct r as [p|].
  - eexists. split; [reflexivity|]. apply Forall_app. split; [exact Hacc2|].
    constructor; [|constructor]. apply Hr. reflexivity.
  - eexists. split; [reflexivity | exact Hacc2].
Qed.

(** A loop that returns has kept every invariant its body keeps. *)
Lemma foldM_preserves {A S : Type} (Inv : S -> Prop)
  (f : S -> A -> result S) (l : list A) :
  (forall s a s', In a l -> Inv s -> f s a = Ok s' -> Inv s') ->
  forall s s', Inv s -> foldM f l s = Ok s' -> Inv s'.
Proof.
  induction l as [|a l IH]; intros Hf s s' Hs E.
  - cbn in E. injection E as <-. exact Hs.
  - cbn [foldM] in E. destruct (f s a) as [s1| | |] eqn:E1; try discriminate.
    cbn [bind] in E.
    apply (IH (fun s a s' H => Hf s a s' (or_intror H)) s1 s'); [|exact E].
    apply (Hf s a s1); [left; reflexivity | exact Hs | exact E1].
Qed.

(** Where the points of the result come from. *)
Lemma ComputeBoxEdgesAndSphereIntersection_sources
  (bmin bmax : Vector3d) (pts : list Vector3d) :
  ComputeBoxEdgesAndSphereIntersection bmin bmax = Ok pts ->
  Forall (fun p =>
            (exists i, p = box_vertex bmin bmax i /\ norm p = 1)
            \/ (exists axis val1 val2,
                   is_box_edge bmin bmax axis val1 val2
                   /\ edge_crossing bmin bmax axis val1 val2 = Ok (Some p)))
         pts.
Proof.
  unfold ComputeBoxEdgesAndSphereIntersection.
  repeat match goal with
         | |- (_ <- DRAKE_ASSERT ?c ;; _) = _ -> _ =>
             destruct c; cbn [DRAKE_ASSERT bind]; [|discriminate]
         end.
  destruct (Reqb (norm bmin) 1) eqn:E1.
  { intros E; injection E as <-. constructor; [|constructor].
    left. exists 7%Z. split; [destruct bmin; reflexivity|].
    apply Reqb_true, E1. }
  destruct (Reqb (norm bmax) 1) eqn:E2.
  { intros E; injection E as <-. constructor; [|constructor].
    left. exists 0%Z. split; [destruct bmax; reflexivity|].
    apply Reqb_true, E2. }
  set (Inv := Forall (fun p =>
            (exists i, p = box_vertex bmin bmax i /\ norm p = 1)
            \/ (exists axis val1 val2,
                   is_box_edge bmin bmax axis val1 val2
                   /\ edge_crossing bmin bmax axis val1 val2 = Ok (Some p)))).
  assert (Hv : Inv (fold_left
                      (fun acc i =>
                         let vertex := box_vertex bmin bmax i in
                         if Reqb (norm vertex) 1
                         then push_back acc vertex else acc)
                      (range 8) [])).
  { generalize (range 8).
    assert (Hnil : Inv []) by constructor. revert Hnil.
    generalize (@nil Vector3d). intros acc Hacc l. revert acc Hacc.
    induction l as [|i l IH]; intros acc Hacc; [exact Hacc|].
    cbn [fold_left]. apply IH. cbv zeta.
    destruct (Reqb (norm (box_vertex bmin bmax i)) 1) eqn:E; [|exact Hacc].
    apply Forall_app. split; [exact Hacc|].
    constructor; [|constructor]. left. exists i.
    split; [reflexivity | apply Reqb_true, E]. }
  intros E. revert E. apply (foldM_preserves Inv); [|exact Hv].
  intros acc axis acc' Haxis Hacc.
  assert (Ha : (axis < 3)%nat) by (cbn in Haxis; lia).
  apply (foldM_preserves Inv); [|exact Hacc].
  intros acc1 val1 acc1' Hval1 Hacc1.
  apply (foldM_preserves Inv); [|exact Hacc1].
  intros acc2 val2 acc2' Hval2 Hacc2.
  destruct (edge_crossing bmin bmax axis val1 val2) as [[p|]| | |] eqn:Er;
    cbn [bind]; try discriminate; intros E; injection E as <-;
    [|exact Hacc2].
  apply Forall_app. split; [exact Hacc2|].
  constructor; [|constructor]. right. exists axis, val1, val2.
  split; [|exact Er]. repeat split; assumption.
Qed.

(** C7. On the box [(0,0,0)]-[(1,1,1)] the function returns the three points
    (0,0,1), (0,1,0), (1,0,0), that is (1,0,0), (0,1,0), (0,0,1) in the order
    of the vertex loop.  In general every point of the result is a vertex of
    the box that is on the sphere or the crossing point of one of the twelve
    edges, and an edge contributes a crossing point exactly when its closer
    end is strictly inside the sphere and its farther end strictly outside;
    the point then has the two fixed coordinates of the edge and
    [sqrt (1 - x^2 - y^2)] along the edge. *)
Theorem ComputeBoxEdgesAndSphereIntersection_unit_cube_and_edges :
  (ComputeBoxEdgesAndSphereIntersection (vec3 0 0 0) (vec3 1 1 1)
   = Ok [vec3 0 0 1; vec3 0 1 0; vec3 1 0 0]
   /\ Permutation [vec3 0 0 1; vec3 0 1 0; vec3 1 0 0]
                  [vec3 1 0 0; vec3 0 1 0; vec3 0 0 1 : Vector3d])
  /\ (forall bmin bmax pts,
        ComputeBoxEdgesAndSphereIntersection bmin bmax = Ok pts ->
        Forall (fun p =>
                  (exists i, p = box_vertex bmin bmax i /\ norm p = 1)
                  \/ (exists axis val1 val2,
                         is_box_edge bmin bmax axis val1 val2
                         /\ edge_crossing bmin bmax axis val1 val2
                            = Ok (Some p)))
               pts)
  /\ (forall bmin bmax axis val1 val2,
        (axis < 3)%nat ->
        exists r : option Vector3d,
          edge_crossing bmin bmax axis val1 val2 = Ok r
          /\ forall p,
               r = Some p <->
               (norm (fst (edge_end_points bmin bmax axis val1 val2)) < 1
                /\ 1 < norm (snd (edge_end_points bmin bmax axis val1 val2))
                /\ coef p ((axis + 1) mod 3) = val1
                /\ coef p ((axis + 2) mod 3) = val2
                /\ coef p axis = sqrt (1 - val1 * val1 - val2 * val2))).
Proof.
  split; [split|split].
  - exact unit_cube_intersection.
  - apply perm_trans with [vec3 0 1 0; vec3 0 0 1; vec3 1 0 0 : Vector3d].
    + apply perm_swap.
    + apply perm_trans with [vec3 0 1 0; vec3 1 0 0; vec3 0 0 1 : Vector3d].
      * apply perm_skip, perm_swap.
      * apply perm_swap.
  - exact ComputeBoxEdgesAndSphereIntersection_sources.
  - intros bmin bmax axis val1 val2 Ha.
    exact (edge_crossing_spec bmin bmax axis val1 val2 Ha).
Qed.

(** The edge of the box [(0,0,0)]-[(3/5,3/5,1)] along z through
    [(3/5, 0)] crosses the sphere at height [sqrt (1 - 9/25)]. *)
Lemma edge_crossing_example :
  exists r : option Vector3d,
    edge_crossing slab_min slab_max 2 (3 / 5) 0 = Ok r
    /\ forall p,
         r = Some p <->
         (norm (fst (edge_end_points slab_min slab_max 2 (3 / 5) 0)) < 1
          /\ 1 < norm (snd (edge_end_points slab_min slab_max 2 (3 / 5) 0))
          /\ coef p ((2 + 1) mod 3) = 3 / 5
          /\ coef p ((2 + 2) mod 3) = 0
          /\ coef p 2 = sqrt (1 - 3 / 5 * (3 / 5) - 0 * 0)).
Proof.
  apply (proj2 (proj2
    ComputeBoxEdgesAndSphereIntersection_unit_cube_and_edges)
    slab_min slab_max 2%nat (3 / 5) 0).
  lia.
Defined.

Lemma unit_cube_meets_sphere : box_meets_sphere unit_cube_min unit_cube_max.
Proof.
  unfold box_meets_sphere, unit_cube_min, unit_cube_max. cbn [vx vy vz].
  repeat split; try lra.
  - apply norm_le_1. unfold squaredNorm, dot; cbn [vx vy vz]. lra.
  - apply norm_ge_1. unfold squaredNorm, dot; cbn [vx vy vz]. lra.
Qed.

Lemma unit_cube_points_on_sphere_in_box :
  exists pts : list Vector3d,
    ComputeBoxEdgesAndSphereIntersection unit_cube_min unit_cube_max = Ok pts
    /\ Forall (fun p => norm p = 1 /\ in_box unit_cube_min unit_cube_max p) pts.
Proof.
  apply (ComputeBoxEdgesAndSphereIntersection_on_sphere_in_box
           unit_cube_min unit_cube_max).
  exact unit_cube_meets_sphere.
Defined.

(** ** ComputeTriangleOutwardNormal *)

Lemma all_nonneg_true (a : Vector3d) :
  all_nonneg a = true <-> 0 <= vx a /\ 0 <= vy a /\ 0 <= vz a.
Proof.
  unfold all_nonneg, Rgeb. rewrite !andb_true_iff, !Rleb_true. tauto.
Qed.

(** The triangle (0,0,0), (1,0,2), (0,1,2): the cross product is (2,2,-1),
    of norm 3; the sum of the unit normal is positive, its last component
    negative, and the final [DRAKE_DEMAND] fails. *)
Lemma tilted_triangle_aborts :
  ComputeTriangleOutwardNormal tilted_pt0 tilted_pt1 tilted_pt2 = Abort.
Proof.
  unfold ComputeTriangleOutwardNormal, tilted_pt0, tilted_pt1, tilted_pt2.
  unfold all_nonneg at 1 2 3. cbn [vx vy vz]. decide_comparisons.
  cbn [andb DRAKE_DEMAND bind].
  unfold vsub, cross. cbn [vx vy vz].
  replace (norm _) with 3.
  2:{ unfold norm, squaredNorm, dot. cbn [vx vy vz].
      symmetry. apply sqrt_lem_1; lra. }
  decide_comparisons.
  unfold vdiv, vsum. cbn [vx vy vz]. decide_comparisons.
  unfold all_nonneg. cbn [vx vy vz]. decide_comparisons.
  reflexivity.
Qed.

Lemma tilted_triangle_norm :
  norm (cross (vsub tilted_pt2 tilted_pt0) (vsub tilted_pt1 tilted_pt0)) = 3.
Proof.
  unfold norm, squaredNorm, dot, cross, vsub, tilted_pt0, tilted_pt1,
    tilted_pt2. cbn [vx vy vz].
  apply sqrt_lem_1; lra.
Qed.

(** The specified behaviour fails on the tilted triangle: the points are in
    the non-negative orthant, the cross product is not short, and yet the
    call does not return. *)
Lemma triangle_normal_not_as_specified :
  (all_nonneg tilted_pt0 = true /\ all_nonneg tilted_pt1 = true
   /\ all_nonneg tilted_pt2 = true
   /\ norm (cross (vsub tilted_pt2 tilted_pt0) (vsub tilted_pt1 tilted_pt0)) = 3
   /\ ComputeTriangleOutwardNormal tilted_pt0 tilted_pt1 tilted_pt2 = Abort)
  /\ ~ triangle_normal_as_specified.
Proof.
  assert (H0 : all_nonneg tilted_pt0 = true) by (apply all_nonneg_true; cbn; lra).
  assert (H1 : all_nonneg tilted_pt1 = true) by (apply all_nonneg_true; cbn; lra).
  assert (H2 : all_nonneg tilted_pt2 = true) by (apply all_nonneg_true; cbn; lra).
  split.
  { repeat split; try assumption;
      [exact tilted_triangle_norm | exact tilted_triangle_aborts]. }
  intros H.
  destruct (H tilted_pt0 tilted_pt1 tilted_pt2 H0 H1 H2) as [_ Hret].
  destruct Hret as (n & d & E & _).
  - rewrite tilted_triangle_norm. lra.
  - rewrite tilted_triangle_aborts in E. discriminate.
Qed.

Lemma sqrt_3_gt_1 : 1 < sqrt 3.
Proof.
  rewrite <- sqrt_1 at 1. apply sqrt_lt_1_alt. lra.
Qed.

(** The triangle (1,0,0), (0,1,0), (0,0,1). *)
Lemma unit_triangle_normal :
  ComputeTriangleOutwardNormal (vec3 1 0 0) (vec3 0 1 0) (vec3 0 0 1)
  = Ok (vec3 (1 / sqrt 3) (1 / sqrt 3) (1 / sqrt 3), 1 / sqrt 3).
Proof.
  pose proof sqrt_3_gt_1 as S3.
  unfold ComputeTriangleOutwardNormal.
  unfold all_nonneg at 1 2 3. cbn [vx vy vz]. decide_comparisons.
  cbn [andb DRAKE_DEMAND bind].
  unfold vsub, cross. cbn [vx vy vz].
  replace (norm _) with (sqrt 3).
  2:{ unfold norm, squaredNorm, dot. cbn [vx vy vz]. f_equal. lra. }
  rewrite (Rltb_no (sqrt 3)) by lra.
  unfold vdiv, vsum. cbn [vx vy vz].
  assert (I3 : 0 < / sqrt 3) by (apply Rinv_0_lt_compat; lra).
  rewrite Rltb_yes by (unfold Rdiv; nra).
  unfold vscale, all_nonneg, Rgeb. cbn [vx vy vz].
  rewrite !Rleb_yes by (unfold Rdiv; nra).
  cbn [andb DRAKE_DEMAND bind]. unfold dot. cbn [vx vy vz].
  f_equal. f_equal; [f_equal|]; field; lra.
Qed.

(** The function after its three entry [DRAKE_DEMAND]s. *)
Lemma ComputeTriangleOutwardNormal_unfold (pt0 pt1 pt2 : Vector3d) :
  all_nonneg pt0 = true -> all_nonneg pt1 = true -> all_nonneg pt2 = true ->
  ComputeTriangleOutwardNormal pt0 pt1 pt2
  = if Rltb (norm (cross (vsub pt2 pt0) (vsub pt1 pt0))) (1 / 1000)
    then Throw "The points are almost colinear."
    else if all_nonneg (triangle_unit_normal pt0 pt1 pt2)
         then Ok (triangle_unit_normal pt0 pt1 pt2,
                  dot pt0 (triangle_unit_normal pt0 pt1 pt2))
         else Abort.
Proof.
  intros H0 H1 H2. unfold ComputeTriangleOutwardNormal.
  rewrite H0, H1, H2. cbn [DRAKE_DEMAND bind].
  destruct (Rltb _ (1 / 1000)); [reflexivity|].
  unfold triangle_unit_normal. cbv zeta.
  match goal with
  | |- context [DRAKE_DEMAND (all_nonneg ?n)] => destruct (all_nonneg n)
  end; reflexivity.
Qed.

(** C6 (amended). On points of the non-negative orthant
    [ComputeTriangleOutwardNormal] throws when the norm of the cross product
    [(pt2 - pt0) x (pt1 - pt0)] is below 1e-3.  Otherwise let [n] be the
    normalized cross product, negated when the sum of its components is
    negative: the call returns [n] and [d = pt0 . n] when all components of
    [n] are non-negative, and is a fatal failure of the last [DRAKE_DEMAND]
    when one of them is negative.  On (1,0,0), (0,1,0), (0,0,1) it returns
    [n = (1/sqrt 3, 1/sqrt 3, 1/sqrt 3)] and [d = 1/sqrt 3]. *)
Theorem ComputeTriangleOutwardNormal_cases (pt0 pt1 pt2 : Vector3d) :
  all_nonneg pt0 = true -> all_nonneg pt1 = true -> all_nonneg pt2 = true ->
  let c := cross (vsub pt2 pt0) (vsub pt1 pt0) in
  let n := triangle_unit_normal pt0 pt1 pt2 in
  (norm c < 1 / 1000 ->
   ComputeTriangleOutwardNormal pt0 pt1 pt2
   = Throw "The points are almost colinear.")
  /\ (~ norm c < 1 / 1000 ->
      (n = vdiv c (norm c) \/ n = vscale (-1) (vdiv c (norm c)))
      /\ norm n = 1
      /\ ((0 <= vx n /\ 0 <= vy n /\ 0 <= vz n) ->
          ComputeTriangleOutwardNormal pt0 pt1 pt2 = Ok (n, dot pt0 n))
      /\ (~ (0 <= vx n /\ 0 <= vy n /\ 0 <= vz n) ->
          ComputeTriangleOutwardNormal pt0 pt1 pt2 = Abort))
  /\ ComputeTriangleOutwardNormal (vec3 1 0 0) (vec3 0 1 0) (vec3 0 0 1)
     = Ok (vec3 (1 / sqrt 3) (1 / sqrt 3) (1 / sqrt 3), 1 / sqrt 3).
Proof.
  intros H0 H1 H2 c n.
  rewrite (ComputeTriangleOutwardNormal_unfold pt0 pt1 pt2 H0 H1 H2).
  fold c. fold n.
  split; [|split]; [| |exact unit_triangle_normal].
  - intros Hc. rewrite Rltb_yes by exact Hc. reflexivity.
  - intros Hc. rewrite Rltb_no by lra.
    split; [|split; [|split]].
    + subst n. unfold triangle_unit_normal. fold c.
      destruct (Rltb (vsum (vdiv c (norm c))) 0); [right|left]; reflexivity.
    + assert (Hn : 0 < norm c) by lra.
      assert (Hu : norm (vdiv c (norm c)) = 1).
      { apply norm_eq_1. pose proof (norm_norm c) as NN.
        unfold squaredNorm, dot, vdiv in *. cbn [vx vy vz].
        set (k := norm c) in *.
        replace (vx c / k * (vx c / k) + vy c / k * (vy c / k)
                 + vz c / k * (vz c / k))
          with ((vx c * vx c + vy c * vy c + vz c * vz c) / (k * k))
          by (field; lra).
        rewrite <- NN. field. lra. }
      subst n. unfold triangle_unit_normal. fold c.
      destruct (Rltb (vsum (vdiv c (norm c))) 0); [|exact Hu].
      apply norm_eq_1. apply norm_eq_1 in Hu.
      unfold squaredNorm, dot, vscale in *. cbn [vx vy vz] in *. lra.
    + intros Hn. apply all_nonneg_true in Hn. rewrite Hn. reflexivity.
    + intros Hn. rewrite <- all_nonneg_true in Hn.
      destruct (all_nonneg n); [exfalso; apply Hn; reflexivity | reflexivity].
Qed.

(** The cases on the triangle (1,0,0), (0,1,0), (0,0,1). *)
Lemma ComputeTriangleOutwardNormal_cases_example :
  let pt0 := vec3 1 0 0 in
  let pt1 := vec3 0 1 0 in
  let pt2 := vec3 0 0 1 in
  let c := cross (vsub pt2 pt0) (vsub pt1 pt0) in
  let n := triangle_unit_normal pt0 pt1 pt2 in
  (norm c < 1 / 1000 ->
   ComputeTriangleOutwardNormal pt0 pt1 pt2
   = Throw "The points are almost colinear.")
  /\ (~ norm c < 1 / 1000 ->
      (n = vdiv c (norm c) \/ n = vscale (-1) (vdiv c (norm c)))
      /\ norm n = 1
      /\ ((0 <= vx n /\ 0 <= vy n /\ 0 <= vz n) ->
          ComputeTriangleOutwardNormal pt0 pt1 pt2 = Ok (n, dot pt0 n))
      /\ (~ (0 <= vx n /\ 0 <= vy n /\ 0 <= vz n) ->
          ComputeTriangleOutwardNormal pt0 pt1 pt2 = Abort))
  /\ ComputeTriangleOutwardNormal (vec3 1 0 0) (vec3 0 1 0) (vec3 0 0 1)
     = Ok (vec3 (1 / sqrt 3) (1 / sqrt 3) (1 / sqrt 3), 1 / sqrt 3).
Proof.
  apply (ComputeTriangleOutwardNormal_cases (vec3 1 0 0) (vec3 0 1 0)
           (vec3 0 0 1)).
  - unfold all_nonneg. cbn [vx vy vz]. decide_comparisons. reflexivity.
  - unfold all_nonneg. cbn [vx vy vz]. decide_comparisons. reflexivity.
  - unfold all_nonneg. cbn [vx vy vz]. decide_comparisons. reflexivity.
Defined.

(** ** ComputeHalfSpaceRelaxationForBoxSphereIntersection *)

Lemma flat_triangle_normal :
  ComputeTriangleOutwardNormal (vec3 1 0 0) (vec3 0 1 0) (vec3 (3 / 5) (4 / 5) 0)
  = Ok (vec3 0 0 1, 0).
Proof.
  assert (Hn : norm (cross (vsub (vec3 (3 / 5) (4 / 5) 0) (vec3 1 0 0))
                           (vsub (vec3 0 1 0) (vec3 1 0 0))) = 2 / 5).
  { unfold norm, squaredNorm, dot, cross, vsub. cbn [vx vy vz].
    apply sqrt_lem_1; lra. }
  assert (Hu : triangle_unit_normal (vec3 1 0 0) (vec3 0 1 0)
                 (vec3 (3 / 5) (4 / 5) 0) = vec3 0 0 1).
  { unfold triangle_unit_normal. cbv zeta. rewrite Hn.
    unfold vdiv, vsum, cross, vsub. cbn [vx vy vz].
    rewrite Rltb_no by lra. f_equal; field. }
  rewrite ComputeTriangleOutwardNormal_unfold;
    try (unfold all_nonneg; cbn [vx vy vz]; decide_comparisons; reflexivity).
  rewrite Hn, Hu. rewrite Rltb_no by lra.
  unfold all_nonneg, dot. cbn [vx vy vz]. decide_comparisons. cbn [andb].
  f_equal. f_equal. lra.
Qed.

(** On the solver path the postcondition is enforced: a result that is
    returned satisfies it. *)
Lemma half_space_solver_path_checked
  (Solve : MathematicalProgram -> Environment) (pts : list Vector3d)
  (n0 n : Vector3d) (d0 d : R) :
  AreAllVerticesCoPlanar pts = Ok (false, n0, d0) ->
  ComputeHalfSpaceRelaxationForBoxSphereIntersection Solve pts = Ok (n, d) ->
  half_space_postcondition n d.
Proof.
  intros Hco. unfold ComputeHalfSpaceRelaxationForBoxSphereIntersection.
  destruct (3 <=? List.length pts)%nat; cbn [DRAKE_DEMAND bind];
    [|discriminate].
  rewrite Hco. cbn [bind]. cbv zeta.
  cbn [NewContinuousVariables3 NewContinuousVariables1 fst snd].
  match goal with
  | |- (_ <- DRAKE_DEMAND ?c1 ;; _ <- DRAKE_DEMAND ?c2 ;; _) = _ -> _ =>
      destruct c1 eqn:E1; cbn [DRAKE_DEMAND bind]; [|discriminate];
      destruct c2 eqn:E2; cbn [DRAKE_DEMAND bind]; [|discriminate]
  end.
  intros E. injection E as <- <-.
  apply andb_true_iff in E1 as [E1 Ez]. apply andb_true_iff in E1 as [Ex Ey].
  apply andb_true_iff in E2 as [Ed0 Ed1].
  apply Rgtb_true in Ex, Ey, Ez, Ed0. apply Rltb_true in Ed1.
  unfold half_space_postcondition.
  repeat split; assumption.
Qed.

(** On the three co-planar points (1,0,0), (0,1,0), (3/5, 4/5, 0) the
    function returns through the early exit, whatever the solver, with the
    normal (0,0,1) and the offset 0. *)
Lemma half_space_early_return_unchecked
  (Solve : MathematicalProgram -> Environment) :
  (3 <= List.length flat_pts)%nat
  /\ AreAllVerticesCoPlanar flat_pts = Ok (true, vec3 0 0 1, 0)
  /\ ComputeHalfSpaceRelaxationForBoxSphereIntersection Solve flat_pts
     = Ok (vec3 0 0 1, 0)
  /\ ~ half_space_postcondition (vec3 0 0 1) 0.
Proof.
  assert (Hco : AreAllVerticesCoPlanar flat_pts = Ok (true, vec3 0 0 1, 0)).
  { unfold AreAllVerticesCoPlanar, flat_pts.
    cbn [List.length Nat.leb DRAKE_DEMAND bind at_index vcoeff nth_error].
    rewrite flat_triangle_normal. reflexivity. }
  split; [cbn; lia|]. split; [exact Hco|]. split.
  - unfold ComputeHalfSpaceRelaxationForBoxSphereIntersection.
    rewrite Hco. reflexivity.
  - unfold half_space_postcondition. cbn [vx vy vz]. lra.
Qed.

(** The list (1,0,0), (0,1,0), (3/5, 4/5, 0) has three
    points, and the function returns on it through the early exit with the
    normal (0,0,1) and the offset 0: the normal is not strictly positive, the
    offset is not in (0,1), and no invariant failure is raised.  The
    postcondition does not hold on every return path for every vertex
    list. *)
Lemma half_space_postcondition_not_on_every_path :
  ((3 <= List.length flat_pts)%nat
   /\ AreAllVerticesCoPlanar flat_pts = Ok (true, vec3 0 0 1, 0)
   /\ ComputeHalfSpaceRelaxationForBoxSphereIntersection zero_solver flat_pts
      = Ok (vec3 0 0 1, 0)
   /\ ~ half_space_postcondition (vec3 0 0 1) 0)
  /\ ~ half_space_postcondition_on_every_path.
Proof.
  pose proof (half_space_early_return_unchecked zero_solver)
    as (L & Eco & E & Hn).
  split; [repeat split; assumption|].
  intros H. exact (Hn (H zero_solver flat_pts (vec3 0 0 1) 0 L E)).
Qed.

(** ** The McCormick emitter *)

Lemma full_axis_index_range (N xi yi zi o : Z) (axis : nat) :
  (1 <= N < 2 ^ 30)%Z -> valid_cell N xi yi zi -> (axis < 3)%nat ->
  (0 <= coef (PositiveAxisIntervalIndexToFullAxisIntervalIndex
                (vec3 xi yi zi) o N) axis < 2 * N)%Z.
Proof.
  intros HN (Hx & Hy & Hz) Ha.
  unfold PositiveAxisIntervalIndexToFullAxisIntervalIndex.
  destruct axis as [|[|[|axis]]]; try lia; cbn [coef vx vy vz];
    match goal with
    | |- context [if ?c then _ else _] => destruct c
    end;
    unfold int_add, int_sub;
    rewrite ?(int_wrap_small (N - 1)) by lia;
    rewrite int_wrap_small by lia; lia.
Qed.

Lemma keeps_refl p : keeps_constraints p p.
Proof. apply incl_refl. Qed.

Lemma keeps_trans p q r :
  keeps_constraints p q -> keeps_constraints q r -> keeps_constraints p r.
Proof. apply incl_tran. Qed.

Lemma keeps_add p c : keeps_constraints p (add_constraint p c).
Proof. unfold keeps_constraints; cbn. apply incl_appl, incl_refl. Qed.

Lemma keeps_fold_left {A : Type} (f : MathematicalProgram -> A -> MathematicalProgram)
  (l : list A) :
  (forall p a, keeps_constraints p (f p a)) ->
  forall p, keeps_constraints p (fold_left f l p).
Proof.
  intros Hf. induction l as [|a l IH]; intros p; [apply keeps_refl|].
  cbn [fold_left]. eapply keeps_trans; [apply Hf | apply IH].
Qed.

Lemma keeps_foldM {A : Type} (f : MathematicalProgram -> A -> result MathematicalProgram)
  (l : list A) :
  (forall p a p', f p a = Ok p' -> keeps_constraints p p') ->
  forall p p', foldM f l p = Ok p' -> keeps_constraints p p'.
Proof.
  intros Hf p p' E.
  apply (foldM_preserves (keeps_constraints p) f l) with (s := p);
    [|apply keeps_refl|exact E].
  intros s a s' _ Hs Es. eapply keeps_trans; [exact Hs | apply (Hf _ _ _ Es)].
Qed.

(** A loop that returns has run its body on every element, from a program
    that kept the initial constraints to a program whose constraints are
    kept to the end. *)
Lemma foldM_visits {A : Type}
  (f : MathematicalProgram -> A -> result MathematicalProgram) (l : list A) :
  (forall p a p', f p a = Ok p' -> keeps_constraints p p') ->
  forall a p p', In a l -> foldM f l p = Ok p' ->
    exists q q', f q a = Ok q'
                 /\ keeps_constraints p q /\ keeps_constraints q' p'.
Proof.
  intros Hf a. induction l as [|b l IH]; intros p p' Hin E; [contradiction|].
  cbn [foldM] in E. destruct (f p b) as [p1| | |] eqn:E1; try discriminate.
  cbn [bind] in E. destruct Hin as [->|Hin].
  - exists p, p1. split; [exact E1|]. split; [apply keeps_refl|].
    apply (keeps_foldM f l Hf _ _ E).
  - destruct (IH p1 p' Hin E) as (q & q' & Eq & K1 & K2).
    exists q, q'. split; [exact Eq|]. split; [|exact K2].
    eapply keeps_trans; [apply (Hf _ _ _ E1) | exact K1].
Qed.

Lemma range_In (n i : Z) : In i (range n) <-> (0 <= i < n)%Z.
Proof.
  unfold range. rewrite in_map_iff. split.
  - intros (k & <- & Hk). apply in_seq in Hk. lia.
  - intros Hi. exists (Z.to_nat i). split; [lia|]. apply in_seq. lia.
Qed.

Section Emitter.

Variable Solve : MathematicalProgram -> Environment.
Variable v : Vector3 DecisionVariable.
Variable B_i : Vector3 (list DecisionVariable).
Variable v1 v2 : Vector3 DecisionVariable.
Variable N : Z.
Variable G : MatrixXi.

Hypothesis Hvalid : valid_encoding N G B_i.

Lemma B_i_length (axis : nat) :
  Z.of_nat (List.length (coef B_i axis)) = cols G.
Proof.
  destruct Hvalid as (_ & _ & _ & HB).
  inversion HB as [|? ? H0 HB1]; subst.
  inversion HB1 as [|? ? H1 HB2]; subst.
  inversion HB2 as [|? ? H2 _]; subst.
  destruct axis as [|[|axis]]; assumption.
Qed.

(** The indicator of a box in an orthant: it is built without failure, is
    never negative, and is zero exactly on the assignment that selects the
    box. *)
Lemma orthant_box_expression_spec (xi yi zi o : Z) :
  valid_cell N xi yi zi ->
  exists c : Vector3 Expression,
    orthant_box_expression B_i N G xi yi zi o = Ok c
    /\ forall env, binary_assignment env B_i ->
         0 <= Evaluate env (ssum c)
         /\ (selects_box env G B_i N xi yi zi o -> Evaluate env (ssum c) = 0)
         /\ (~ selects_box env G B_i N xi yi zi o -> 1 <= Evaluate env (ssum c)).
Proof.
  intros Hcell. pose proof Hvalid as (HN & HG & Hrows & _).
  set (idx := PositiveAxisIntervalIndexToFullAxisIntervalIndex
                (vec3 xi yi zi) o N).
  assert (Hidx : forall axis, (axis < 3)%nat ->
                              (0 <= coef idx axis < rows G)%Z).
  { intros axis Ha.
    pose proof (full_axis_index_range N xi yi zi o axis HN Hcell Ha) as H.
    fold idx in H. lia. }
  assert (Hpick : forall axis, (axis < 3)%nat ->
            exists e, PickBinaryExpressionGivenInterval
                        (coef idx axis) G (coef B_i axis) = Ok e
              /\ forall env, binary_assignment env B_i ->
                   0 <= Evaluate env e
                   /\ (map env (coef B_i axis)
                       = map IZR (row_of G (coef idx axis)) ->
                       Evaluate env e = 0)
                   /\ (map env (coef B_i axis)
                       <> map IZR (row_of G (coef idx axis)) ->
                       1 <= Evaluate env e)).
  { intros axis Ha.
    destruct (gray_row_shape G (coef idx axis) HG (Hidx axis Ha)) as [Hlen _].
    eexists. split.
    { apply PickBinaryExpressionGivenInterval_in_range;
        [apply Hidx, Ha | exact Hlen | apply B_i_length]. }
    intros env Hbin.
    assert (Hb : Forall (fun x => env x = 0 \/ env x = 1) (coef B_i axis)).
    { unfold binary_assignment in Hbin.
      inversion Hbin as [|? ? H0 Hb1]; subst.
      inversion Hb1 as [|? ? H1 Hb2]; subst.
      inversion Hb2 as [|? ? H2 _]; subst.
      destruct axis as [|[|axis]]; assumption. }
    destruct (pick_expression_selects_row G (coef idx axis) (coef B_i axis) env
                HG (Hidx axis Ha) (B_i_length axis) Hb)
      as (e & Ee & P0 & P1 & _ & P3).
    rewrite PickBinaryExpressionGivenInterval_in_range in Ee;
      [|apply Hidx, Ha | exact Hlen | apply B_i_length].
    injection Ee as <-. repeat split; assumption. }
  destruct (Hpick 0%nat ltac:(lia)) as (e0 & E0 & S0).
  destruct (Hpick 1%nat ltac:(lia)) as (e1 & E1 & S1).
  destruct (Hpick 2%nat ltac:(lia)) as (e2 & E2 & S2).
  exists (vec3 e0 e1 e2). split.
  { unfold orthant_box_expression, CalcBoxBinaryExpressionInOrthant.
    fold idx. rewrite E0, E1, E2. reflexivity. }
  intros env Hbin.
  destruct (S0 env Hbin) as (A0 & A1 & A2).
  destruct (S1 env Hbin) as (B0 & B1 & B2).
  destruct (S2 env Hbin) as (C0 & C1 & C2).
  unfold ssum. cbn [vx vy vz s_add Scalar_Expression Evaluate].
  split; [lra|]. split.
  - intros Hsel. unfold selects_box in Hsel. fold idx in Hsel.
    rewrite A1, B1, C1; try lra;
      [apply (Hsel 2%nat) | apply (Hsel 1%nat) | apply (Hsel 0%nat)]; lia.
  - intros Hsel.
    destruct (list_eq_dec Req_dec_T (map env (coef B_i 0))
                (map IZR (row_of G (coef idx 0)))) as [D0|D0];
      [|specialize (A2 D0); lra].
    destruct (list_eq_dec Req_dec_T (map env (coef B_i 1))
                (map IZR (row_of G (coef idx 1)))) as [D1|D1];
      [|specialize (B2 D1); lra].
    destruct (list_eq_dec Req_dec_T (map env (coef B_i 2))
                (map IZR (row_of G (coef idx 2)))) as [D2|D2];
      [|specialize (C2 D2); lra].
    exfalso. apply Hsel. intros axis Ha. fold idx.
    destruct axis as [|[|[|axis]]]; try lia; assumption.
Qed.


Lemma EmitNoIntersection_keeps (xi yi zi : Z) p o p' :
  EmitNoIntersection B_i N G xi yi zi p o = Ok p' -> keeps_constraints p p'.
Proof.
  unfold EmitNoIntersection.
  destruct (orthant_box_expression B_i N G xi yi zi o); cbn [bind];
    try discriminate.
  intros E; injection E as <-. apply keeps_add.
Qed.

Lemma EmitUniqueIntersection_keeps (xi yi zi : Z) u p o p' :
  EmitUniqueIntersection v B_i v1 v2 N G xi yi zi u p o = Ok p' ->
  keeps_constraints p p'.
Proof.
  unfold EmitUniqueIntersection.
  destruct (orthant_box_expression B_i N G xi yi zi o); cbn [bind];
    try discriminate.
  cbv zeta. cbn [fold_left]. unfold AddLinearFormula.
  intros E; injection E as <-.
  repeat (eapply keeps_trans; [|apply keeps_add]).
  apply keeps_refl.
Qed.

Lemma EmitIntersectionRegion_keeps (xi yi zi : Z) normal d Ab p o p' :
  EmitIntersectionRegion v B_i v1 v2 N G xi yi zi normal d Ab p o = Ok p' ->
  keeps_constraints p p'.
Proof.
  unfold EmitIntersectionRegion.
  destruct (orthant_box_expression B_i N G xi yi zi o) as [c| | |];
    cbn [bind];
    try discriminate.
  cbv zeta. unfold AddLinearFormula.
  intros E; injection E as <-.
  do 6 (eapply keeps_trans; [|apply keeps_add]).
  eapply keeps_trans;
    [|destruct (Z.rem o 2 =? 0)%Z; [apply keeps_add | apply keeps_refl]].
  apply keeps_fold_left.
  intros q [A_i b_i]. apply keeps_add.
Qed.

Lemma EmitCell_keeps (xi yi zi : Z) p p' :
  EmitCell Solve v B_i v1 v2 N G p xi yi zi = Ok p' -> keeps_constraints p p'.
Proof.
  unfold EmitCell. cbv zeta.
  destruct (box_intersects_sphere _ _).
  - destruct (box_touches_sphere _ _).
    + apply keeps_foldM. intros q o q'. apply EmitUniqueIntersection_keeps.
    + destruct (ComputeBoxEdgesAndSphereIntersection _ _) as [pts| | |];
        cbn [bind]; try discriminate.
      destruct (DRAKE_DEMAND _); cbn [bind]; try discriminate.
      destruct (ComputeHalfSpaceRelaxationForBoxSphereIntersection _ _)
        as [[normal d]| | |]; cbn [bind]; try discriminate.
      destruct (ComputeInnerFacetsForBoxSphereIntersection _) as [Ab| | |];
        cbn [bind]; try discriminate.
      apply keeps_foldM. intros q o q'. apply EmitIntersectionRegion_keeps.
  - apply keeps_foldM. intros q o q'. apply EmitNoIntersection_keeps.
Qed.

(** A run of the emitter that returns has emitted every cell of the grid. *)
Lemma AddMcCormickVectorConstraints_visits (xi yi zi : Z) prog prog' :
  valid_cell N xi yi zi ->
  AddMcCormickVectorConstraints Solve v B_i v1 v2 N G prog = Ok prog' ->
  exists q q', EmitCell Solve v B_i v1 v2 N G q xi yi zi = Ok q'
               /\ keeps_constraints q' prog'.
Proof.
  intros (Hx & Hy & Hz) E. unfold AddMcCormickVectorConstraints in E.
  cbv zeta in E.
  assert (Kz : forall yi' xi' p a p',
             foldM (fun prog zi => EmitCell Solve v B_i v1 v2 N G prog xi' yi' zi)
                   a p = Ok p' -> keeps_constraints p p').
  { intros yi' xi' p a p'. apply keeps_foldM.
    intros q z q'. apply EmitCell_keeps. }
  assert (Ky : forall xi' p a p',
             foldM (fun prog yi =>
                      foldM (fun prog zi =>
                               EmitCell Solve v B_i v1 v2 N G prog xi' yi zi)
                            (range N) prog)
                   a p = Ok p' -> keeps_constraints p p').
  { intros xi' p a p'. apply keeps_foldM. intros q y q'. apply Kz. }
  destruct (foldM_visits _ (range N) (fun p a p' => Ky a p (range N) p')
              xi prog prog' (proj2 (range_In N xi) Hx) E)
    as (q1 & q1' & E1 & _ & K1).
  destruct (foldM_visits _ (range N) (fun p a p' => Kz a xi p (range N) p')
              yi q1 q1' (proj2 (range_In N yi) Hy) E1)
    as (q2 & q2' & E2 & _ & K2).
  destruct (foldM_visits _ (range N)
              (fun p a p' => EmitCell_keeps xi yi a p p')
              zi q2 q2' (proj2 (range_In N zi) Hz) E2)
    as (q3 & q3' & E3 & _ & K3).
  exists q3, q3'. split; [exact E3|].
  eapply keeps_trans; [exact K3|]. eapply keeps_trans; [exact K2 | exact K1].
Qed.

Lemma norm_bounds_of_add_formula (p : MathematicalProgram) (f : Formula) :
  norm_bounds_of (constraints (AddLinearFormula p f))
  = norm_bounds_of (constraints p).
Proof.
  unfold AddLinearFormula, add_constraint, norm_bounds_of.
  cbn [constraints]. rewrite filter_app. cbn [filter]. apply app_nil_r.
Qed.

Lemma norm_bounds_of_add_norm_bound (p : MathematicalProgram)
  (orthant_normal : Vector3d) :
  norm_bounds_of (constraints (add_constraint p (norm_bound v orthant_normal)))
  = norm_bounds_of (constraints p) ++ [norm_bound v orthant_normal].
Proof.
  unfold add_constraint, norm_bounds_of.
  cbn [constraints]. rewrite filter_app. reflexivity.
Qed.

Lemma norm_bounds_of_fold_left {A : Type}
  (f : MathematicalProgram -> A -> MathematicalProgram) (l : list A) :
  (forall p a, norm_bounds_of (constraints (f p a))
               = norm_bounds_of (constraints p)) ->
  forall p, norm_bounds_of (constraints (fold_left f l p))
            = norm_bounds_of (constraints p).
Proof.
  intros Hf. induction l as [|a l IH]; intros p; [reflexivity|].
  cbn [fold_left]. rewrite IH. apply Hf.
Qed.

(** One orthant of a box with an intersection region: the norm bound is
    added for an even orthant index and for no other. *)
Lemma EmitIntersectionRegion_norm_bounds (xi yi zi : Z) (normal : Vector3d)
  (d : R) (Ab : list (Vector3d * R)) (prog : MathematicalProgram) (o : Z) :
  valid_cell N xi yi zi ->
  exists prog',
    EmitIntersectionRegion v B_i v1 v2 N G xi yi zi normal d Ab prog o = Ok prog'
    /\ norm_bounds_of (constraints prog')
       = norm_bounds_of (constraints prog)
         ++ (if (Z.rem o 2 =? 0)%Z
             then [norm_bound v (FlipVector Ropp normal o)] else []).
Proof.
  intros Hcell.
  destruct (orthant_box_expression_spec xi yi zi o Hcell) as (c & Ec & _).
  unfold EmitIntersectionRegion. rewrite Ec. cbn [bind]. cbv zeta.
  eexists. split; [reflexivity|].
  rewrite !norm_bounds_of_add_formula.
  destruct (Z.rem o 2 =? 0)%Z.
  - rewrite norm_bounds_of_add_norm_bound. f_equal.
    apply norm_bounds_of_fold_left.
    intros p [A_i b_i]. apply norm_bounds_of_add_formula.
  - rewrite app_nil_r. apply norm_bounds_of_fold_left.
    intros p [A_i b_i]. apply norm_bounds_of_add_formula.
Qed.

(** The loop over the orthants of a box with an intersection region. *)
Lemma EmitIntersectionRegion_loop (xi yi zi : Z) (normal : Vector3d)
  (d : R) (Ab : list (Vector3d * R)) (l : list Z) (prog : MathematicalProgram) :
  valid_cell N xi yi zi ->
  exists prog',
    foldM (EmitIntersectionRegion v B_i v1 v2 N G xi yi zi normal d Ab) l prog
    = Ok prog'
    /\ norm_bounds_of (constraints prog')
       = norm_bounds_of (constraints prog)
         ++ map (fun o => norm_bound v (FlipVector Ropp normal o))
                (filter (fun o => (Z.rem o 2 =? 0)%Z) l).
Proof.
  intros Hcell. revert prog. induction l as [|o l IH]; intros prog.
  - exists prog. split; [reflexivity|]. cbn. rewrite app_nil_r. reflexivity.
  - destruct (EmitIntersectionRegion_norm_bounds xi yi zi normal d Ab prog o
                Hcell) as (p1 & E1 & B1).
    destruct (IH p1) as (p2 & E2 & B2).
    exists p2. split.
    + cbn [foldM]. rewrite E1. exact E2.
    + rewrite B2, B1. cbn [filter].
      destruct (Z.rem o 2 =? 0)%Z; cbn [map]; rewrite <- app_assoc;
        reflexivity.
Qed.

End Emitter.

Lemma epsilon_small : 0 < epsilon <= 1 / 16.
Proof.
  unfold epsilon.
  assert (H : 16 <= 2 ^ 52).
  { change 52%nat with (4 + 48)%nat. rewrite pow_add.
    assert (1 <= 2 ^ 48) by (apply pow_R1_Rle; lra).
    assert (2 ^ 4 = 16) by (cbn; lra). nra. }
  split.
  - apply Rinv_0_lt_compat. lra.
  - unfold Rdiv. rewrite Rmult_1_l. apply Rinv_le_contravar; lra.
Qed.


Lemma norm_gt (a : Vector3d) (c : R) :
  0 <= c -> c * c < squaredNorm a -> c < norm a.
Proof.
  intros Hc H. pose proof (norm_nonneg a). pose proof (norm_norm a). nra.
Qed.





(** ** The norm bound of a box with an intersection region *)

Lemma FlipVector_opposite (a : Vector3d) (o : Z) :
  (0 <= o < 8)%Z ->
  FlipVector Ropp a (7 - o) = vopp (FlipVector Ropp a o).
Proof.
  intros Ho.
  assert (C : (o = 0 \/ o = 1 \/ o = 2 \/ o = 3 \/ o = 4 \/ o = 5 \/ o = 6
               \/ o = 7)%Z) by lia.
  unfold FlipVector, vopp.
  destruct C as [->|[->|[->|[->|[->|[->|[->| ->]]]]]]];
    cbn [Z.sub Z.add Z.opp Z.pos_sub Z.testbit Z.succ_double Z.pred_double
         Z.double Pos.pred_double Pos.testbit Pos.pred_N Z.odd vx vy vz];
    f_equal; lra.
Qed.

Lemma norm_bound_opposite (v : Vector3 DecisionVariable) (a : Vector3d)
  (env : Environment) :
  Satisfies env (norm_bound v (vopp a)) <-> Satisfies env (norm_bound v a).
Proof.
  unfold norm_bound, vopp. cbn [Satisfies lin vlist vx vy vz]. split; lra.
Qed.

(** A cell with an intersection region: once its geometry is computed the
    loop body returns, and the norm bounds it adds are those of the even
    orthants. *)
Lemma EmitCell_region
  (Solve : MathematicalProgram -> Environment)
  (v : Vector3 DecisionVariable) (B_i : Vector3 (list DecisionVariable))
  (v1 v2 : Vector3 DecisionVariable) (N : Z) (G : MatrixXi) (xi yi zi : Z)
  (pts : list Vector3d) (normal : Vector3d) (d : R) (Ab : list (Vector3d * R))
  (prog : MathematicalProgram) :
  valid_encoding N G B_i -> valid_cell N xi yi zi ->
  box_intersects_sphere (box_min_of N xi yi zi) (box_max_of N xi yi zi) = true ->
  box_touches_sphere (box_min_of N xi yi zi) (box_max_of N xi yi zi) = false ->
  ComputeBoxEdgesAndSphereIntersection (box_min_of N xi yi zi)
    (box_max_of N xi yi zi) = Ok pts ->
  (3 <= List.length pts)%nat ->
  ComputeHalfSpaceRelaxationForBoxSphereIntersection Solve pts = Ok (normal, d) ->
  ComputeInnerFacetsForBoxSphereIntersection pts = Ok Ab ->
  exists prog',
    EmitCell Solve v B_i v1 v2 N G prog xi yi zi = Ok prog'
    /\ norm_bounds_of (constraints prog')
       = norm_bounds_of (constraints prog)
         ++ map (fun o => norm_bound v (FlipVector Ropp normal o))
                [0; 2; 4; 6]%Z.
Proof.
  intros Hvalid Hcell HA HB Hpts Hlen Hhs Hfacets.
  destruct (EmitIntersectionRegion_loop v B_i v1 v2 N G Hvalid xi yi zi
              normal d Ab (range 8) prog Hcell) as (prog' & E & Bn).
  exists prog'. split; [|exact Bn].
  unfold EmitCell. cbv zeta. rewrite HA, HB, Hpts. cbn [bind].
  apply Nat.leb_le in Hlen. rewrite Hlen. cbn [DRAKE_DEMAND bind].
  rewrite Hhs. cbn [bind]. rewrite Hfacets. cbn [bind]. exact E.
Qed.

(** C2 (amended). In a grid cell whose box meets the sphere in a region
    (State C), once the geometry of the cell is computed the loop body
    returns and has emitted the norm bound [-1 <= n . v <= 1], with [n] the
    reflected normal, for the four even orthants 0, 2, 4, 6, in this order,
    and for no other orthant: four constraints per cell.  The bound of an
    odd orthant [o] is equivalent to the bound emitted for the opposite
    orthant [7 - o].  A run of the emitter that returns contains the four
    bounds of the cell. *)
Theorem EmitCell_norm_bounds_on_even_orthants
  (Solve : MathematicalProgram -> Environment)
  (v : Vector3 DecisionVariable) (B_i : Vector3 (list DecisionVariable))
  (v1 v2 : Vector3 DecisionVariable) (N : Z) (G : MatrixXi) (xi yi zi : Z)
  (pts : list Vector3d) (normal : Vector3d) (d : R) (Ab : list (Vector3d * R)) :
  valid_encoding N G B_i -> valid_cell N xi yi zi ->
  box_intersects_sphere (box_min_of N xi yi zi) (box_max_of N xi yi zi) = true ->
  box_touches_sphere (box_min_of N xi yi zi) (box_max_of N xi yi zi) = false ->
  ComputeBoxEdgesAndSphereIntersection (box_min_of N xi yi zi)
    (box_max_of N xi yi zi) = Ok pts ->
  (3 <= List.length pts)%nat ->
  ComputeHalfSpaceRelaxationForBoxSphereIntersection Solve pts = Ok (normal, d) ->
  ComputeInnerFacetsForBoxSphereIntersection pts = Ok Ab ->
  (forall prog, exists prog',
      EmitCell Solve v B_i v1 v2 N G prog xi yi zi = Ok prog'
      /\ norm_bounds_of (constraints prog')
         = norm_bounds_of (constraints prog)
           ++ map (fun o => norm_bound v (FlipVector Ropp normal o))
                  [0; 2; 4; 6]%Z)
  /\ (forall o env, In o [1; 3; 5; 7]%Z ->
        (Satisfies env (norm_bound v (FlipVector Ropp normal o))
         <-> Satisfies env (norm_bound v (FlipVector Ropp normal (7 - o)))))
  /\ (forall prog prog',
        AddMcCormickVectorConstraints Solve v B_i v1 v2 N G prog = Ok prog' ->
        forall o, In o [0; 2; 4; 6]%Z ->
                  In (norm_bound v (FlipVector Ropp normal o)) (constraints prog')).
Proof.
  intros Hvalid Hcell HA HB Hpts Hlen Hhs Hfacets.
  assert (Ecell : forall prog, exists prog',
      EmitCell Solve v B_i v1 v2 N G prog xi yi zi = Ok prog'
      /\ norm_bounds_of (constraints prog')
         = norm_bounds_of (constraints prog)
           ++ map (fun o => norm_bound v (FlipVector Ropp normal o))
                  [0; 2; 4; 6]%Z).
  { intros prog.
    exact (EmitCell_region Solve v B_i v1 v2 N G xi yi zi pts normal d Ab prog
             Hvalid Hcell HA HB Hpts Hlen Hhs Hfacets). }
  split; [exact Ecell|]. split.
  - intros o env Ho.
    rewrite FlipVector_opposite by (cbn in Ho; lia).
    symmetry. apply norm_bound_opposite.
  - intros prog prog' Erun o Ho.
    destruct (AddMcCormickVectorConstraints_visits Solve v B_i v1 v2 N G
                xi yi zi prog prog' Hcell Erun) as (q & q' & Eq & K).
    destruct (Ecell q) as (q'' & Eq' & Bn).
    rewrite Eq in Eq'. injection Eq' as <-.
    apply K.
    assert (Hin : In (norm_bound v (FlipVector Ropp normal o))
                     (norm_bounds_of (constraints q'))).
    { rewrite Bn. apply in_or_app. right.
      apply (in_map (fun o => norm_bound v (FlipVector Ropp normal o))).
      exact Ho. }
    unfold norm_bounds_of in Hin. apply filter_In in Hin. apply Hin.
Qed.

(** *** The single cell of the resolution [N = 1] *)

Lemma unit_cube_box :
  box_min_of 1 0 0 0 = unit_cube_min /\ box_max_of 1 0 0 0 = unit_cube_max.
Proof.
  unfold box_min_of, box_max_of, EnvelopeMinValue, unit_cube_min,
    unit_cube_max.
  change (int_add 0 1) with 1%Z. split; f_equal; lra.
Qed.

Lemma sqrt_3_gt_3_2 : 3 / 2 < sqrt 3.
Proof.
  pose proof (sqrt_pos 3). pose proof (sqrt_sqrt 3 ltac:(lra)). nra.
Qed.

Lemma unit_cube_norms : norm unit_cube_min = 0 /\ norm unit_cube_max = sqrt 3.
Proof.
  unfold norm, squaredNorm, dot, unit_cube_min, unit_cube_max.
  cbn [vx vy vz]. split.
  - replace (0 * 0 + 0 * 0 + 0 * 0) with 0 by lra. apply sqrt_0.
  - f_equal. lra.
Qed.

Lemma unit_cube_state :
  box_intersects_sphere unit_cube_min unit_cube_max = true
  /\ box_touches_sphere unit_cube_min unit_cube_max = false.
Proof.
  pose proof epsilon_small as He. pose proof sqrt_3_gt_3_2 as H3.
  destruct unit_cube_norms as [E0 E1].
  unfold box_intersects_sphere, box_touches_sphere, Rgeb.
  rewrite E0, E1. split.
  - rewrite !Rleb_yes by lra. reflexivity.
  - rewrite !Rltb_no; [reflexivity| |].
    + rewrite Rabs_right by lra. lra.
    + rewrite Rabs_left by lra. lra.
Qed.

Lemma unit_cube_triangle :
  ComputeTriangleOutwardNormal (vec3 0 0 1) (vec3 0 1 0) (vec3 1 0 0)
  = Ok (unit_cube_normal, 1 / sqrt 3).
Proof.
  pose proof sqrt_3_gt_1 as S3.
  assert (I3 : 0 < / sqrt 3) by (apply Rinv_0_lt_compat; lra).
  assert (Hn : norm (cross (vsub (vec3 1 0 0) (vec3 0 0 1))
                           (vsub (vec3 0 1 0) (vec3 0 0 1))) = sqrt 3).
  { unfold norm, squaredNorm, dot, cross, vsub. cbn [vx vy vz]. f_equal. lra. }
  assert (Hu : triangle_unit_normal (vec3 0 0 1) (vec3 0 1 0) (vec3 1 0 0)
               = unit_cube_normal).
  { unfold triangle_unit_normal. cbv zeta. rewrite Hn.
    unfold vdiv, vsum, cross, vsub. cbn [vx vy vz].
    rewrite Rltb_no by (unfold Rdiv; nra).
    unfold unit_cube_normal. f_equal; field; lra. }
  rewrite ComputeTriangleOutwardNormal_unfold;
    try (unfold all_nonneg; cbn [vx vy vz]; decide_comparisons; reflexivity).
  rewrite Hn, Hu. rewrite Rltb_no by lra.
  unfold all_nonneg, Rgeb, unit_cube_normal, dot. cbn [vx vy vz].
  rewrite !Rleb_yes by (unfold Rdiv; nra). cbn [andb].
  f_equal. f_equal. field. lra.
Qed.

Lemma unit_cube_half_space (Solve : MathematicalProgram -> Environment) :
  ComputeHalfSpaceRelaxationForBoxSphereIntersection Solve unit_cube_pts
  = Ok (unit_cube_normal, 1 / sqrt 3).
Proof.
  unfold ComputeHalfSpaceRelaxationForBoxSphereIntersection,
    AreAllVerticesCoPlanar, unit_cube_pts.
  cbn [List.length Nat.leb DRAKE_DEMAND bind at_index vcoeff nth_error].
  rewrite unit_cube_triangle. reflexivity.
Qed.

Lemma unit_cube_facets :
  ComputeInnerFacetsForBoxSphereIntersection unit_cube_pts
  = Ok [(vopp unit_cube_normal, - (1 / sqrt 3))].
Proof.
  unfold ComputeInnerFacetsForBoxSphereIntersection, unit_cube_pts.
  cbn [foldM]. unfold all_nonneg. cbn [vx vy vz]. decide_comparisons.
  cbn [andb DRAKE_DEMAND bind List.length seq Init.Nat.add Init.Nat.sub foldM
       nth].
  rewrite unit_cube_triangle. cbn [bind forallb Nat.eqb negb andb].
  reflexivity.
Qed.

Lemma valid_encoding_example_1 :
  valid_encoding 1 (CalculateReflectedGrayCodes 1) B1_example.
Proof.
  unfold valid_encoding. split; [lia|]. split; [reflexivity|].
  split; [cbn; lia|]. repeat constructor.
Qed.

(** With one interval per half axis the only cell is the unit cube: its
    region gets the norm bounds of the orthants 0, 2, 4 and 6 only. *)
Lemma unit_cube_cell (prog : MathematicalProgram) :
  exists prog',
    EmitCell zero_solver v_example B1_example v1_example v2_example 1
      (CalculateReflectedGrayCodes 1) prog 0 0 0 = Ok prog'
    /\ norm_bounds_of (constraints prog')
       = norm_bounds_of (constraints prog)
         ++ map (fun o => norm_bound v_example (FlipVector Ropp unit_cube_normal o))
                [0; 2; 4; 6]%Z.
Proof.
  destruct unit_cube_box as [Emin Emax]. destruct unit_cube_state as [SA SB].
  apply (EmitCell_region zero_solver v_example
           B1_example v1_example v2_example 1 (CalculateReflectedGrayCodes 1)
           0 0 0 unit_cube_pts unit_cube_normal (1 / sqrt 3)
           [(vopp unit_cube_normal, - (1 / sqrt 3))]).
  - exact valid_encoding_example_1.
  - unfold valid_cell. lia.
  - rewrite Emin, Emax. exact SA.
  - rewrite Emin, Emax. exact SB.
  - rewrite Emin, Emax. exact unit_cube_intersection.
  - cbn. lia.
  - apply unit_cube_half_space.
  - exact unit_cube_facets.
Qed.

Lemma EmitCell_norm_bounds_unit_cube :
  exists prog',
    EmitCell zero_solver v_example B1_example v1_example v2_example 1
      (CalculateReflectedGrayCodes 1) empty_program 0 0 0 = Ok prog'
    /\ norm_bounds_of (constraints prog')
       = norm_bounds_of (constraints empty_program)
         ++ map (fun o => norm_bound v_example (FlipVector Ropp unit_cube_normal o))
                [0; 2; 4; 6]%Z.
Proof.
  destruct unit_cube_box as [Emin Emax]. destruct unit_cube_state as [SA SB].
  apply (EmitCell_norm_bounds_on_even_orthants zero_solver v_example
           B1_example v1_example v2_example 1 (CalculateReflectedGrayCodes 1)
           0 0 0 unit_cube_pts unit_cube_normal (1 / sqrt 3)
           [(vopp unit_cube_normal, - (1 / sqrt 3))]).
  - exact valid_encoding_example_1.
  - unfold valid_cell. lia.
  - rewrite Emin, Emax. exact SA.
  - rewrite Emin, Emax. exact SB.
  - rewrite Emin, Emax. exact unit_cube_intersection.
  - cbn. lia.
  - apply unit_cube_half_space.
  - exact unit_cube_facets.
Defined.

(** With [N = 1] the emitter runs on the single cell of the unit cube and
    adds four norm bounds, those of the orthants 0, 2, 4 and 6, not eight. *)
Lemma norm_bound_not_in_every_orthant :
  (exists prog',
      AddMcCormickVectorConstraints zero_solver v_example B1_example
        v1_example v2_example 1 (CalculateReflectedGrayCodes 1) empty_program
      = Ok prog'
      /\ norm_bounds_of (constraints prog')
         = map (fun o => norm_bound v_example
                           (FlipVector Ropp unit_cube_normal o))
               [0; 2; 4; 6]%Z)
  /\ ~ norm_bound_in_every_orthant.
Proof.
  destruct unit_cube_box as [Emin Emax]. destruct unit_cube_state as [SA SB].
  destruct (unit_cube_cell empty_program) as (prog' & E & Bn).
  split.
  { exists prog'. split; [|exact Bn].
    unfold AddMcCormickVectorConstraints. cbv zeta.
    change (range 1) with [0%Z]. cbn [foldM]. rewrite E. reflexivity. }
  intros H.
  specialize (H zero_solver v_example B1_example v1_example v2_example 1%Z
                (CalculateReflectedGrayCodes 1) empty_program prog' 0%Z 0%Z 0%Z
                valid_encoding_example_1).
  rewrite Bn in H. cbn [List.length norm_bounds_of constraints empty_program
                        filter app map Init.Nat.add] in H.
  assert (C : 4%nat = 8%nat); [|discriminate C].
  apply H.
  - unfold valid_cell. lia.
  - rewrite Emin, Emax. exact SA.
  - rewrite Emin, Emax. exact SB.
  - exact E.
Qed.

(** * Further properties *)

(** ** Planes through intersection vertices *)

Lemma triangle_unit_normal_norm (pt0 pt1 pt2 : Vector3d) :
  ~ norm (cross (vsub pt2 pt0) (vsub pt1 pt0)) < 1 / 1000 ->
  norm (triangle_unit_normal pt0 pt1 pt2) = 1.
Proof.
  intros Hc. set (c := cross (vsub pt2 pt0) (vsub pt1 pt0)) in *.
  assert (Hn : 0 < norm c) by lra.
  assert (Hu : norm (vdiv c (norm c)) = 1).
  { apply norm_eq_1. pose proof (norm_norm c) as NN.
    unfold squaredNorm, dot, vdiv in *. cbn [vx vy vz].
    set (k := norm c) in *.
    replace (vx c / k * (vx c / k) + vy c / k * (vy c / k)
             + vz c / k * (vz c / k))
      with ((vx c * vx c + vy c * vy c + vz c * vz c) / (k * k))
      by (field; lra).
    rewrite <- NN. field. lra. }
  unfold triangle_unit_normal. fold c.
  destruct (Rltb (vsum (vdiv c (norm c))) 0); [|exact Hu].
  apply norm_eq_1. apply norm_eq_1 in Hu.
  unfold squaredNorm, dot, vscale in *. cbn [vx vy vz] in *. lra.
Qed.

(** The sign-adjusted unit normal is orthogonal to the two sides of the
    triangle that start at [pt0]. *)
Lemma triangle_unit_normal_orthogonal (pt0 pt1 pt2 : Vector3d) :
  ~ norm (cross (vsub pt2 pt0) (vsub pt1 pt0)) < 1 / 1000 ->
  let n := triangle_unit_normal pt0 pt1 pt2 in
  dot n pt1 = dot n pt0 /\ dot n pt2 = dot n pt0.
Proof.
  intros Hc. cbv zeta. unfold triangle_unit_normal.
  set (k := norm (cross (vsub pt2 pt0) (vsub pt1 pt0))) in *.
  assert (Hk : k <> 0) by lra.
  destruct pt0 as [x0 y0 z0], pt1 as [x1 y1 z1], pt2 as [x2 y2 z2].
  destruct (Rltb _ 0);
    unfold dot, vscale, vdiv, cross, vsub; cbn [vx vy vz]; split; field;
    exact Hk.
Qed.

(** What a returned triangle plane is. *)
Lemma triangle_plane (pt0 pt1 pt2 n : Vector3d) (d : R) :
  ComputeTriangleOutwardNormal pt0 pt1 pt2 = Ok (n, d) ->
  (all_nonneg pt0 = true /\ all_nonneg pt1 = true /\ all_nonneg pt2 = true)
  /\ norm n = 1
  /\ (0 <= vx n /\ 0 <= vy n /\ 0 <= vz n)
  /\ (dot n pt0 = d /\ dot n pt1 = d /\ dot n pt2 = d)
  /\ 0 <= d.
Proof.
  intros E.
  destruct (all_nonneg pt0) eqn:H0;
    [|unfold ComputeTriangleOutwardNormal in E; rewrite H0 in E; discriminate].
  destruct (all_nonneg pt1) eqn:H1;
    [|unfold ComputeTriangleOutwardNormal in E; rewrite H0, H1 in E;
      discriminate].
  destruct (all_nonneg pt2) eqn:H2;
    [|unfold ComputeTriangleOutwardNormal in E; rewrite H0, H1, H2 in E;
      discriminate].
  rewrite (ComputeTriangleOutwardNormal_unfold pt0 pt1 pt2 H0 H1 H2) in E.
  destruct (Rltb (norm (cross (vsub pt2 pt0) (vsub pt1 pt0))) (1 / 1000))
    eqn:Ec; [discriminate|].
  apply Rltb_false in Ec.
  destruct (all_nonneg (triangle_unit_normal pt0 pt1 pt2)) eqn:Hn;
    [|discriminate].
  injection E as <- <-.
  destruct (triangle_unit_normal_orthogonal pt0 pt1 pt2 Ec) as [O1 O2].
  assert (Hd : dot (triangle_unit_normal pt0 pt1 pt2) pt0
               = dot pt0 (triangle_unit_normal pt0 pt1 pt2))
    by (unfold dot; lra).
  apply all_nonneg_true in Hn. apply all_nonneg_true in H0.
  split; [repeat split; reflexivity || (apply all_nonneg_true; assumption)|].
  split; [apply triangle_unit_normal_norm; exact Ec|].
  split; [exact Hn|].
  split; [repeat split; congruence|].
  unfold dot. destruct Hn as (? & ? & ?), H0 as (? & ? & ?).
  repeat apply Rplus_le_le_0_compat; apply Rmult_le_pos; assumption.
Qed.

(** X1. A plane returned by [ComputeTriangleOutwardNormal] passes through
    the three points: [n . pt0 = n . pt1 = n . pt2 = d].  Its normal has
    unit length and no negative component, and [d] is not negative. *)
Theorem ComputeTriangleOutwardNormal_plane_through_points
  (pt0 pt1 pt2 n : Vector3d) (d : R) :
  ComputeTriangleOutwardNormal pt0 pt1 pt2 = Ok (n, d) ->
  norm n = 1
  /\ (0 <= vx n /\ 0 <= vy n /\ 0 <= vz n)
  /\ (dot n pt0 = d /\ dot n pt1 = d /\ dot n pt2 = d)
  /\ 0 <= d.
Proof.
  intros E. apply (triangle_plane pt0 pt1 pt2 n d E).
Qed.

Lemma ComputeTriangleOutwardNormal_plane_through_points_example :
  norm unit_cube_normal = 1
  /\ (0 <= vx unit_cube_normal /\ 0 <= vy unit_cube_normal
      /\ 0 <= vz unit_cube_normal)
  /\ (dot unit_cube_normal (vec3 0 0 1) = 1 / sqrt 3
      /\ dot unit_cube_normal (vec3 0 1 0) = 1 / sqrt 3
      /\ dot unit_cube_normal (vec3 1 0 0) = 1 / sqrt 3)
  /\ 0 <= 1 / sqrt 3.
Proof.
  apply (ComputeTriangleOutwardNormal_plane_through_points
           (vec3 0 0 1) (vec3 0 1 0) (vec3 1 0 0)).
  exact unit_cube_triangle.
Defined.

(** ** AreAllVerticesCoPlanar *)

(** The function on a vector of at least three points. *)
Lemma AreAllVerticesCoPlanar_unfold (p0 p1 p2 : Vector3d) (rest : list Vector3d) :
  AreAllVerticesCoPlanar (p0 :: p1 :: p2 :: rest)
  = '(n, d) <- ComputeTriangleOutwardNormal p0 p1 p2 ;;
    if forallb (fun p => negb (Rgtb (Rabs (dot n p - d)) (1 / 10 ^ 10))) rest
    then Ok (true, n, d)
    else Ok (false, vzero, 0).
Proof. reflexivity. Qed.

Lemma AreAllVerticesCoPlanar_short (pts : list Vector3d) :
  (List.length pts < 3)%nat -> AreAllVerticesCoPlanar pts = Abort.
Proof.
  intros H. unfold AreAllVerticesCoPlanar.
  destruct pts as [|p0 [|p1 [|p2 rest]]]; cbn in H; try lia; reflexivity.
Qed.

(** What the answers of the co-planarity test mean. *)
Lemma coplanar_answer (pts : list Vector3d) (flag : bool) (n : Vector3d) (d : R) :
  AreAllVerticesCoPlanar pts = Ok (flag, n, d) ->
  exists p0 p1 p2 rest n0 d0,
    pts = p0 :: p1 :: p2 :: rest
    /\ ComputeTriangleOutwardNormal p0 p1 p2 = Ok (n0, d0)
    /\ (flag = true ->
        n = n0 /\ d = d0
        /\ Forall (fun p => Rabs (dot n p - d) <= 1 / 10 ^ 10) pts)
    /\ (flag = false ->
        n = vzero /\ d = 0
        /\ Exists (fun p => Rabs (dot n0 p - d0) > 1 / 10 ^ 10) rest).
Proof.
  intros E.
  destruct pts as [|p0 [|p1 [|p2 rest]]];
    try (rewrite AreAllVerticesCoPlanar_short in E by (cbn; lia); discriminate).
  rewrite AreAllVerticesCoPlanar_unfold in E.
  destruct (ComputeTriangleOutwardNormal p0 p1 p2) as [[n0 d0]| | |] eqn:Et;
    cbn [bind] in E; try discriminate.
  exists p0, p1, p2, rest, n0, d0.
  split; [reflexivity|]. split; [exact Et|].
  destruct (triangle_plane p0 p1 p2 n0 d0 Et)
    as (_ & _ & _ & (D0 & D1 & D2) & _).
  destruct (forallb _ rest) eqn:Ef; injection E as <- <- <-.
  - split; [|discriminate]. intros _. split; [reflexivity|].
    split; [reflexivity|].
    assert (Hon : forall p, dot n0 p = d0 -> Rabs (dot n0 p - d0) <= 1 / 10 ^ 10).
    { intros p ->. unfold Rminus. rewrite Rplus_opp_r, Rabs_R0.
      apply Rlt_le, Rdiv_lt_0_compat; [lra | apply pow_lt; lra]. }
    repeat (constructor; [apply Hon; assumption|]).
    apply Forall_forall. intros p Hp.
    rewrite forallb_forall in Ef. specialize (Ef p Hp).
    apply negb_true_iff, Rgtb_false in Ef. lra.
  - split; [discriminate|]. intros _. split; [reflexivity|].
    split; [reflexivity|].
    clear - Ef. induction rest as [|p rest IH]; [discriminate|].
    cbn [forallb] in Ef. apply andb_false_iff in Ef as [Ef|Ef].
    + left. apply negb_false_iff, Rgtb_true in Ef. exact Ef.
    + right. apply IH, Ef.
Qed.

(** X2. [AreAllVerticesCoPlanar] needs three points.  When it answers
    [true], the plane it returns is the plane of the first three points,
    its normal has unit length, and every point of the input is within 1e-10
    of the plane; when it answers [false], the normal and the offset
    returned are zero and some point after the third is farther than 1e-10
    from the plane of the first three. *)
Theorem AreAllVerticesCoPlanar_answer
  (pts : list Vector3d) (flag : bool) (n : Vector3d) (d : R) :
  AreAllVerticesCoPlanar pts = Ok (flag, n, d) ->
  (3 <= List.length pts)%nat
  /\ (flag = true ->
      ComputeTriangleOutwardNormal (nth 0 pts vzero) (nth 1 pts vzero)
        (nth 2 pts vzero) = Ok (n, d)
      /\ norm n = 1
      /\ Forall (fun p => Rabs (dot n p - d) <= 1 / 10 ^ 10) pts)
  /\ (flag = false ->
      n = vzero /\ d = 0
      /\ exists n0 d0,
           ComputeTriangleOutwardNormal (nth 0 pts vzero) (nth 1 pts vzero)
             (nth 2 pts vzero) = Ok (n0, d0)
           /\ Exists (fun p => Rabs (dot n0 p - d0) > 1 / 10 ^ 10)
                     (skipn 3 pts)).
Proof.
  intros E.
  destruct (coplanar_answer pts flag n d E)
    as (p0 & p1 & p2 & rest & n0 & d0 & -> & Et & Ht & Hf).
  cbn [nth skipn List.length]. split; [lia|]. split.
  - intros F. destruct (Ht F) as (-> & -> & Hall).
    split; [exact Et|]. split; [|exact Hall].
    apply (triangle_plane p0 p1 p2 n0 d0 Et).
  - intros F. destruct (Hf F) as (-> & -> & Hex).
    split; [reflexivity|]. split; [reflexivity|].
    exists n0, d0. split; [exact Et | exact Hex].
Qed.

(** The points (0,0,1), (0,1,0), (1,0,0) of the unit cube. *)
Lemma unit_cube_coplanar :
  AreAllVerticesCoPlanar unit_cube_pts = Ok (true, unit_cube_normal, 1 / sqrt 3).
Proof.
  unfold unit_cube_pts. rewrite AreAllVerticesCoPlanar_unfold.
  rewrite unit_cube_triangle. reflexivity.
Qed.

Lemma AreAllVerticesCoPlanar_answer_example :
  (3 <= List.length unit_cube_pts)%nat
  /\ (true = true ->
      ComputeTriangleOutwardNormal (nth 0 unit_cube_pts vzero)
        (nth 1 unit_cube_pts vzero) (nth 2 unit_cube_pts vzero)
      = Ok (unit_cube_normal, 1 / sqrt 3)
      /\ norm unit_cube_normal = 1
      /\ Forall (fun p => Rabs (dot unit_cube_normal p - 1 / sqrt 3)
                          <= 1 / 10 ^ 10) unit_cube_pts)
  /\ (true = false ->
      unit_cube_normal = vzero /\ 1 / sqrt 3 = 0
      /\ exists n0 d0,
           ComputeTriangleOutwardNormal (nth 0 unit_cube_pts vzero)
             (nth 1 unit_cube_pts vzero) (nth 2 unit_cube_pts vzero)
           = Ok (n0, d0)
           /\ Exists (fun p => Rabs (dot n0 p - d0) > 1 / 10 ^ 10)
                     (skipn 3 unit_cube_pts)).
Proof.
  apply (AreAllVerticesCoPlanar_answer unit_cube_pts true unit_cube_normal
           (1 / sqrt 3)).
  exact unit_cube_coplanar.
Defined.

(** ** ComputeHalfSpaceRelaxationForBoxSphereIntersection *)

(** X3. Whatever the solver answers, a half space returned by
    [ComputeHalfSpaceRelaxationForBoxSphereIntersection] comes from at least
    three points, its normal has no negative component and its offset is
    not negative.  It is either the plane of co-planar points, which is
    returned without consulting the solver (every solver gives the same
    result), or an answer of the solver that is strictly positive with
    [0 < d < 1]. *)
Theorem ComputeHalfSpaceRelaxationForBoxSphereIntersection_result
  (Solve : MathematicalProgram -> Environment) (pts : list Vector3d)
  (n : Vector3d) (d : R) :
  ComputeHalfSpaceRelaxationForBoxSphereIntersection Solve pts = Ok (n, d) ->
  (3 <= List.length pts)%nat
  /\ (0 <= vx n /\ 0 <= vy n /\ 0 <= vz n) /\ 0 <= d
  /\ ((AreAllVerticesCoPlanar pts = Ok (true, n, d)
       /\ forall Solve' : MathematicalProgram -> Environment,
            ComputeHalfSpaceRelaxationForBoxSphereIntersection Solve' pts
            = Ok (n, d))
      \/ (AreAllVerticesCoPlanar pts = Ok (false, vzero, 0)
          /\ half_space_postcondition n d)).
Proof.
  intros E. pose proof E as E'.
  unfold ComputeHalfSpaceRelaxationForBoxSphereIntersection in E.
  destruct (3 <=? List.length pts)%nat eqn:L; cbn [DRAKE_DEMAND bind] in E;
    [|discriminate].
  apply Nat.leb_le in L. split; [exact L|].
  destruct (AreAllVerticesCoPlanar pts) as [[[flag n0] d0]| | |] eqn:Eco;
    cbn [bind] in E; try discriminate.
  destruct flag.
  - injection E as <- <-.
    destruct (coplanar_answer pts true n0 d0 Eco)
      as (p0 & p1 & p2 & rest & n1 & d1 & _ & Et & Ht & _).
    destruct (Ht eq_refl) as (-> & -> & _).
    destruct (triangle_plane p0 p1 p2 n1 d1 Et) as (_ & _ & Hn & _ & Hd).
    split; [exact Hn|]. split; [exact Hd|]. left.
    split; [reflexivity|]. intros Solve'.
    unfold ComputeHalfSpaceRelaxationForBoxSphereIntersection.
    apply Nat.leb_le in L. rewrite L, Eco. reflexivity.
  - destruct (coplanar_answer pts false n0 d0 Eco)
      as (p0 & p1 & p2 & rest & n1 & d1 & _ & _ & _ & Hf).
    destruct (Hf eq_refl) as (-> & -> & _).
    pose proof (half_space_solver_path_checked Solve pts vzero n 0 d Eco E')
      as P.
    pose proof P as ((Px & Py & Pz) & (Pd & _)).
    split; [lra|]. split; [lra|]. right. split; [reflexivity | exact P].
Qed.

Lemma ComputeHalfSpaceRelaxationForBoxSphereIntersection_result_example :
  (3 <= List.length unit_cube_pts)%nat
  /\ (0 <= vx unit_cube_normal /\ 0 <= vy unit_cube_normal
      /\ 0 <= vz unit_cube_normal) /\ 0 <= 1 / sqrt 3
  /\ ((AreAllVerticesCoPlanar unit_cube_pts
       = Ok (true, unit_cube_normal, 1 / sqrt 3)
       /\ forall Solve' : MathematicalProgram -> Environment,
            ComputeHalfSpaceRelaxationForBoxSphereIntersection Solve'
              unit_cube_pts
            = Ok (unit_cube_normal, 1 / sqrt 3))
      \/ (AreAllVerticesCoPlanar unit_cube_pts = Ok (false, vzero, 0)
          /\ half_space_postcondition unit_cube_normal (1 / sqrt 3))).
Proof.
  apply (ComputeHalfSpaceRelaxationForBoxSphereIntersection_result
           zero_solver unit_cube_pts).
  apply unit_cube_half_space.
Defined.

(** ** ComputeInnerFacetsForBoxSphereIntersection *)

Lemma norm_vopp (a : Vector3d) : norm (vopp a) = norm a.
Proof.
  unfold norm, squaredNorm, dot, vopp. cbn [vx vy vz]. f_equal. lra.
Qed.

Lemma dot_vopp (a p : Vector3d) : dot (vopp a) p = - dot a p.
Proof. unfold dot, vopp. cbn [vx vy vz]. lra. Qed.

Lemma vopp_vopp (a : Vector3d) : vopp (vopp a) = a.
Proof. destruct a as [x y z]; unfold vopp; cbn [vx vy vz]. f_equal; lra. Qed.

(** The loops over the triangles. *)
Lemma inner_facets_loop (pts : list Vector3d) (Ab0 Ab : list (Vector3d * R)) :
  Forall (facet_of pts) Ab0 ->
  foldM (fun Ab i =>
    foldM (fun Ab j =>
      foldM (fun Ab k =>
        '(c, d) <- ComputeTriangleOutwardNormal
                     (nth i pts vzero) (nth j pts vzero) (nth k pts vzero) ;;
        let is_valid_halfspace :=
          forallb (fun l =>
                     negb (negb (l =? i)%nat && negb (l =? j)%nat
                           && negb (l =? k)%nat
                           && Rltb (dot c (nth l pts vzero)) (d - 1 / 10 ^ 10)))
                  (seq 0 (List.length pts)) in
        if is_valid_halfspace
        then Ok (push_back Ab (vopp c, - d))
        else Ok Ab)
      (seq (j + 1) (List.length pts - (j + 1))) Ab)
    (seq (i + 1) (List.length pts - (i + 1))) Ab)
  (seq 0 (List.length pts)) Ab0 = Ok Ab ->
  Forall (facet_of pts) Ab.
Proof.
  intros H0. apply (foldM_preserves (Forall (facet_of pts))); [|exact H0].
  intros Ab1 i Ab1' Hi H1.
  apply (foldM_preserves (Forall (facet_of pts))); [|exact H1].
  intros Ab2 j Ab2' Hj H2.
  apply (foldM_preserves (Forall (facet_of pts))); [|exact H2].
  intros Ab3 k Ab3' Hk H3.
  apply in_seq in Hi, Hj, Hk.
  destruct (ComputeTriangleOutwardNormal _ _ _) as [[c d]| | |] eqn:Et;
    cbn [bind]; try discriminate.
  cbv zeta.
  destruct (forallb _ (seq 0 (List.length pts))) eqn:Ev;
    intros E; injection E as <-; [|exact H3].
  apply Forall_app. split; [exact H3|]. constructor; [|constructor].
  destruct (triangle_plane _ _ _ c d Et)
    as (_ & Nc & (Cx & Cy & Cz) & (D0 & D1 & D2) & Hd).
  unfold facet_of. split; [|split; [|split; [|split]]].
  - exists i, j, k. split; [lia|]. split; [lia|].
    rewrite vopp_vopp, Ropp_involutive. exact Et.
  - rewrite norm_vopp. exact Nc.
  - unfold vopp. cbn [vx vy vz]. lra.
  - lra.
  - apply Forall_forall. intros p Hp.
    destruct (In_nth pts p vzero Hp) as (l & Hl & <-).
    rewrite dot_vopp.
    rewrite forallb_forall in Ev.
    assert (Hin : In l (seq 0 (List.length pts))) by (apply in_seq; lia).
    specialize (Ev l Hin).
    assert (T : 0 < 1 / 10 ^ 10)
      by (apply Rdiv_lt_0_compat; [lra | apply pow_lt; lra]).
    destruct (Nat.eq_dec l i) as [Ei|Ni]; [rewrite Ei; lra|].
    destruct (Nat.eq_dec l j) as [Ej|Nj]; [rewrite Ej; lra|].
    destruct (Nat.eq_dec l k) as [Ek|Nk]; [rewrite Ek; lra|].
    apply Nat.eqb_neq in Ni, Nj, Nk. rewrite Ni, Nj, Nk in Ev.
    cbn [negb andb] in Ev. apply negb_true_iff, Rltb_false in Ev. lra.
Qed.

Lemma inner_facets_entry (pts : list Vector3d) :
  foldM (fun (_ : unit) pt => DRAKE_DEMAND (all_nonneg pt)) pts tt
  = if forallb all_nonneg pts then Ok tt else Abort.
Proof.
  induction pts as [|p pts IH]; [reflexivity|].
  cbn [foldM forallb]. destruct (all_nonneg p); cbn [DRAKE_DEMAND bind andb];
    [|reflexivity].
  exact IH.
Qed.

(** X4. Every facet [(A_i, b_i)] returned by
    [ComputeInnerFacetsForBoxSphereIntersection] is minus the plane
    [ComputeTriangleOutwardNormal] finds through three of the points, taken
    in the order of their indices; its normal has unit length and no
    positive component, [b_i <= 0], and every point of the input satisfies
    [A_i . p <= b_i + 1e-10]. *)
Theorem ComputeInnerFacetsForBoxSphereIntersection_facets
  (pts : list Vector3d) (Ab : list (Vector3d * R)) :
  ComputeInnerFacetsForBoxSphereIntersection pts = Ok Ab ->
  Forall (fun Ab_i : Vector3d * R =>
            (exists i j k : nat,
                (i < j < k)%nat /\ (k < List.length pts)%nat
                /\ ComputeTriangleOutwardNormal (nth i pts vzero)
                     (nth j pts vzero) (nth k pts vzero)
                   = Ok (vopp (fst Ab_i), - snd Ab_i))
            /\ norm (fst Ab_i) = 1
            /\ (vx (fst Ab_i) <= 0 /\ vy (fst Ab_i) <= 0 /\ vz (fst Ab_i) <= 0)
            /\ snd Ab_i <= 0
            /\ Forall (fun p => dot (fst Ab_i) p <= snd Ab_i + 1 / 10 ^ 10) pts)
         Ab.
Proof.
  unfold ComputeInnerFacetsForBoxSphereIntersection.
  rewrite inner_facets_entry.
  destruct (forallb all_nonneg pts); cbn [bind]; [|discriminate].
  intros E. apply (inner_facets_loop pts [] Ab) in E; [|constructor].
  revert E. apply Forall_impl. intros [A_i b_i] H. exact H.
Qed.

Lemma ComputeInnerFacetsForBoxSphereIntersection_facets_example :
  Forall (fun Ab_i : Vector3d * R =>
            (exists i j k : nat,
                (i < j < k)%nat /\ (k < List.length unit_cube_pts)%nat
                /\ ComputeTriangleOutwardNormal (nth i unit_cube_pts vzero)
                     (nth j unit_cube_pts vzero) (nth k unit_cube_pts vzero)
                   = Ok (vopp (fst Ab_i), - snd Ab_i))
            /\ norm (fst Ab_i) = 1
            /\ (vx (fst Ab_i) <= 0 /\ vy (fst Ab_i) <= 0 /\ vz (fst Ab_i) <= 0)
            /\ snd Ab_i <= 0
            /\ Forall (fun p => dot (fst Ab_i) p <= snd Ab_i + 1 / 10 ^ 10)
                      unit_cube_pts)
         [(vopp unit_cube_normal, - (1 / sqrt 3))].
Proof.
  apply (ComputeInnerFacetsForBoxSphereIntersection_facets unit_cube_pts).
  exact unit_cube_facets.
Defined.

(** X5. [ComputeInnerFacetsForBoxSphereIntersection] is a fatal failure as
    soon as one point has a negative coordinate, before any triangle is
    looked at; on fewer than three points of the non-negative orthant it
    returns no facet. *)
Theorem ComputeInnerFacetsForBoxSphereIntersection_edge_cases
  (pts : list Vector3d) :
  (forallb all_nonneg pts = false ->
   ComputeInnerFacetsForBoxSphereIntersection pts = Abort)
  /\ (forallb all_nonneg pts = true -> (List.length pts < 3)%nat ->
      ComputeInnerFacetsForBoxSphereIntersection pts = Ok []).
Proof.
  unfold ComputeInnerFacetsForBoxSphereIntersection.
  rewrite inner_facets_entry. split.
  - intros ->. reflexivity.
  - intros -> L. cbn [bind].
    destruct pts as [|p0 [|p1 [|p2 rest]]]; cbn in L; try lia; reflexivity.
Qed.

(** ** ComputeBoxEdgesAndSphereIntersection: preconditions and completeness *)

Lemma sum_of_three_squares_nonneg (x y z : R) :
  0 <= x * x + (y * y + (z * z + 0)).
Proof. nra. Qed.


(** The four assertions at the head of the function are the
    preconditions. *)
Lemma box_asserts (bmin bmax : Vector3d) :
  (Rgeb (vx bmin) 0 && Rgeb (vy bmin) 0 && Rgeb (vz bmin) 0)
  && (Rgtb (vx bmax) (vx bmin) && Rgtb (vy bmax) (vy bmin)
      && Rgtb (vz bmax) (vz bmin))
  && Rleb (norm bmin) 1 && Rgeb (norm bmax) 1 = true
  <-> box_meets_sphere bmin bmax.
Proof.
  unfold box_meets_sphere.
  rewrite !andb_true_iff, !Rgeb_true, !Rgtb_true, !Rleb_true.
  split; intros H; repeat split; try lra; apply H.
Qed.

Lemma box_meets_sphere_dec (bmin bmax : Vector3d) :
  box_meets_sphere bmin bmax \/ ~ box_meets_sphere bmin bmax.
Proof.
  rewrite <- box_asserts.
  destruct ((Rgeb (vx bmin) 0 && Rgeb (vy bmin) 0 && Rgeb (vz bmin) 0)
            && (Rgtb (vx bmax) (vx bmin) && Rgtb (vy bmax) (vy bmin)
                && Rgtb (vz bmax) (vz bmin))
            && Rleb (norm bmin) 1 && Rgeb (norm bmax) 1);
    [left; reflexivity | right; discriminate].
Qed.

Lemma ComputeBoxEdgesAndSphereIntersection_outside (bmin bmax : Vector3d) :
  ~ box_meets_sphere bmin bmax ->
  ComputeBoxEdgesAndSphereIntersection bmin bmax = Abort.
Proof.
  intros H. rewrite <- box_asserts in H.
  unfold ComputeBoxEdgesAndSphereIntersection.
  destruct (Rgeb (vx bmin) 0 && Rgeb (vy bmin) 0 && Rgeb (vz bmin) 0);
    cbn [DRAKE_ASSERT bind]; [|reflexivity].
  destruct (Rgtb (vx bmax) (vx bmin) && Rgtb (vy bmax) (vy bmin)
            && Rgtb (vz bmax) (vz bmin));
    cbn [DRAKE_ASSERT bind]; [|reflexivity].
  destruct (Rleb (norm bmin) 1); cbn [DRAKE_ASSERT bind]; [|reflexivity].
  destruct (Rgeb (norm bmax) 1); cbn [DRAKE_ASSERT bind]; [|reflexivity].
  exfalso. apply H. reflexivity.
Qed.

(** Inside its preconditions the function is its two loops. *)
Lemma ComputeBoxEdgesAndSphereIntersection_inside (bmin bmax : Vector3d) :
  box_meets_sphere bmin bmax ->
  ComputeBoxEdgesAndSphereIntersection bmin bmax
  = if Reqb (norm bmin) 1 then Ok [bmin]
    else if Reqb (norm bmax) 1 then Ok [bmax]
    else
      foldM (fun acc axis =>
               foldM (fun acc val1 =>
                        foldM (fun acc val2 =>
                                 r <- edge_crossing bmin bmax axis val1 val2 ;;
                                 match r with
                                 | Some pt_intersect =>
                                     Ok (push_back acc pt_intersect)
                                 | None => Ok acc
                                 end)
                              [coef bmin ((axis + 2) mod 3);
                               coef bmax ((axis + 2) mod 3)] acc)
                     [coef bmin ((axis + 1) mod 3);
                      coef bmax ((axis + 1) mod 3)] acc)
            [0; 1; 2]%nat
            (fold_left (fun acc i =>
                          let vertex := box_vertex bmin bmax i in
                          if Reqb (norm vertex) 1
                          then push_back acc vertex else acc)
                       (range 8) []).
Proof.
  intros H. apply box_asserts in H.
  apply andb_true_iff in H as [H H4]. apply andb_true_iff in H as [H H3].
  apply andb_true_iff in H as [H1 H2].
  unfold ComputeBoxEdgesAndSphereIntersection.
  rewrite H1, H2, H3, H4. reflexivity.
Qed.

Lemma ComputeBoxEdgesAndSphereIntersection_returns (bmin bmax : Vector3d) :
  box_meets_sphere bmin bmax ->
  exists pts, ComputeBoxEdgesAndSphereIntersection bmin bmax = Ok pts.
Proof.
  intros HB. rewrite (ComputeBoxEdgesAndSphereIntersection_inside _ _ HB).
  destruct (Reqb (norm bmin) 1); [eexists; reflexivity|].
  destruct (Reqb (norm bmax) 1); [eexists; reflexivity|].
  match goal with
  | |- exists pts, foldM ?f ?l ?s0 = Ok pts =>
      destruct (foldM_invariant (fun _ => True) f l) with (s := s0)
        as (pts & E & _); [|exact I|exists pts; exact E]
  end.
  intros acc axis Haxis _.
  assert (Ha : (axis < 3)%nat) by (cbn in Haxis; lia).
  apply (foldM_invariant (fun _ => True)); [|exact I].
  intros acc1 val1 Hval1 _.
  apply (foldM_invariant (fun _ => True)); [|exact I].
  intros acc2 val2 Hval2 _.
  destruct (edge_crossing_in_box bmin bmax axis val1 val2 HB Ha)
    as (r & Er & _).
  { cbn in Hval1. intuition. }
  { cbn in Hval2. intuition. }
  rewrite Er. cbn [bind].
  destruct r; eexists; (split; [reflexivity | exact I]).
Qed.

(** X6. [ComputeBoxEdgesAndSphereIntersection] returns a list exactly on
    the boxes that satisfy its four assertions (a box of the non-negative
    orthant with [bmin < bmax] componentwise and [|bmin| <= 1 <= |bmax|]);
    on every other box it is a failed assertion.  It never throws and never
    reads out of range. *)
Theorem ComputeBoxEdgesAndSphereIntersection_returns_iff
  (bmin bmax : Vector3d) :
  ((exists pts, ComputeBoxEdgesAndSphereIntersection bmin bmax = Ok pts)
   <-> box_meets_sphere bmin bmax)
  /\ (ComputeBoxEdgesAndSphereIntersection bmin bmax = Abort
      <-> ~ box_meets_sphere bmin bmax).
Proof.
  destruct (box_meets_sphere_dec bmin bmax) as [H|H].
  - destruct (ComputeBoxEdgesAndSphereIntersection_returns bmin bmax H)
      as (pts & E).
    split; split; try (intros; assumption); try (intros; exists pts; exact E).
    + rewrite E. discriminate.
    + intros C. contradiction.
  - pose proof (ComputeBoxEdgesAndSphereIntersection_outside bmin bmax H) as E.
    split; split; try (intros; assumption).
    + intros (pts & E'). rewrite E in E'. discriminate.
    + intros C. contradiction.
Qed.

(** Loops that only push points keep the points they have. *)
Lemma foldM_incl {A B : Type} (f : list B -> A -> result (list B))
  (l : list A) :
  (forall acc a acc', In a l -> f acc a = Ok acc' -> incl acc acc') ->
  forall acc acc', foldM f l acc = Ok acc' -> incl acc acc'.
Proof.
  intros Hf acc acc' E.
  apply (foldM_preserves (incl acc) f l) with (s := acc);
    [|apply incl_refl|exact E].
  intros s a s' Ha Hs Es. eapply incl_tran; [exact Hs | apply (Hf s a s' Ha Es)].
Qed.

(** What one iteration pushes is in the result of the loop. *)
Lemma foldM_reaches {A B : Type} (f : list B -> A -> result (list B))
  (l : list A) (a : A) (p : B) :
  (forall acc a acc', In a l -> f acc a = Ok acc' -> incl acc acc') ->
  In a l ->
  (forall acc acc', f acc a = Ok acc' -> In p acc') ->
  forall acc acc', foldM f l acc = Ok acc' -> In p acc'.
Proof.
  intros Hf. induction l as [|b l IH]; intros Ha Hp acc acc' E; [contradiction|].
  cbn [foldM] in E. destruct (f acc b) as [acc1| | |] eqn:E1; try discriminate.
  cbn [bind] in E. destruct Ha as [->|Ha].
  - apply (foldM_incl f l (fun s x s' H => Hf s x s' (or_intror H)) _ _ E).
    apply (Hp acc acc1 E1).
  - apply (IH (fun s x s' H => Hf s x s' (or_intror H)) Ha Hp acc1 acc' E).
Qed.

Lemma vertex_loop_incl (bmin bmax : Vector3d) (l : list Z) (acc : list Vector3d) :
  incl acc (fold_left (fun acc i =>
                         let vertex := box_vertex bmin bmax i in
                         if Reqb (norm vertex) 1
                         then push_back acc vertex else acc) l acc).
Proof.
  revert acc. induction l as [|i l IH]; intros acc; [apply incl_refl|].
  cbn [fold_left]. eapply incl_tran; [|apply IH]. cbv zeta.
  destruct (Reqb _ 1); [apply incl_appl|]; apply incl_refl.
Qed.

Lemma vertex_loop_reaches (bmin bmax : Vector3d) (l : list Z) (i : Z)
  (acc : list Vector3d) :
  In i l -> norm (box_vertex bmin bmax i) = 1 ->
  In (box_vertex bmin bmax i)
     (fold_left (fun acc i =>
                   let vertex := box_vertex bmin bmax i in
                   if Reqb (norm vertex) 1
                   then push_back acc vertex else acc) l acc).
Proof.
  intros Hi Hn. revert acc. induction l as [|j l IH]; intros acc; [contradiction|].
  cbn [fold_left]. destruct Hi as [->|Hi]; [|apply IH, Hi].
  apply vertex_loop_incl. cbv zeta. rewrite Reqb_yes by exact Hn.
  apply in_or_app. right. left. reflexivity.
Qed.

Lemma vector3_eq (p q : Vector3d) :
  vx p = vx q -> vy p = vy q -> vz p = vz q -> p = q.
Proof. destruct p, q; cbn; intros; subst; reflexivity. Qed.

(** A point all of whose coordinates are coordinates of [bmin] or [bmax] is
    one of the eight vertices. *)
Lemma corner_is_vertex (bmin bmax p : Vector3d) :
  (vx p = vx bmin \/ vx p = vx bmax) ->
  (vy p = vy bmin \/ vy p = vy bmax) ->
  (vz p = vz bmin \/ vz p = vz bmax) ->
  exists i, In i (range 8) /\ box_vertex bmin bmax i = p.
Proof.
  intros [Hx|Hx] [Hy|Hy] [Hz|Hz];
    [exists 7%Z | exists 3%Z | exists 5%Z | exists 1%Z
    | exists 6%Z | exists 2%Z | exists 4%Z | exists 0%Z];
    (split; [apply range_In; lia|]);
    apply vector3_eq; unfold box_vertex; cbn [vx vy vz coef];
    eval_indices; cbn [negb]; congruence.
Qed.

(** In the non-negative orthant the norm grows with every coordinate. *)
Lemma same_norm_above (a p : Vector3d) :
  0 <= vx a <= vx p -> 0 <= vy a <= vy p -> 0 <= vz a <= vz p ->
  squaredNorm p = squaredNorm a -> p = a.
Proof.
  intros Hx Hy Hz E. unfold squaredNorm, dot in E.
  apply vector3_eq; nra.
Qed.

Lemma edge_loops_incl (bmin bmax : Vector3d) (axis : nat) (val1 : R)
  (acc acc' : list Vector3d) :
  foldM (fun acc val2 =>
           r <- edge_crossing bmin bmax axis val1 val2 ;;
           match r with
           | Some pt_intersect => Ok (push_back acc pt_intersect)
           | None => Ok acc
           end)
        [coef bmin ((axis + 2) mod 3); coef bmax ((axis + 2) mod 3)] acc
  = Ok acc' -> incl acc acc'.
Proof.
  apply foldM_incl. intros s val2 s' _.
  destruct (edge_crossing bmin bmax axis val1 val2) as [[q|]| | |];
    cbn [bind]; try discriminate; intros E; injection E as <-;
    [apply incl_appl|]; apply incl_refl.
Qed.

(** Every point of the unit sphere on an edge of the box is found. *)
Lemma box_edges_complete
  (bmin bmax : Vector3d) (pts : list Vector3d) (p : Vector3d) :
  ComputeBoxEdgesAndSphereIntersection bmin bmax = Ok pts ->
  on_box_edge bmin bmax p -> norm p = 1 ->
  In p pts.
Proof.
  intros E (axis & (Ha & H1 & H2) & H3) Hp.
  assert (HB : box_meets_sphere bmin bmax).
  { destruct (box_meets_sphere_dec bmin bmax) as [H|H];
      [exact H|].
    rewrite (ComputeBoxEdgesAndSphereIntersection_outside _ _ H) in E.
    discriminate. }
  rewrite (ComputeBoxEdgesAndSphereIntersection_inside _ _ HB) in E.
  pose proof HB as ((Bx & By & Bz) & (Mx & My & Mz) & (N1 & N2)).
  apply norm_eq_1 in Hp.
  (* every coordinate of p is between those of bmin and bmax *)
  assert (Hbox : in_box bmin bmax p).
  { cbn [In] in H1, H2. unfold in_box.
    destruct axis as [|[|[|axis]]]; try lia;
      cbn [coef Nat.modulo Nat.divmod Init.Nat.add Init.Nat.sub fst snd] in *;
      intuition lra. }
  destruct Hbox as (Px & Py & Pz).
  destruct (Reqb (norm bmin) 1) eqn:E1.
  { injection E as <-. left. symmetry.
    apply Reqb_true, norm_eq_1 in E1.
    apply same_norm_above; try lra. }
  destruct (Reqb (norm bmax) 1) eqn:E2.
  { injection E as <-. left.
    apply Reqb_true, norm_eq_1 in E2.
    apply same_norm_above; try lra. }
  apply Reqb_false in E1, E2.
  assert (S1 : squaredNorm bmin < 1).
  { apply norm_lt_1. lra. }
  assert (S2 : 1 < squaredNorm bmax).
  { apply norm_gt_1. lra. }
  destruct (Req_dec_T (coef p axis) (coef bmin axis)) as [Tmin|Tmin];
    [|destruct (Req_dec_T (coef p axis) (coef bmax axis)) as [Tmax|Tmax]].
  1, 2: (* p is a vertex *)
    destruct (corner_is_vertex bmin bmax p) as (i & Hi & <-);
    [ cbn [In] in H1, H2;
      destruct axis as [|[|[|axis]]]; try lia;
      cbn [coef Nat.modulo Nat.divmod Init.Nat.add Init.Nat.sub fst snd] in *;
      intuition lra ..
    | revert E;
      match goal with
      | |- foldM ?f ?l ?s0 = Ok ?r0 -> _ =>
          intros E; apply (foldM_incl f l) with (acc := s0) (acc' := r0);
          [ intros acc a acc' _; apply foldM_incl;
            intros acc0 val1 acc0' _; apply edge_loops_incl
          | exact E
          | apply vertex_loop_reaches;
            [exact Hi | apply norm_eq_1; exact Hp] ]
      end ].
  (* p is inside an edge *)
  assert (Hin1 : In (coef p ((axis + 1) mod 3))
                    [coef bmin ((axis + 1) mod 3); coef bmax ((axis + 1) mod 3)])
    by exact H1.
  assert (Hin2 : In (coef p ((axis + 2) mod 3))
                    [coef bmin ((axis + 2) mod 3); coef bmax ((axis + 2) mod 3)])
    by exact H2.
  destruct (edge_crossing_spec bmin bmax axis (coef p ((axis + 1) mod 3))
              (coef p ((axis + 2) mod 3)) Ha) as (r & Er & Hr).
  assert (Hsome : r = Some p).
  { apply Hr. unfold edge_end_points.
    rewrite norm_lt_1, norm_gt_1.
    unfold squaredNorm, dot in *.
    destruct axis as [|[|[|axis]]]; try lia;
      cbn [coef set_coef vx vy vz vzero fst snd Nat.modulo Nat.divmod
           Init.Nat.add Init.Nat.sub] in *;
      (split; [nra|]); (split; [nra|]);
      (split; [reflexivity|]); (split; [reflexivity|]);
      symmetry; apply sqrt_lem_1; nra. }
  subst r. revert E.
  match goal with
  | |- foldM ?f ?l ?s0 = Ok ?r0 -> _ =>
      apply (foldM_reaches f l axis p)
  end.
  - intros acc a acc' _. apply foldM_incl.
    intros acc0 val1 acc0' _. apply edge_loops_incl.
  - cbn. lia.
  - intros acc acc'.
    match goal with
    | |- foldM ?f ?l _ = Ok _ -> _ =>
        apply (foldM_reaches f l (coef p ((axis + 1) mod 3)) p)
    end.
    + intros acc0 val1 acc0' _. apply edge_loops_incl.
    + exact Hin1.
    + intros acc0 acc0'.
      match goal with
      | |- foldM ?f ?l _ = Ok _ -> _ =>
          apply (foldM_reaches f l (coef p ((axis + 2) mod 3)) p)
      end.
      * intros s val2 s' _.
        destruct (edge_crossing bmin bmax axis _ val2) as [[q|]| | |];
          cbn [bind]; try discriminate; intros E; injection E as <-;
          [apply incl_appl|]; apply incl_refl.
      * exact Hin2.
      * intros s s'. rewrite Er. cbn [bind]. intros E. injection E as <-.
        apply in_or_app. right. left. reflexivity.
Qed.

(** X7. [ComputeBoxEdgesAndSphereIntersection] misses no intersection
    point: every point of the unit sphere that lies on an edge of the box is
    in the list it returns. *)
Theorem ComputeBoxEdgesAndSphereIntersection_complete
  (bmin bmax : Vector3d) (pts : list Vector3d) (p : Vector3d) :
  ComputeBoxEdgesAndSphereIntersection bmin bmax = Ok pts ->
  on_box_edge bmin bmax p -> norm p = 1 ->
  In p pts.
Proof.
  exact (box_edges_complete bmin bmax pts p).
Qed.

Lemma ComputeBoxEdgesAndSphereIntersection_complete_example :
  In (vec3 1 0 0) unit_cube_pts.
Proof.
  apply (ComputeBoxEdgesAndSphereIntersection_complete unit_cube_min
           unit_cube_max unit_cube_pts (vec3 1 0 0)).
  - exact unit_cube_intersection.
  - exists 0%nat. unfold is_box_edge, unit_cube_min, unit_cube_max.
    cbn [coef vx vy vz Nat.modulo Nat.divmod Init.Nat.add Init.Nat.sub fst snd
         In].
    repeat split; try lia; try lra; left; reflexivity.
  - apply norm_eq_1. unfold squaredNorm, dot. cbn [vx vy vz]. lra.
Defined.

(** ** A box cut by the sphere has three intersection points *)

(** Along an edge that starts inside the sphere and ends on or outside it,
    the intercept is on the edge. *)
Lemma segment_meets_sphere (a b lo hi : R) :
  0 <= lo -> lo <= hi ->
  lo * lo + a * a + b * b < 1 -> 1 <= hi * hi + a * a + b * b ->
  let t := sqrt (1 - a * a - b * b) in
  lo < t <= hi /\ t * t + a * a + b * b = 1
  /\ (1 < hi * hi + a * a + b * b -> t < hi).
Proof.
  intros Hlo Hhi H1 H2 t.
  assert (Hpos : 0 <= 1 - a * a - b * b) by nra.
  pose proof (sqrt_sqrt _ Hpos) as Ht. pose proof (sqrt_pos (1 - a * a - b * b)) as Ht0.
  fold t in Ht, Ht0.
  repeat split; try nra.
Qed.

Lemma three_distinct_members {A : Type} (l : list A) (a b c : A) :
  In a l -> In b l -> In c l -> a <> b -> a <> c -> b <> c ->
  (3 <= List.length l)%nat.
Proof.
  intros Ha Hb Hc Nab Nac Nbc.
  change 3%nat with (List.length [a; b; c]).
  apply NoDup_incl_length.
  - constructor; [cbn; intuition congruence|].
    constructor; [cbn; intuition congruence|].
    constructor; [cbn; tauto | constructor].
  - intros x [<-|[<-|[<-|[]]]]; assumption.
Qed.

Lemma norm_one_of_square (p : Vector3d) :
  vx p * vx p + vy p * vy p + vz p * vz p = 1 -> norm p = 1.
Proof. intros H. apply norm_eq_1. exact H. Qed.

(** A point of the sphere on the path of edges from [bmin] to [bmax] that
    moves along the axes [0], [1], [2] in this order. *)
Lemma path_x_y_z (bmin bmax : Vector3d) :
  box_meets_sphere bmin bmax -> norm bmin < 1 -> 1 < norm bmax ->
  exists p : Vector3d,
    on_box_edge bmin bmax p /\ norm p = 1
    /\ ((vy p = vy bmin /\ vz p = vz bmin /\ vx bmin < vx p)
        \/ (vx p = vx bmax /\ vz p = vz bmin)
        \/ (vx p = vx bmax /\ vy p = vy bmax /\ vz p < vz bmax)).
Proof.
  intros ((Bx & By & Bz) & (Mx & My & Mz) & _) N1 N2.
  apply norm_lt_1 in N1. apply norm_gt_1 in N2.
  unfold squaredNorm, dot in N1, N2.
  destruct bmin as [x y z], bmax as [X Y Z]. cbn [vx vy vz] in *.
  destruct (Rle_lt_dec 1 (X * X + y * y + z * z)) as [C1|C1].
  { destruct (segment_meets_sphere y z x X) as (T1 & T2 & _); try lra.
    exists (vec3 (sqrt (1 - y * y - z * z)) y z). split; [|split].
    - exists 0%nat. unfold is_box_edge.
      cbn [coef vx vy vz Nat.modulo Nat.divmod Init.Nat.add Init.Nat.sub fst
           snd In].
      repeat split; try lia; try lra;
        first [left; reflexivity | right; left; reflexivity].
    - apply norm_one_of_square. cbn [vx vy vz]. lra.
    - left. cbn [vx vy vz]. repeat split; lra. }
  destruct (Rle_lt_dec 1 (X * X + Y * Y + z * z)) as [C2|C2].
  { destruct (segment_meets_sphere z X y Y) as (T1 & T2 & _); try lra.
    exists (vec3 X (sqrt (1 - z * z - X * X)) z). split; [|split].
    - exists 1%nat. unfold is_box_edge.
      cbn [coef vx vy vz Nat.modulo Nat.divmod Init.Nat.add Init.Nat.sub fst
           snd In].
      repeat split; try lia; try lra;
        first [left; reflexivity | right; left; reflexivity].
    - apply norm_one_of_square. cbn [vx vy vz]. lra.
    - right; left. cbn [vx vy vz]. split; reflexivity. }
  destruct (segment_meets_sphere X Y z Z) as (T1 & T2 & T3); try lra.
  exists (vec3 X Y (sqrt (1 - X * X - Y * Y))). split; [|split].
  - exists 2%nat. unfold is_box_edge.
    cbn [coef vx vy vz Nat.modulo Nat.divmod Init.Nat.add Init.Nat.sub fst
         snd In].
    repeat split; try lia; try lra;
        first [left; reflexivity | right; left; reflexivity].
  - apply norm_one_of_square. cbn [vx vy vz]. lra.
  - right; right. cbn [vx vy vz]. repeat split; lra.
Qed.

(** The same along the axes [1], [2], [0]. *)
Lemma path_y_z_x (bmin bmax : Vector3d) :
  box_meets_sphere bmin bmax -> norm bmin < 1 -> 1 < norm bmax ->
  exists p : Vector3d,
    on_box_edge bmin bmax p /\ norm p = 1
    /\ ((vz p = vz bmin /\ vx p = vx bmin /\ vy bmin < vy p)
        \/ (vy p = vy bmax /\ vx p = vx bmin)
        \/ (vy p = vy bmax /\ vz p = vz bmax /\ vx p < vx bmax)).
Proof.
  intros ((Bx & By & Bz) & (Mx & My & Mz) & _) N1 N2.
  apply norm_lt_1 in N1. apply norm_gt_1 in N2.
  unfold squaredNorm, dot in N1, N2.
  destruct bmin as [x y z], bmax as [X Y Z]. cbn [vx vy vz] in *.
  destruct (Rle_lt_dec 1 (x * x + Y * Y + z * z)) as [C1|C1].
  { destruct (segment_meets_sphere z x y Y) as (T1 & T2 & _); try lra.
    exists (vec3 x (sqrt (1 - z * z - x * x)) z). split; [|split].
    - exists 1%nat. unfold is_box_edge.
      cbn [coef vx vy vz Nat.modulo Nat.divmod Init.Nat.add Init.Nat.sub fst
           snd In].
      repeat split; try lia; try lra;
        first [left; reflexivity | right; left; reflexivity].
    - apply norm_one_of_square. cbn [vx vy vz]. lra.
    - left. cbn [vx vy vz]. repeat split; lra. }
  destruct (Rle_lt_dec 1 (x * x + Y * Y + Z * Z)) as [C2|C2].
  { destruct (segment_meets_sphere x Y z Z) as (T1 & T2 & _); try lra.
    exists (vec3 x Y (sqrt (1 - x * x - Y * Y))). split; [|split].
    - exists 2%nat. unfold is_box_edge.
      cbn [coef vx vy vz Nat.modulo Nat.divmod Init.Nat.add Init.Nat.sub fst
           snd In].
      repeat split; try lia; try lra;
        first [left; reflexivity | right; left; reflexivity].
    - apply norm_one_of_square. cbn [vx vy vz]. lra.
    - right; left. cbn [vx vy vz]. split; reflexivity. }
  destruct (segment_meets_sphere Y Z x X) as (T1 & T2 & T3); try lra.
  exists (vec3 (sqrt (1 - Y * Y - Z * Z)) Y Z). split; [|split].
  - exists 0%nat. unfold is_box_edge.
    cbn [coef vx vy vz Nat.modulo Nat.divmod Init.Nat.add Init.Nat.sub fst
         snd In].
    repeat split; try lia; try lra;
        first [left; reflexivity | right; left; reflexivity].
  - apply norm_one_of_square. cbn [vx vy vz]. lra.
  - right; right. cbn [vx vy vz]. repeat split; lra.
Qed.

(** The same along the axes [2], [0], [1]. *)
Lemma path_z_x_y (bmin bmax : Vector3d) :
  box_meets_sphere bmin bmax -> norm bmin < 1 -> 1 < norm bmax ->
  exists p : Vector3d,
    on_box_edge bmin bmax p /\ norm p = 1
    /\ ((vx p = vx bmin /\ vy p = vy bmin /\ vz bmin < vz p)
        \/ (vz p = vz bmax /\ vy p = vy bmin)
        \/ (vz p = vz bmax /\ vx p = vx bmax /\ vy p < vy bmax)).
Proof.
  intros ((Bx & By & Bz) & (Mx & My & Mz) & _) N1 N2.
  apply norm_lt_1 in N1. apply norm_gt_1 in N2.
  unfold squaredNorm, dot in N1, N2.
  destruct bmin as [x y z], bmax as [X Y Z]. cbn [vx vy vz] in *.
  destruct (Rle_lt_dec 1 (x * x + y * y + Z * Z)) as [C1|C1].
  { destruct (segment_meets_sphere x y z Z) as (T1 & T2 & _); try lra.
    exists (vec3 x y (sqrt (1 - x * x - y * y))). split; [|split].
    - exists 2%nat. unfold is_box_edge.
      cbn [coef vx vy vz Nat.modulo Nat.divmod Init.Nat.add Init.Nat.sub fst
           snd In].
      repeat split; try lia; try lra;
        first [left; reflexivity | right; left; reflexivity].
    - apply norm_one_of_square. cbn [vx vy vz]. lra.
    - left. cbn [vx vy vz]. repeat split; lra. }
  destruct (Rle_lt_dec 1 (X * X + y * y + Z * Z)) as [C2|C2].
  { destruct (segment_meets_sphere y Z x X) as (T1 & T2 & _); try lra.
    exists (vec3 (sqrt (1 - y * y - Z * Z)) y Z). split; [|split].
    - exists 0%nat. unfold is_box_edge.
      cbn [coef vx vy vz Nat.modulo Nat.divmod Init.Nat.add Init.Nat.sub fst
           snd In].
      repeat split; try lia; try lra;
        first [left; reflexivity | right; left; reflexivity].
    - apply norm_one_of_square. cbn [vx vy vz]. lra.
    - right; left. cbn [vx vy vz]. split; reflexivity. }
  destruct (segment_meets_sphere Z X y Y) as (T1 & T2 & T3); try lra.
  exists (vec3 X (sqrt (1 - Z * Z - X * X)) Z). split; [|split].
  - exists 1%nat. unfold is_box_edge.
    cbn [coef vx vy vz Nat.modulo Nat.divmod Init.Nat.add Init.Nat.sub fst
         snd In].
    repeat split; try lia; try lra;
        first [left; reflexivity | right; left; reflexivity].
  - apply norm_one_of_square. cbn [vx vy vz]. lra.
  - right; right. cbn [vx vy vz]. repeat split; lra.
Qed.

(** X8. When the sphere cuts the box strictly ([|bmin| < 1 < |bmax|], the
    box of a grid cell in state C), [ComputeBoxEdgesAndSphereIntersection]
    returns at least three points: the check [pts.size() >= 3] the emitter
    and the half-space relaxation make on its result cannot fail. *)
Theorem ComputeBoxEdgesAndSphereIntersection_at_least_three_points
  (bmin bmax : Vector3d) :
  box_meets_sphere bmin bmax -> norm bmin < 1 -> 1 < norm bmax ->
  exists pts : list Vector3d,
    ComputeBoxEdgesAndSphereIntersection bmin bmax = Ok pts
    /\ (3 <= List.length pts)%nat.
Proof.
  intros HB N1 N2.
  destruct (ComputeBoxEdgesAndSphereIntersection_returns bmin bmax HB)
    as (pts & E).
  exists pts. split; [exact E|].
  destruct (path_x_y_z bmin bmax HB N1 N2) as (pa & Ea & Na & Sa).
  destruct (path_y_z_x bmin bmax HB N1 N2) as (pb & Eb & Nb & Sb).
  destruct (path_z_x_y bmin bmax HB N1 N2) as (pc & Ec & Nc & Sc).
  destruct HB as (_ & (Mx & My & Mz) & _).
  apply (three_distinct_members pts pa pb pc).
  - apply (box_edges_complete bmin bmax pts pa E Ea Na).
  - apply (box_edges_complete bmin bmax pts pb E Eb Nb).
  - apply (box_edges_complete bmin bmax pts pc E Ec Nc).
  - intros <-. intuition lra.
  - intros <-. intuition lra.
  - intros <-. intuition lra.
Qed.

Lemma ComputeBoxEdgesAndSphereIntersection_at_least_three_points_example :
  exists pts : list Vector3d,
    ComputeBoxEdgesAndSphereIntersection unit_cube_min unit_cube_max = Ok pts
    /\ (3 <= List.length pts)%nat.
Proof.
  destruct unit_cube_norms as [E0 E1]. pose proof sqrt_3_gt_1 as S3.
  apply (ComputeBoxEdgesAndSphereIntersection_at_least_three_points
           unit_cube_min unit_cube_max).
  - exact unit_cube_meets_sphere.
  - rewrite E0. lra.
  - rewrite E1. exact S3.
Defined.

(** ** Programs that only grow *)

Lemma only_adds_refl (p : MathematicalProgram) : only_adds p p [].
Proof. unfold only_adds. rewrite app_nil_r. repeat split. Qed.

Lemma only_adds_trans (p q r : MathematicalProgram) (cs cs' : list Constraint) :
  only_adds p q cs -> only_adds q r cs' -> only_adds p r (cs ++ cs').
Proof.
  intros (V1 & L1 & C1) (V2 & L2 & C2). unfold only_adds.
  rewrite V2, V1, L2, L1, C2, C1, app_assoc. repeat split.
Qed.

Lemma only_adds_add (p : MathematicalProgram) (c : Constraint) :
  only_adds p (add_constraint p c) [c].
Proof. repeat split. Qed.

Lemma only_adds_cons (p r : MathematicalProgram) (c : Constraint)
  (cs : list Constraint) :
  only_adds (add_constraint p c) r cs -> only_adds p r (c :: cs).
Proof.
  intros H. apply (only_adds_trans p _ r [c] cs (only_adds_add p c) H).
Qed.

(** A bounding box on one variable, under a condition. *)
Lemma only_adds_box_if (p : MathematicalProgram) (c : bool) (lb ub : R)
  (x : DecisionVariable) :
  only_adds p (if c then AddBoundingBoxConstraint p lb ub [x] else p)
    (if c then [BoundingBoxConstraint lb ub [x]] else []).
Proof.
  destruct c; [apply only_adds_add | apply only_adds_refl].
Qed.

(** ** Roll, pitch and yaw limits *)

Lemma within_limits_signs (limits : Z) (r p y : R) :
  within_limits limits r p y ->
  (has_limit limits kRoll_NegPI_2_to_PI_2 = true -> 0 <= cos r)
  /\ (has_limit limits kRoll_0_to_PI = true -> 0 <= sin r)
  /\ (has_limit limits kPitch_NegPI_2_to_PI_2 = true -> 0 <= cos p)
  /\ (has_limit limits kPitch_0_to_PI = true -> 0 <= sin p)
  /\ (has_limit limits kYaw_NegPI_2_to_PI_2 = true -> 0 <= cos y)
  /\ (has_limit limits kYaw_0_to_PI = true -> 0 <= sin y).
Proof.
  intros (H1 & H2 & H3 & H4 & H5 & H6).
  repeat split; intros E;
    try (apply cos_ge_0; [apply (H1 E) || apply (H3 E) || apply (H5 E)
                         |apply (H1 E) || apply (H3 E) || apply (H5 E)]);
    try (apply sin_ge_0; [apply (H2 E) || apply (H4 E) || apply (H6 E)
                         |apply (H2 E) || apply (H4 E) || apply (H6 E)]).
Qed.

Lemma sin_cos_one (x : R) : sin x * sin x + cos x * cos x = 1.
Proof. pose proof (sin2_cos2 x) as H. unfold Rsqr in H. exact H. Qed.

(** A bound on one entry holds under an assignment. *)
Lemma box_if_holds (env : Environment) (c : bool) (lb ub : R)
  (x : DecisionVariable) :
  (c = true -> lb <= env x <= ub) ->
  Forall (Satisfies env) (if c then [BoundingBoxConstraint lb ub [x]] else []).
Proof.
  intros H. destruct c; [|constructor].
  constructor; [|constructor]. cbn [Satisfies].
  constructor; [|constructor]. apply H. reflexivity.
Qed.

(** X9. The bounds [AddBoundingBoxConstraintsImpliedByRollPitchYawLimits]
    puts on the entries of [R] exclude no rotation within the limits: for
    angles inside the half ranges named by the mask, the entries of the
    roll-pitch-yaw rotation matrix satisfy every bound the function adds.
    The function only adds constraints. *)
Theorem AddBoundingBoxConstraintsImpliedByRollPitchYawLimits_sound
  (prog : MathematicalProgram) (Rv : Matrix3 DecisionVariable) (limits : Z)
  (r p y : R) (env : Environment) :
  within_limits limits r p y ->
  assigns env Rv (rpy_matrix r p y) ->
  exists cs : list Constraint,
    only_adds prog
      (AddBoundingBoxConstraintsImpliedByRollPitchYawLimits prog Rv limits) cs
    /\ Forall (Satisfies env) cs.
Proof.
  intros Hlim Hval.
  destruct (within_limits_signs limits r p y Hlim)
    as (Cr & Sr & Cp & Sp & Cy & Sy).
  pose proof (sin_cos_one r) as Er. pose proof (sin_cos_one p) as Ep.
  pose proof (sin_cos_one y) as Ey.
  pose proof (COS_bound r) as Br. pose proof (SIN_bound r) as Br'.
  pose proof (COS_bound p) as Bp. pose proof (SIN_bound p) as Bp'.
  pose proof (COS_bound y) as By. pose proof (SIN_bound y) as By'.
  assert (V : forall i j, (i < 3)%nat -> (j < 3)%nat ->
                env (mcoef Rv i j) = mcoef (rpy_matrix r p y) i j)
    by exact Hval.
  eexists. split.
  { unfold AddBoundingBoxConstraintsImpliedByRollPitchYawLimits. cbv zeta.
    do 7 (eapply only_adds_trans; [|apply only_adds_box_if]).
    apply only_adds_refl. }
  set (cr := cos r) in *. set (sr := sin r) in *.
  set (cp := cos p) in *. set (sp := sin p) in *.
  set (cy := cos y) in *. set (sy := sin y) in *.
  repeat (apply Forall_app; split); [constructor|..];
    apply box_if_holds; rewrite V by lia;
    unfold rpy_matrix, mcoef, col; cbn [coef vx vy vz];
    fold cr sr cp sp cy sy;
    rewrite ?andb_true_iff; intros C.
  - destruct C as [C1 C2]. specialize (Cp C1). specialize (Cy C2).
    split; nra.
  - destruct C as [C1 C2]. specialize (Cp C1). specialize (Sy C2).
    split; nra.
  - specialize (Sp C). lra.
  - destruct C as [[[[C1 C2] C3] C4] C5].
    specialize (Cr C1). specialize (Cy C2). specialize (Sp C3).
    specialize (Sr C4). specialize (Sy C5).
    assert (0 <= sr * sy) by nra. assert (0 <= cr * cy) by nra.
    split; [nra|].
    assert (sp * sr * sy <= sr * sy) by nra.
    assert (cr * cy + sr * sy <= 1)
      by (pose proof (Rle_0_sqr (cr - cy)); pose proof (Rle_0_sqr (sr - sy));
          unfold Rsqr in *; nra).
    lra.
  - destruct C as [C1 C2]. specialize (Cp C1). specialize (Sr C2).
    split; nra.
  - destruct C as [[[[C1 C2] C3] C4] C5].
    specialize (Sr C1). specialize (Sy C2). specialize (Cr C3).
    specialize (Cy C4). specialize (Sp C5).
    assert (0 <= sr * sy) by nra. assert (0 <= cr * cy) by nra.
    split; [nra|].
    assert (cr * cy * sp <= cr * cy) by nra.
    assert (cr * cy + sr * sy <= 1)
      by (pose proof (Rle_0_sqr (cr - cy)); pose proof (Rle_0_sqr (sr - sy));
          unfold Rsqr in *; nra).
    lra.
  - destruct C as [C1 C2]. specialize (Cp C1). specialize (Cr C2).
    split; nra.
Qed.

Lemma AddBoundingBoxConstraintsImpliedByRollPitchYawLimits_sound_example :
  exists cs : list Constraint,
    only_adds empty_program
      (AddBoundingBoxConstraintsImpliedByRollPitchYawLimits empty_program
         R_example all_limits) cs
    /\ Forall (Satisfies env_rpy_zero) cs.
Proof.
  apply (AddBoundingBoxConstraintsImpliedByRollPitchYawLimits_sound
           empty_program R_example all_limits 0 0 0 env_rpy_zero).
  - pose proof PI_RGT_0 as HPI.
    unfold within_limits. repeat split; lra.
  - intros i j Hi Hj.
    destruct i as [|[|[|i]]]; try lia; destruct j as [|[|[|j]]]; try lia;
      reflexivity.
Defined.

(** X10. The bounds of the two functions on the angle limits go together:
    under the same mask, [AddBoundingBoxConstraintsImpliedByRollPitchYawLimitsToBinary]
    fixes [B(i,j)] for exactly the entries the continuous version bounds,
    and when [B(i,j) = 1] means [R(i,j) >= 0] and [B(i,j) = 0] means
    [R(i,j) <= 0], on entries within [-1, 1], an assignment that satisfies
    the bounds on [B] satisfies the bounds on [R]. *)
Theorem AddBoundingBoxConstraintsImpliedByRollPitchYawLimitsToBinary_implies
  (prog prog_b : MathematicalProgram) (Rv B : Matrix3 DecisionVariable)
  (limits : Z) (env : Environment) :
  (forall i j, (i < 3)%nat -> (j < 3)%nat ->
     -1 <= env (mcoef Rv i j) <= 1
     /\ (env (mcoef B i j) = 1 -> 0 <= env (mcoef Rv i j))
     /\ (env (mcoef B i j) = 0 -> env (mcoef Rv i j) <= 0)) ->
  exists cs_b cs_r : list Constraint,
    only_adds prog_b
      (AddBoundingBoxConstraintsImpliedByRollPitchYawLimitsToBinary prog_b B
         limits) cs_b
    /\ only_adds prog
         (AddBoundingBoxConstraintsImpliedByRollPitchYawLimits prog Rv limits)
         cs_r
    /\ List.length cs_b = List.length cs_r
    /\ (Forall (Satisfies env) cs_b -> Forall (Satisfies env) cs_r).
Proof.
  intros Hsign.
  assert (Hone : forall (c : bool) i j, (i < 3)%nat -> (j < 3)%nat ->
            Forall (Satisfies env)
              (if c then [BoundingBoxConstraint 1 1 [mcoef B i j]] else []) ->
            Forall (Satisfies env)
              (if c then [BoundingBoxConstraint 0 1 [mcoef Rv i j]] else [])).
  { intros c i j Hi Hj H. destruct c; [|constructor].
    inversion H as [|? ? H1 _]; subst. cbn [Satisfies] in H1.
    inversion H1 as [|? ? H2 _]; subst.
    destruct (Hsign i j Hi Hj) as (Hb & Hp & _).
    constructor; [|constructor]. cbn [Satisfies].
    constructor; [|constructor]. split; [apply Hp; lra | lra]. }
  assert (Hzero : forall (c : bool) i j, (i < 3)%nat -> (j < 3)%nat ->
            Forall (Satisfies env)
              (if c then [BoundingBoxConstraint 0 0 [mcoef B i j]] else []) ->
            Forall (Satisfies env)
              (if c then [BoundingBoxConstraint (-1) 0 [mcoef Rv i j]] else [])).
  { intros c i j Hi Hj H. destruct c; [|constructor].
    inversion H as [|? ? H1 _]; subst. cbn [Satisfies] in H1.
    inversion H1 as [|? ? H2 _]; subst.
    destruct (Hsign i j Hi Hj) as (Hb & _ & Hn).
    constructor; [|constructor]. cbn [Satisfies].
    constructor; [|constructor]. split; [lra | apply Hn; lra]. }
  eexists. eexists. split; [|split; [|split]].
  - unfold AddBoundingBoxConstraintsImpliedByRollPitchYawLimitsToBinary.
    cbv zeta.
    do 7 (eapply only_adds_trans; [|apply only_adds_box_if]).
    apply only_adds_refl.
  - unfold AddBoundingBoxConstraintsImpliedByRollPitchYawLimits. cbv zeta.
    do 7 (eapply only_adds_trans; [|apply only_adds_box_if]).
    apply only_adds_refl.
  - rewrite !length_app.
    repeat match goal with
           | |- context [if ?c then _ else _] => destruct c
           end; reflexivity.
  - intros H.
    apply Forall_app in H as [H H7]. apply Forall_app in H as [H H6].
    apply Forall_app in H as [H H5]. apply Forall_app in H as [H H4].
    apply Forall_app in H as [H H3]. apply Forall_app in H as [H H2].
    apply Forall_app in H as [_ H1].
    apply Forall_app; split; [|apply Hone; [lia | lia | exact H7]].
    apply Forall_app; split; [|apply Hone; [lia | lia | exact H6]].
    apply Forall_app; split; [|apply Hone; [lia | lia | exact H5]].
    apply Forall_app; split; [|apply Hone; [lia | lia | exact H4]].
    apply Forall_app; split; [|apply Hzero; [lia | lia | exact H3]].
    apply Forall_app; split; [|apply Hone; [lia | lia | exact H2]].
    apply Forall_app; split; [constructor|apply Hone; [lia | lia | exact H1]].
Qed.

Lemma AddBoundingBoxConstraintsImpliedByRollPitchYawLimitsToBinary_implies_example :
  exists cs_b cs_r : list Constraint,
    only_adds empty_program
      (AddBoundingBoxConstraintsImpliedByRollPitchYawLimitsToBinary
         empty_program B_example cosine_limits) cs_b
    /\ only_adds empty_program
         (AddBoundingBoxConstraintsImpliedByRollPitchYawLimits empty_program
            R_example cosine_limits) cs_r
    /\ List.length cs_b = List.length cs_r
    /\ (Forall (Satisfies env_rpy_zero) cs_b ->
        Forall (Satisfies env_rpy_zero) cs_r).
Proof.
  apply (AddBoundingBoxConstraintsImpliedByRollPitchYawLimitsToBinary_implies
           empty_program empty_program R_example B_example cosine_limits
           env_rpy_zero).
  intros i j Hi Hj.
  destruct i as [|[|[|i]]]; try lia; destruct j as [|[|[|j]]]; try lia;
    unfold env_rpy_zero, R_example, B_example, rpy_matrix, mcoef, col;
    cbn [coef vx vy vz get_id Nat.modulo Nat.div Nat.divmod Nat.mul Nat.add
         fst snd Nat.sub];
    rewrite ?cos_0, ?sin_0; repeat split; intros; lra.
Defined.

(** ** AddOrthogonalConstraint *)

Lemma sqrt_le_sqrt_2 (s : R) : 0 <= s -> (sqrt s <= sqrt 2 <-> s <= 2).
Proof.
  intros Hs. split.
  - intros H. apply sqrt_le_0; [exact Hs | lra | exact H].
  - intros H. apply sqrt_le_1; [exact Hs | lra | exact H].
Qed.

(** X11. [AddOrthogonalConstraint] adds two Lorentz cones and nothing else;
    they hold exactly when [|v1 + v2|^2 <= 2] and [|v1 - v2|^2 <= 2].  For
    two vectors of unit length this is [v1 . v2 = 0] (the relaxation is
    tight), and two orthogonal vectors no longer than 1 always satisfy
    them. *)
Theorem AddOrthogonalConstraint_meaning
  (prog : MathematicalProgram) (v1 v2 : Vector3 DecisionVariable)
  (env : Environment) :
  let a := values env v1 in
  let b := values env v2 in
  exists c_sum c_diff : Constraint,
    only_adds prog (AddOrthogonalConstraint prog v1 v2) [c_sum; c_diff]
    /\ (Satisfies env c_sum
        <-> squaredNorm a + 2 * dot a b + squaredNorm b <= 2)
    /\ (Satisfies env c_diff
        <-> squaredNorm a - 2 * dot a b + squaredNorm b <= 2)
    /\ (squaredNorm a = 1 /\ squaredNorm b = 1 ->
        (Satisfies env c_sum /\ Satisfies env c_diff <-> dot a b = 0))
    /\ (squaredNorm a <= 1 /\ squaredNorm b <= 1 /\ dot a b = 0 ->
        Satisfies env c_sum /\ Satisfies env c_diff).
Proof.
  intros a b.
  assert (Hs : Satisfies env
                 (LorentzConeConstraint
                    (EConst (sqrt 2) :: vlist (vars_add v1 v2)))
               <-> squaredNorm a + 2 * dot a b + squaredNorm b <= 2).
  { cbn [Satisfies vlist vars_add vx vy vz fold_right Evaluate].
    rewrite sqrt_le_sqrt_2 by apply sum_of_three_squares_nonneg.
    subst a b. unfold values, squaredNorm, dot, vmap. cbn [vx vy vz].
    split; intros H; nra. }
  assert (Hd : Satisfies env
                 (LorentzConeConstraint
                    (EConst (sqrt 2) :: vlist (vars_sub v1 v2)))
               <-> squaredNorm a - 2 * dot a b + squaredNorm b <= 2).
  { cbn [Satisfies vlist vars_sub vx vy vz fold_right Evaluate].
    rewrite sqrt_le_sqrt_2 by apply sum_of_three_squares_nonneg.
    subst a b. unfold values, squaredNorm, dot, vmap. cbn [vx vy vz].
    split; intros H; nra. }
  eexists _, _. split; [|split; [exact Hs|split; [exact Hd|split]]].
  - unfold AddOrthogonalConstraint, AddLorentzConeConstraint. cbv zeta.
    cbn [firstn app].
    unfold add_constraint, only_adds. cbn [decision_variables linear_costs constraints].
    rewrite <- app_assoc. repeat split.
  - intros [Ea Eb]. rewrite Hs, Hd. split; [intros [H1 H2] | intros H]; lra.
  - intros (Ea & Eb & E0). rewrite Hs, Hd. split; lra.
Qed.

(** ** AddUnitLengthConstraintWithLogarithmicSOS2 *)

Lemma lin_app (a1 a2 : list R) (x1 x2 : list DecisionVariable)
  (env : Environment) :
  List.length a1 = List.length x1 ->
  lin (a1 ++ a2) (x1 ++ x2) env = lin a1 x1 env + lin a2 x2 env.
Proof.
  revert x1. induction a1 as [|c a1 IH]; intros [|v x1] L; try discriminate.
  - cbn. lra.
  - cbn [app lin]. rewrite IH by (injection L as L; exact L). lra.
Qed.

(** The loop of the function: it reads inside the four vectors and sums the
    weights of each break point times its square. *)
Lemma unit_length_loop (phi_vec : list R)
  (lambda0 lambda1 lambda2 : list DecisionVariable)
  (pd pr : list R) (d0 r0 d1 r1 d2 r2 : list DecisionVariable)
  (acc : Expression) :
  phi_vec = pd ++ pr ->
  lambda0 = d0 ++ r0 -> lambda1 = d1 ++ r1 -> lambda2 = d2 ++ r2 ->
  List.length d0 = List.length pd -> List.length d1 = List.length pd ->
  List.length d2 = List.length pd ->
  List.length r0 = List.length pr -> List.length r1 = List.length pr ->
  List.length r2 = List.length pr ->
  exists e : Expression,
    foldM (fun x_sum_of_squares_ub i =>
             phi_i <- vcoeff phi_vec i ;;
             l0 <- vcoeff lambda0 i ;;
             l1 <- vcoeff lambda1 i ;;
             l2 <- vcoeff lambda2 i ;;
             let phi_square := phi_i * phi_i in
             Ok (EAdd x_sum_of_squares_ub
                      (EMul (EAdd (EAdd (EVar l0) (EVar l1)) (EVar l2))
                            (EConst phi_square))))
          (seq (List.length pd) (List.length pr)) acc = Ok e
    /\ forall env,
         Evaluate env e
         = Evaluate env acc + lin (squares pr) r0 env
           + lin (squares pr) r1 env + lin (squares pr) r2 env.
Proof.
  revert pd d0 r0 d1 r1 d2 r2 acc.
  induction pr as [|ph pr IH];
    intros pd d0 r0 d1 r1 d2 r2 acc Hp H0 H1 H2 L0 L1 L2 M0 M1 M2.
  - exists acc. split; [reflexivity|]. intros env.
    destruct r0, r1, r2; try discriminate. cbn. lra.
  - destruct r0 as [|x0 r0]; [discriminate|].
    destruct r1 as [|x1 r1]; [discriminate|].
    destruct r2 as [|x2 r2]; [discriminate|].
    cbn [List.length seq foldM].
    assert (Ep : vcoeff phi_vec (List.length pd) = Ok ph).
    { unfold vcoeff. rewrite Hp, nth_error_app2, Nat.sub_diag by lia.
      reflexivity. }
    assert (E0 : vcoeff lambda0 (List.length pd) = Ok x0).
    { unfold vcoeff. rewrite H0, <- L0, nth_error_app2, Nat.sub_diag by lia.
      reflexivity. }
    assert (E1 : vcoeff lambda1 (List.length pd) = Ok x1).
    { unfold vcoeff. rewrite H1, <- L1, nth_error_app2, Nat.sub_diag by lia.
      reflexivity. }
    assert (E2 : vcoeff lambda2 (List.length pd) = Ok x2).
    { unfold vcoeff. rewrite H2, <- L2, nth_error_app2, Nat.sub_diag by lia.
      reflexivity. }
    rewrite Ep, E0, E1, E2. cbn [bind]. cbv zeta.
    replace (S (List.length pd)) with (List.length (pd ++ [ph]))
      by (rewrite length_app; cbn [List.length]; lia).
    destruct (IH (pd ++ [ph]) (d0 ++ [x0]) r0 (d1 ++ [x1]) r1 (d2 ++ [x2]) r2
                (EAdd acc (EMul (EAdd (EAdd (EVar x0) (EVar x1)) (EVar x2))
                                (EConst (ph * ph)))))
      as (e & Ee & He);
      try (rewrite <- app_assoc; assumption);
      try (rewrite !length_app; cbn [List.length]; lia);
      try (cbn [List.length] in *; lia).
    exists e. split; [exact Ee|]. intros env. rewrite He.
    cbn [Evaluate squares map lin]. fold (squares pr). lra.
Qed.

(** What the function does when the four vectors have the same length. *)
Lemma unit_length_returns (prog : MathematicalProgram) (phi_vec : list R)
  (lambda0 lambda1 lambda2 : list DecisionVariable) :
  List.length phi_vec = List.length lambda0 ->
  List.length phi_vec = List.length lambda1 ->
  List.length phi_vec = List.length lambda2 ->
  exists e : Expression,
    AddUnitLengthConstraintWithLogarithmicSOS2 prog phi_vec lambda0 lambda1
      lambda2
    = Ok (add_constraint prog (LinearFormulaConstraint (FGe e (EConst 1))))
    /\ forall env,
         Evaluate env e
         = lin (squares phi_vec) lambda0 env + lin (squares phi_vec) lambda1 env
           + lin (squares phi_vec) lambda2 env.
Proof.
  intros L0 L1 L2.
  destruct (unit_length_loop phi_vec lambda0 lambda1 lambda2 [] phi_vec
              [] lambda0 [] lambda1 [] lambda2 (EConst 0))
    as (e & Ee & He); try reflexivity; try (symmetry; assumption).
  exists e. split.
  - unfold AddUnitLengthConstraintWithLogarithmicSOS2.
    rewrite <- L0, <- L1, <- L2, Nat.eqb_refl. cbn [DRAKE_ASSERT bind].
    cbn [List.length] in Ee. rewrite Ee. reflexivity.
  - intros env. rewrite He. cbn [Evaluate]. lra.
Qed.

(** X12. [AddUnitLengthConstraintWithLogarithmicSOS2] returns exactly when
    the three weight vectors have as many entries as [phi_vec], and is a
    failed assertion otherwise (it never reads outside a vector).  When it
    returns it has added one constraint and nothing else, and the constraint
    says that the sum over [i] of
    [(lambda0(i) + lambda1(i) + lambda2(i)) * phi_vec(i)^2] is at least 1. *)
Theorem AddUnitLengthConstraintWithLogarithmicSOS2_outcome
  (prog : MathematicalProgram) (phi_vec : list R)
  (lambda0 lambda1 lambda2 : list DecisionVariable) :
  let same_length :=
    List.length phi_vec = List.length lambda0
    /\ List.length phi_vec = List.length lambda1
    /\ List.length phi_vec = List.length lambda2 in
  (same_length ->
   exists c : Constraint,
     AddUnitLengthConstraintWithLogarithmicSOS2 prog phi_vec lambda0 lambda1
       lambda2 = Ok (add_constraint prog c)
     /\ forall env,
          Satisfies env c
          <-> 1 <= lin (squares phi_vec) lambda0 env
                   + lin (squares phi_vec) lambda1 env
                   + lin (squares phi_vec) lambda2 env)
  /\ (~ same_length ->
      AddUnitLengthConstraintWithLogarithmicSOS2 prog phi_vec lambda0 lambda1
        lambda2 = Abort).
Proof.
  cbv zeta. split.
  - intros (L0 & L1 & L2).
    destruct (unit_length_returns prog phi_vec lambda0 lambda1 lambda2 L0 L1 L2)
      as (e & Ee & He).
    eexists. split; [exact Ee|]. intros env.
    cbn [Satisfies Holds Evaluate]. rewrite He. split; lra.
  - intros H. unfold AddUnitLengthConstraintWithLogarithmicSOS2.
    destruct (Nat.eqb_spec (List.length phi_vec) (List.length lambda0));
      cbn [DRAKE_ASSERT bind]; [|reflexivity].
    destruct (Nat.eqb_spec (List.length phi_vec) (List.length lambda1));
      cbn [DRAKE_ASSERT bind]; [|reflexivity].
    destruct (Nat.eqb_spec (List.length phi_vec) (List.length lambda2));
      cbn [DRAKE_ASSERT bind]; [|reflexivity].
    exfalso. apply H. repeat split; assumption.
Qed.

(** The square of a convex combination of the break points is at most the
    same combination of their squares. *)
Lemma convex_combination_square (phi_vec : list R)
  (lambda : list DecisionVariable) (env : Environment) :
  List.length phi_vec = List.length lambda ->
  convex_weights env lambda ->
  lin phi_vec lambda env * lin phi_vec lambda env
  <= lin (squares phi_vec) lambda env.
Proof.
  intros L [Hpos Hsum].
  assert (G : forall x : R,
             0 <= lin (squares phi_vec) lambda env
                  - 2 * x * lin phi_vec lambda env
                  + x * x * fold_right Rplus 0 (map env lambda)).
  { intros x. clear Hsum. revert lambda L Hpos.
    induction phi_vec as [|ph phi_vec IH]; intros [|v lambda] L Hpos;
      try discriminate.
    - cbn. lra.
    - inversion Hpos as [|? ? Hv Hpos']; subst.
      injection L as L. specialize (IH lambda L Hpos').
      cbn [squares map lin fold_right]. fold (squares phi_vec).
      assert (0 <= env v * ((ph - x) * (ph - x)))
        by (apply Rmult_le_pos; [exact Hv | apply (Rle_0_sqr (ph - x))]).
      lra. }
  specialize (G (lin phi_vec lambda env)). rewrite Hsum in G. lra.
Qed.

(** X13. The cut of [AddUnitLengthConstraintWithLogarithmicSOS2] excludes no
    vector of length at least 1: when each [lambda_j] holds the weights of a
    convex combination and the coordinates are
    [x_j = phi_vec . lambda_j], with [x_0^2 + x_1^2 + x_2^2 >= 1], the
    function returns and the constraint it adds holds. *)
Theorem AddUnitLengthConstraintWithLogarithmicSOS2_sound
  (prog : MathematicalProgram) (phi_vec : list R)
  (lambda0 lambda1 lambda2 : list DecisionVariable) (env : Environment) :
  List.length phi_vec = List.length lambda0 ->
  List.length phi_vec = List.length lambda1 ->
  List.length phi_vec = List.length lambda2 ->
  convex_weights env lambda0 -> convex_weights env lambda1 ->
  convex_weights env lambda2 ->
  1 <= lin phi_vec lambda0 env * lin phi_vec lambda0 env
       + lin phi_vec lambda1 env * lin phi_vec lambda1 env
       + lin phi_vec lambda2 env * lin phi_vec lambda2 env ->
  exists (prog' : MathematicalProgram) (c : Constraint),
    AddUnitLengthConstraintWithLogarithmicSOS2 prog phi_vec lambda0 lambda1
      lambda2 = Ok prog'
    /\ only_adds prog prog' [c]
    /\ Satisfies env c.
Proof.
  intros L0 L1 L2 W0 W1 W2 Hx.
  destruct (unit_length_returns prog phi_vec lambda0 lambda1 lambda2 L0 L1 L2)
    as (e & Ee & He).
  eexists _, _. split; [exact Ee|]. split; [apply only_adds_add|].
  cbn [Satisfies Holds Evaluate]. rewrite He.
  pose proof (convex_combination_square phi_vec lambda0 env L0 W0).
  pose proof (convex_combination_square phi_vec lambda1 env L1 W1).
  pose proof (convex_combination_square phi_vec lambda2 env L2 W2).
  lra.
Qed.

Lemma AddUnitLengthConstraintWithLogarithmicSOS2_sound_example :
  exists (prog' : MathematicalProgram) (c : Constraint),
    AddUnitLengthConstraintWithLogarithmicSOS2 empty_program [-1; 0; 1]
      (lambda_example 0) (lambda_example 1) (lambda_example 2) = Ok prog'
    /\ only_adds empty_program prog' [c]
    /\ Satisfies env_last_weight c.
Proof.
  apply (AddUnitLengthConstraintWithLogarithmicSOS2_sound empty_program
           [-1; 0; 1] (lambda_example 0) (lambda_example 1) (lambda_example 2)
           env_last_weight);
    try reflexivity;
    try (split; [repeat constructor; cbn; lra | cbn; lra]).
  cbn. lra.
Defined.

(** ** PickPermutation *)

(** X14. [PickPermutation] demands an orthant between 0 and 7 and is a
    fatal failure outside.  Inside it returns, on every axis, the entry of
    [b] where the orthant is negative and the entry of [a] elsewhere; so
    exchanging [a] and [b] is the same as passing to the opposite orthant
    [7 - orthant]. *)
Theorem PickPermutation_orthants {A : Type} (a b : Vector3 A) (orthant : Z) :
  ((0 <= orthant <= 7)%Z ->
   PickPermutation a b orthant
   = Ok (vec3 (if Z.testbit orthant 0 then vx b else vx a)
              (if Z.testbit orthant 1 then vy b else vy a)
              (if Z.testbit orthant 2 then vz b else vz a))
   /\ PickPermutation b a (7 - orthant) = PickPermutation a b orthant)
  /\ (~ (0 <= orthant <= 7)%Z -> PickPermutation a b orthant = Abort).
Proof.
  split.
  - intros Ho.
    assert (C : (orthant = 0 \/ orthant = 1 \/ orthant = 2 \/ orthant = 3
                 \/ orthant = 4 \/ orthant = 5 \/ orthant = 6
                 \/ orthant = 7)%Z) by lia.
    destruct a as [ax ay az], b as [bx by' bz].
    destruct C as [->|[->|[->|[->|[->|[->|[->| ->]]]]]]]; split; reflexivity.
  - intros Ho. unfold PickPermutation.
    destruct ((orthant >=? 0)%Z && (orthant <=? 7)%Z) eqn:E;
      [|reflexivity].
    apply andb_true_iff in E as [E1 E2]. lia.
Qed.

(** ** What the emitter leaves alone *)

Lemma adds_linear_refl (p : MathematicalProgram) : adds_linear_constraints p p.
Proof. exists []. split; [apply only_adds_refl | reflexivity]. Qed.

Lemma adds_linear_trans (p q r : MathematicalProgram) :
  adds_linear_constraints p q -> adds_linear_constraints q r ->
  adds_linear_constraints p r.
Proof.
  intros (cs & A & L) (cs' & A' & L'). exists (cs ++ cs'). split.
  - apply (only_adds_trans p q r cs cs' A A').
  - rewrite forallb_app, L, L'. reflexivity.
Qed.

Lemma adds_linear_formula (p : MathematicalProgram) (f : Formula) :
  adds_linear_constraints p (AddLinearFormula p f).
Proof. exists [LinearFormulaConstraint f]. split; [apply only_adds_add | reflexivity]. Qed.

Lemma adds_linear_fold_left {A : Type}
  (f : MathematicalProgram -> A -> MathematicalProgram) (l : list A) :
  (forall p a, adds_linear_constraints p (f p a)) ->
  forall p, adds_linear_constraints p (fold_left f l p).
Proof.
  intros Hf. induction l as [|a l IH]; intros p; [apply adds_linear_refl|].
  cbn [fold_left]. eapply adds_linear_trans; [apply Hf | apply IH].
Qed.

Lemma adds_linear_foldM {A : Type}
  (f : MathematicalProgram -> A -> result MathematicalProgram) (l : list A) :
  (forall p a p', f p a = Ok p' -> adds_linear_constraints p p') ->
  forall p p', foldM f l p = Ok p' -> adds_linear_constraints p p'.
Proof.
  intros Hf p p' E.
  apply (foldM_preserves (adds_linear_constraints p) f l) with (s := p);
    [|apply adds_linear_refl|exact E].
  intros s a s' _ Hs Es.
  eapply adds_linear_trans; [exact Hs | apply (Hf _ _ _ Es)].
Qed.

Section EmitterFrame.

Variable Solve : MathematicalProgram -> Environment.
Variable v : Vector3 DecisionVariable.
Variable B_i : Vector3 (list DecisionVariable).
Variable v1 v2 : Vector3 DecisionVariable.
Variable N : Z.
Variable G : MatrixXi.

Lemma EmitNoIntersection_adds_linear (xi yi zi : Z) p o p' :
  EmitNoIntersection B_i N G xi yi zi p o = Ok p' ->
  adds_linear_constraints p p'.
Proof.
  unfold EmitNoIntersection.
  destruct (orthant_box_expression B_i N G xi yi zi o); cbn [bind];
    try discriminate.
  intros E; injection E as <-. apply adds_linear_formula.
Qed.

Lemma EmitUniqueIntersection_adds_linear (xi yi zi : Z) u p o p' :
  EmitUniqueIntersection v B_i v1 v2 N G xi yi zi u p o = Ok p' ->
  adds_linear_constraints p p'.
Proof.
  unfold EmitUniqueIntersection.
  destruct (orthant_box_expression B_i N G xi yi zi o); cbn [bind];
    try discriminate.
  cbv zeta. cbn [fold_left].
  intros E; injection E as <-.
  repeat (eapply adds_linear_trans; [|apply adds_linear_formula]).
  apply adds_linear_refl.
Qed.

Lemma EmitIntersectionRegion_adds_linear (xi yi zi : Z) normal d Ab p o p' :
  EmitIntersectionRegion v B_i v1 v2 N G xi yi zi normal d Ab p o = Ok p' ->
  adds_linear_constraints p p'.
Proof.
  unfold EmitIntersectionRegion.
  destruct (orthant_box_expression B_i N G xi yi zi o) as [c| | |];
    cbn [bind]; try discriminate.
  cbv zeta.
  intros E; injection E as <-.
  do 6 (eapply adds_linear_trans; [|apply adds_linear_formula]).
  eapply adds_linear_trans;
    [|destruct (Z.rem o 2 =? 0)%Z;
      [eexists; split; [apply only_adds_add | reflexivity]
      |apply adds_linear_refl]].
  apply adds_linear_fold_left. intros q [A_i b_i]. apply adds_linear_formula.
Qed.

Lemma EmitCell_adds_linear (xi yi zi : Z) p p' :
  EmitCell Solve v B_i v1 v2 N G p xi yi zi = Ok p' ->
  adds_linear_constraints p p'.
Proof.
  unfold EmitCell. cbv zeta.
  destruct (box_intersects_sphere _ _).
  - destruct (box_touches_sphere _ _).
    + apply adds_linear_foldM. intros q o q'.
      apply EmitUniqueIntersection_adds_linear.
    + destruct (ComputeBoxEdgesAndSphereIntersection _ _) as [pts| | |];
        cbn [bind]; try discriminate.
      destruct (DRAKE_DEMAND _); cbn [bind]; try discriminate.
      destruct (ComputeHalfSpaceRelaxationForBoxSphereIntersection _ _)
        as [[normal d]| | |]; cbn [bind]; try discriminate.
      destruct (ComputeInnerFacetsForBoxSphereIntersection _) as [Ab| | |];
        cbn [bind]; try discriminate.
      apply adds_linear_foldM. intros q o q'.
      apply EmitIntersectionRegion_adds_linear.
  - apply adds_linear_foldM. intros q o q'.
    apply EmitNoIntersection_adds_linear.
Qed.

Lemma emitter_adds_linear (prog prog' : MathematicalProgram) :
  AddMcCormickVectorConstraints Solve v B_i v1 v2 N G prog = Ok prog' ->
  adds_linear_constraints prog prog'.
Proof.
  unfold AddMcCormickVectorConstraints. cbv zeta.
  apply adds_linear_foldM. intros p xi p'.
  apply adds_linear_foldM. intros q yi q'.
  apply adds_linear_foldM. intros r zi r'.
  apply EmitCell_adds_linear.
Qed.

End EmitterFrame.

(** X15. A run of [AddMcCormickVectorConstraints] that returns has only
    added constraints, all of them linear, at the end of the program: it
    creates no decision variable, adds no cost and no cone or bounding-box
    constraint, and removes or changes nothing that was there (the auxiliary
    program of the half-space relaxation stays private). *)
Theorem AddMcCormickVectorConstraints_only_adds_linear_constraints
  (Solve : MathematicalProgram -> Environment)
  (v : Vector3 DecisionVariable) (B_i : Vector3 (list DecisionVariable))
  (v1 v2 : Vector3 DecisionVariable) (N : Z) (G : MatrixXi)
  (prog prog' : MathematicalProgram) :
  AddMcCormickVectorConstraints Solve v B_i v1 v2 N G prog = Ok prog' ->
  exists cs : list Constraint,
    decision_variables prog' = decision_variables prog
    /\ linear_costs prog' = linear_costs prog
    /\ constraints prog' = constraints prog ++ cs
    /\ forallb is_linear cs = true.
Proof.
  intros E.
  destruct (emitter_adds_linear Solve v B_i v1 v2 N G prog prog' E)
    as (cs & (V & L & C) & Hl).
  exists cs. repeat split; assumption.
Qed.

Lemma unit_cube_run :
  exists prog',
    AddMcCormickVectorConstraints zero_solver v_example B1_example
      v1_example v2_example 1 (CalculateReflectedGrayCodes 1) empty_program
    = Ok prog'.
Proof.
  destruct (unit_cube_cell empty_program) as (prog' & E & _).
  exists prog'. unfold AddMcCormickVectorConstraints. cbv zeta.
  change (range 1) with [0%Z]. cbn [foldM]. rewrite E. reflexivity.
Qed.

Lemma AddMcCormickVectorConstraints_only_adds_linear_constraints_example :
  exists (prog' : MathematicalProgram) (cs : list Constraint),
    AddMcCormickVectorConstraints zero_solver v_example B1_example
      v1_example v2_example 1 (CalculateReflectedGrayCodes 1) empty_program
    = Ok prog'
    /\ decision_variables prog' = decision_variables empty_program
    /\ linear_costs prog' = linear_costs empty_program
    /\ constraints prog' = constraints empty_program ++ cs
    /\ forallb is_linear cs = true.
Proof.
  destruct unit_cube_run as (prog' & E).
  destruct (AddMcCormickVectorConstraints_only_adds_linear_constraints
              zero_solver v_example B1_example v1_example v2_example 1
              (CalculateReflectedGrayCodes 1) empty_program prog' E)
    as (cs & H).
  exists prog', cs. split; [exact E | exact H].
Defined.

(** ** Vectors of the unit ball *)

Lemma FlipVector_squaredNorm (a : Vector3d) (o : Z) :
  squaredNorm (FlipVector Ropp a o) = squaredNorm a.
Proof.
  unfold FlipVector, squaredNorm, dot. cbn [vx vy vz].
  destruct (Z.testbit o 0), (Z.testbit o 1), (Z.testbit o 2); lra.
Qed.

Lemma FlipVector_vopp (a : Vector3d) (o : Z) :
  vopp (FlipVector Ropp (vopp a) o) = FlipVector Ropp a o.
Proof.
  unfold FlipVector, vopp. cbn [vx vy vz].
  destruct (Z.testbit o 0), (Z.testbit o 1), (Z.testbit o 2);
    apply vector3_eq; cbn [vx vy vz]; lra.
Qed.

Lemma unit_ball_coordinates (a : Vector3d) :
  squaredNorm a <= 1 ->
  (-1 <= vx a <= 1) /\ (-1 <= vy a <= 1) /\ (-1 <= vz a <= 1).
Proof.
  unfold squaredNorm, dot. intros H. repeat split; nra.
Qed.

(** Lagrange's identity. *)
Lemma cross_squaredNorm (a b : Vector3d) :
  squaredNorm (cross a b) = squaredNorm a * squaredNorm b - dot a b * dot a b.
Proof.
  unfold squaredNorm, dot, cross. cbn [vx vy vz]. ring.
Qed.

Lemma unit_ball_dot (a b : Vector3d) :
  squaredNorm a <= 1 -> squaredNorm b <= 1 -> -1 <= dot a b <= 1.
Proof.
  intros Ha Hb.
  pose proof (cross_squaredNorm a b) as L.
  pose proof (squaredNorm_nonneg (cross a b)) as P.
  pose proof (squaredNorm_nonneg a). pose proof (squaredNorm_nonneg b).
  assert (Q : dot a b * dot a b <= 1) by nra.
  split; nra.
Qed.

Lemma unit_ball_cross (a b : Vector3d) :
  squaredNorm a <= 1 -> squaredNorm b <= 1 -> squaredNorm (cross a b) <= 1.
Proof.
  intros Ha Hb. rewrite cross_squaredNorm.
  pose proof (squaredNorm_nonneg a). pose proof (squaredNorm_nonneg b).
  assert (0 <= dot a b * dot a b) by apply (Rle_0_sqr (dot a b)).
  nra.
Qed.

(** ** A box that touches the sphere at one point (state B) *)

(** What one orthant of a box in state B adds, and what it means. *)
Lemma unique_intersection_constraints
  (v : Vector3 DecisionVariable) (B_i : Vector3 (list DecisionVariable))
  (v1 v2 : Vector3 DecisionVariable) (N : Z) (G : MatrixXi) (xi yi zi : Z)
  (unique_intersection : Vector3d) (prog : MathematicalProgram) (o : Z) :
  valid_encoding N G B_i -> valid_cell N xi yi zi ->
  exists (prog' : MathematicalProgram) (cs : list Constraint),
    EmitUniqueIntersection v B_i v1 v2 N G xi yi zi unique_intersection prog o
    = Ok prog'
    /\ only_adds prog prog' cs
    /\ List.length cs = 16%nat
    /\ forall env, binary_assignment env B_i ->
         let u := FlipVector Ropp unique_intersection o in
         (selects_box env G B_i N xi yi zi o ->
          (Forall (Satisfies env) cs
           <-> values env v = u
               /\ dot u (values env v1) = 0 /\ dot u (values env v2) = 0
               /\ cross u (values env v1) = values env v2))
         /\ (~ selects_box env G B_i N xi yi zi o ->
             squaredNorm unique_intersection = 1 ->
             squaredNorm (values env v) <= 1 ->
             squaredNorm (values env v1) <= 1 ->
             squaredNorm (values env v2) <= 1 ->
             Forall (Satisfies env) cs).
Proof.
  intros Hvalid Hcell.
  destruct (orthant_box_expression_spec B_i N G Hvalid xi yi zi o Hcell)
    as (c & Ec & Sc).
  unfold EmitUniqueIntersection. rewrite Ec. cbn [bind]. cbv zeta.
  cbn [fold_left].
  eexists. eexists. split; [reflexivity|]. split.
  { unfold AddLinearFormula.
    repeat (eapply only_adds_trans; [|apply only_adds_add]).
    apply only_adds_refl. }
  cbn [app].
  split; [reflexivity|].
  intros env Hbin. cbv zeta.
  destruct (Sc env Hbin) as (S0 & S1 & S2).
  set (u := FlipVector Ropp unique_intersection o).
  repeat rewrite Forall_cons_iff. rewrite Forall_nil_iff.
  cbn [Satisfies Holds Evaluate sdot scross vars vmap coef vx vy vz].
  set (s := Evaluate env (ssum c)) in *.
  unfold values, vmap, dot, cross. cbn [vx vy vz].
  split.
  - intros Hsel. specialize (S1 Hsel). rewrite S1. split.
    + intros H. repeat split;
        try (apply vector3_eq; cbn [vx vy vz]); lra.
    + intros (Ev & E1 & E2 & Ec2).
      apply (f_equal vx) in Ev as Evx.
      apply (f_equal vy) in Ev as Evy.
      apply (f_equal vz) in Ev as Evz.
      apply (f_equal vx) in Ec2 as Ecx.
      apply (f_equal vy) in Ec2 as Ecy.
      apply (f_equal vz) in Ec2 as Ecz.
      cbn [vx vy vz] in *. repeat split; lra.
  - intros Hsel Hu Hv Hv1 Hv2. specialize (S2 Hsel).
    assert (Hu' : squaredNorm u <= 1)
      by (unfold u; rewrite FlipVector_squaredNorm; lra).
    destruct (unit_ball_coordinates u Hu') as (Ux & Uy & Uz).
    destruct (unit_ball_coordinates _ Hv) as (Vx & Vy & Vz).
    destruct (unit_ball_coordinates _ Hv2) as (Wx & Wy & Wz).
    pose proof (unit_ball_dot u _ Hu' Hv1) as D1.
    pose proof (unit_ball_dot u _ Hu' Hv2) as D2.
    destruct (unit_ball_coordinates _ (unit_ball_cross u _ Hu' Hv1))
      as (Cx & Cy & Cz).
    unfold dot, cross in *. cbn [vx vy vz] in *.
    repeat split; lra.
Qed.



(** ** A box that meets the sphere in a region (state C) *)

(** The cut of one inner facet, for one orthant. *)
Lemma facet_loop_only_adds (v : Vector3 DecisionVariable) (o : Z)
  (orthant_c_sum : Expression) (Ab : list (Vector3d * R))
  (prog : MathematicalProgram) :
  only_adds prog
    (fold_left (fun prog (Ab_i : Vector3d * R) =>
      let '(A_i, b_i) := Ab_i in
      let orthant_a := vopp (FlipVector Ropp (vopp A_i) o) in
      AddLinearFormula prog
        (FLe (ESub (sdot orthant_a (vars v)) (EConst b_i))
             (EMul (EConst (1 - b_i)) orthant_c_sum)))
      Ab prog)
    (map (fun Ab_i : Vector3d * R =>
            LinearFormulaConstraint
              (FLe (ESub (sdot (FlipVector Ropp (fst Ab_i) o) (vars v))
                         (EConst (snd Ab_i)))
                   (EMul (EConst (1 - snd Ab_i)) orthant_c_sum)))
         Ab).
Proof.
  revert prog. induction Ab as [|[A_i b_i] Ab IH]; intros prog.
  - apply only_adds_refl.
  - cbn [fold_left map fst snd]. cbv zeta. rewrite FlipVector_vopp.
    apply only_adds_cons. apply IH.
Qed.

Lemma sin_acos_nonneg (d : R) : 0 <= sin (acos d) /\ 0 <= sin (acos d / 2).
Proof.
  pose proof (acos_bound d) as [H0 H1]. pose proof PI_RGT_0.
  split; apply sin_ge_0; lra.
Qed.

(** What one orthant of a box in state C adds, and what it means. *)
Lemma intersection_region_constraints
  (v : Vector3 DecisionVariable) (B_i : Vector3 (list DecisionVariable))
  (v1 v2 : Vector3 DecisionVariable) (N : Z) (G : MatrixXi) (xi yi zi : Z)
  (normal : Vector3d) (d : R) (Ab : list (Vector3d * R))
  (prog : MathematicalProgram) (o : Z) :
  valid_encoding N G B_i -> valid_cell N xi yi zi ->
  exists (prog' : MathematicalProgram) (cs : list Constraint),
    EmitIntersectionRegion v B_i v1 v2 N G xi yi zi normal d Ab prog o
    = Ok prog'
    /\ only_adds prog prog' cs
    /\ List.length cs
       = (List.length Ab + (if (Z.rem o 2 =? 0)%Z then 1 else 0) + 6)%nat
    /\ forall env, binary_assignment env B_i ->
         let n := FlipVector Ropp normal o in
         let x := values env v in
         let x1 := values env v1 in
         let x2 := values env v2 in
         let w := cross n x1 in
         (selects_box env G B_i N xi yi zi o ->
          (Forall (Satisfies env) cs
           <-> Forall (fun Ab_i : Vector3d * R =>
                         dot (FlipVector Ropp (fst Ab_i) o) x <= snd Ab_i) Ab
               /\ ((Z.rem o 2 =? 0)%Z = true -> -1 <= dot n x <= 1)
               /\ - sin (acos d) <= dot n x1 <= sin (acos d)
               /\ - sin (acos d) <= dot n x2 <= sin (acos d)
               /\ (- (2 * sin (acos d / 2)) <= vx x2 - vx w <= 2 * sin (acos d / 2)
                   /\ - (2 * sin (acos d / 2)) <= vy x2 - vy w
                      <= 2 * sin (acos d / 2)
                   /\ - (2 * sin (acos d / 2)) <= vz x2 - vz w
                      <= 2 * sin (acos d / 2))))
         /\ (~ selects_box env G B_i N xi yi zi o ->
             squaredNorm normal = 1 ->
             Forall (fun Ab_i : Vector3d * R =>
                       squaredNorm (fst Ab_i) = 1 /\ snd Ab_i <= 1) Ab ->
             squaredNorm x <= 1 -> squaredNorm x1 <= 1 -> squaredNorm x2 <= 1 ->
             Forall (Satisfies env) cs).
Proof.
  intros Hvalid Hcell.
  destruct (orthant_box_expression_spec B_i N G Hvalid xi yi zi o Hcell)
    as (c & Ec & Sc).
  unfold EmitIntersectionRegion. rewrite Ec. cbn [bind]. cbv zeta.
  eexists. eexists. split; [reflexivity|]. split.
  { unfold AddLinearFormula at 1 2 3 4 5 6.
    do 6 (eapply only_adds_trans; [|apply only_adds_add]).
    eapply only_adds_trans; [apply facet_loop_only_adds|].
    instantiate (1 := if (Z.rem o 2 =? 0)%Z
                      then [norm_bound v (FlipVector Ropp normal o)] else []).
    destruct (Z.rem o 2 =? 0)%Z; [apply only_adds_add | apply only_adds_refl]. }
  split.
  { rewrite !length_app, length_map. cbn [List.length].
    destruct (Z.rem o 2 =? 0)%Z; cbn [List.length]; lia. }
  intros env Hbin. cbv zeta.
  destruct (Sc env Hbin) as (S0 & S1 & S2).
  destruct (sin_acos_nonneg d) as [T1 T2].
  set (n := FlipVector Ropp normal o).
  rewrite !Forall_app, !Forall_cons_iff, !Forall_nil_iff, Forall_map.
  cbn [Satisfies Holds Evaluate sdot scross vars vmap coef vx vy vz
       vector_le vector_ge vscale].
  set (s := Evaluate env (ssum c)) in *.
  assert (Hnb : Forall (Satisfies env)
                  (if (Z.rem o 2 =? 0)%Z then [norm_bound v n] else [])
                <-> ((Z.rem o 2 =? 0)%Z = true
                     -> -1 <= dot n (values env v) <= 1)).
  { destruct (Z.rem o 2 =? 0)%Z.
    - rewrite Forall_cons_iff, Forall_nil_iff.
      unfold norm_bound, values, vmap, dot.
      cbn [Satisfies lin vlist vx vy vz]. split.
      + intros [H _] _. lra.
      + intros H. specialize (H eq_refl). split; [lra | exact I].
    - split; [intros _ C; discriminate | intros _; constructor]. }
  rewrite Hnb. clear Hnb.
  unfold values, vmap, dot, cross. cbn [vx vy vz].
  replace (acos d / 2) with (acos d * / 2) in * by (unfold Rdiv; reflexivity).
  split.
  - intros Hsel. specialize (S1 Hsel). rewrite S1.
    assert (Hf : forall P Q : Vector3d * R -> Prop,
               (forall a, P a <-> Q a) -> Forall P Ab <-> Forall Q Ab).
    { intros P Q HPQ. split; apply Forall_impl; intros a; apply HPQ. }
    rewrite (Hf _ (fun Ab_i : Vector3d * R =>
                     vx (FlipVector Ropp (fst Ab_i) o) * env (vx v)
                     + vy (FlipVector Ropp (fst Ab_i) o) * env (vy v)
                     + vz (FlipVector Ropp (fst Ab_i) o) * env (vz v)
                     <= snd Ab_i)).
    2:{ intros a. cbn [Satisfies Holds Evaluate sdot]. split; lra. }
    split.
    + intros H. repeat split; try tauto; lra.
    + intros H. repeat split; try tauto; lra.
  - intros Hsel Hn HAb Hv Hv1 Hv2. specialize (S2 Hsel).
    assert (Hn' : squaredNorm n <= 1)
      by (unfold n; rewrite FlipVector_squaredNorm; lra).
    destruct (unit_ball_coordinates _ Hv2) as (Wx & Wy & Wz).
    pose proof (unit_ball_dot n _ Hn' Hv) as D0.
    pose proof (unit_ball_dot n _ Hn' Hv1) as D1.
    pose proof (unit_ball_dot n _ Hn' Hv2) as D2.
    destruct (unit_ball_coordinates _ (unit_ball_cross n _ Hn' Hv1))
      as (Cx & Cy & Cz).
    unfold values, vmap, dot, cross in *. cbn [vx vy vz] in *.
    repeat split; try lra.
    apply Forall_forall. intros [A_i b_i] HIn.
    rewrite Forall_forall in HAb. destruct (HAb _ HIn) as [HA Hb].
    cbn [fst snd] in *.
    assert (HA' : squaredNorm (FlipVector Ropp A_i o) <= 1)
      by (rewrite FlipVector_squaredNorm; lra).
    pose proof (unit_ball_dot (FlipVector Ropp A_i o) (vec3 (env (vx v)) (env (vy v)) (env (vz v)))
                  HA' Hv) as DA.
    cbn [Satisfies Holds Evaluate sdot]. unfold dot in DA. cbn [vx vy vz] in DA.
    nra.
Qed.



(** ** The number of constraints of a cell *)

(** A loop whose body returns and adds [k a] constraints on element [a]. *)
Lemma foldM_only_adds_count {A : Type}
  (f : MathematicalProgram -> A -> result MathematicalProgram) (k : A -> nat)
  (l : list A) :
  (forall p a, In a l ->
     exists p' cs, f p a = Ok p' /\ only_adds p p' cs /\ List.length cs = k a) ->
  forall p,
    exists p' cs,
      foldM f l p = Ok p' /\ only_adds p p' cs
      /\ List.length cs = list_sum (map k l).
Proof.
  induction l as [|a l IH]; intros Hf p.
  - exists p, []. split; [reflexivity|]. split; [apply only_adds_refl|].
    reflexivity.
  - destruct (Hf p a (or_introl eq_refl)) as (p1 & cs1 & E1 & A1 & L1).
    destruct (IH (fun q b Hb => Hf q b (or_intror Hb)) p1)
      as (p2 & cs2 & E2 & A2 & L2).
    exists p2, (cs1 ++ cs2). split; [|split].
    + cbn [foldM]. rewrite E1. exact E2.
    + apply (only_adds_trans p p1 p2 cs1 cs2 A1 A2).
    + rewrite length_app, L1, L2. reflexivity.
Qed.

(** X18. The size of what [EmitCell], the body of the loops of
    [AddMcCormickVectorConstraints], adds for a cell of the grid under a
    valid encoding.  A box that does not meet the sphere costs 8
    constraints and a box that touches it at one point 128; on these two
    kinds of cell the body always returns.  A box that meets the sphere in
    a region costs, when the body returns, [8 * (facets + 6) + 4]
    constraints, where [facets] is the number of inner facets of its
    intersection points.  In every case constraints are only added. *)
Theorem EmitCell_constraint_count
  (Solve : MathematicalProgram -> Environment)
  (v : Vector3 DecisionVariable) (B_i : Vector3 (list DecisionVariable))
  (v1 v2 : Vector3 DecisionVariable) (N : Z) (G : MatrixXi) (xi yi zi : Z)
  (prog : MathematicalProgram) :
  valid_encoding N G B_i -> valid_cell N xi yi zi ->
  let box_min := box_min_of N xi yi zi in
  let box_max := box_max_of N xi yi zi in
  (box_intersects_sphere box_min box_max = false ->
   exists prog' cs,
     EmitCell Solve v B_i v1 v2 N G prog xi yi zi = Ok prog'
     /\ only_adds prog prog' cs /\ List.length cs = 8%nat)
  /\ (box_intersects_sphere box_min box_max = true ->
      box_touches_sphere box_min box_max = true ->
      exists prog' cs,
        EmitCell Solve v B_i v1 v2 N G prog xi yi zi = Ok prog'
        /\ only_adds prog prog' cs /\ List.length cs = 128%nat)
  /\ (box_intersects_sphere box_min box_max = true ->
      box_touches_sphere box_min box_max = false ->
      forall prog',
        EmitCell Solve v B_i v1 v2 N G prog xi yi zi = Ok prog' ->
        exists pts Ab cs,
          ComputeBoxEdgesAndSphereIntersection box_min box_max = Ok pts
          /\ ComputeInnerFacetsForBoxSphereIntersection pts = Ok Ab
          /\ only_adds prog prog' cs
          /\ List.length cs = (8 * (List.length Ab + 6) + 4)%nat).
Proof.
  intros Hvalid Hcell box_min box_max. split; [|split].
  - intros HA. unfold EmitCell. cbv zeta. fold box_min box_max. rewrite HA.
    destruct (foldM_only_adds_count
                (EmitNoIntersection B_i N G xi yi zi) (fun _ => 1%nat)
                (range 8)) with (p := prog) as (p' & cs & E & Ad & L).
    { intros p o _.
      destruct (orthant_box_expression_spec B_i N G Hvalid xi yi zi o Hcell)
        as (c & Ec & _).
      unfold EmitNoIntersection. rewrite Ec. cbn [bind].
      eexists _, _. split; [reflexivity|]. split; [apply only_adds_add|].
      reflexivity. }
    exists p', cs. split; [exact E|]. split; [exact Ad | exact L].
  - intros HA HB. unfold EmitCell. cbv zeta. fold box_min box_max.
    rewrite HA, HB.
    fold (norm box_min) (norm box_max).
    set (u := if Rltb (Rabs (norm box_min - 1)) (2 * epsilon)
              then vdiv box_min (norm box_min)
              else vdiv box_max (norm box_max)).
    destruct (foldM_only_adds_count
                (EmitUniqueIntersection v B_i v1 v2 N G xi yi zi u)
                (fun _ => 16%nat) (range 8)) with (p := prog)
      as (p' & cs & E & Ad & L).
    { intros p o _.
      destruct (unique_intersection_constraints v B_i v1 v2 N G xi yi zi
                  u p o Hvalid Hcell)
        as (p' & cs & E & Ad & L & _).
      exists p', cs. split; [exact E|]. split; [exact Ad | exact L]. }
    exists p', cs. split; [exact E|]. split; [exact Ad | exact L].
  - intros HA HB prog'. unfold EmitCell. cbv zeta. fold box_min box_max.
    rewrite HA, HB.
    destruct (ComputeBoxEdgesAndSphereIntersection box_min box_max)
      as [pts| | |] eqn:Ep; cbn [bind]; try discriminate.
    destruct (DRAKE_DEMAND _); cbn [bind]; try discriminate.
    destruct (ComputeHalfSpaceRelaxationForBoxSphereIntersection Solve pts)
      as [[normal d]| | |]; cbn [bind]; try discriminate.
    destruct (ComputeInnerFacetsForBoxSphereIntersection pts) as [Ab| | |]
      eqn:Ef; cbn [bind]; try discriminate.
    intros E.
    destruct (foldM_only_adds_count
                (EmitIntersectionRegion v B_i v1 v2 N G xi yi zi normal d Ab)
                (fun o => (List.length Ab
                           + (if (Z.rem o 2 =? 0)%Z then 1 else 0) + 6)%nat)
                (range 8)) with (p := prog) as (p' & cs & E' & Ad & L).
    { intros p o _.
      destruct (intersection_region_constraints v B_i v1 v2 N G xi yi zi
                  normal d Ab p o Hvalid Hcell)
        as (p' & cs & E' & Ad & L & _).
      exists p', cs. split; [exact E'|]. split; [exact Ad | exact L]. }
    rewrite E in E'. injection E' as <-.
    exists pts, Ab, cs. split; [reflexivity|]. split; [exact Ef|].
    split; [exact Ad|]. rewrite L.
    change (range 8) with [0; 1; 2; 3; 4; 5; 6; 7]%Z.
    cbn [map list_sum Z.rem Z.quotrem Z.eqb Z.pos_div_eucl Pos.eqb snd fst].
    cbn. lia.
Qed.

Lemma EmitCell_constraint_count_example :
  let box_min := box_min_of 1 0 0 0 in
  let box_max := box_max_of 1 0 0 0 in
  (box_intersects_sphere box_min box_max = false ->
   exists prog' cs,
     EmitCell zero_solver v_example B1_example v1_example v2_example 1
       (CalculateReflectedGrayCodes 1) empty_program 0 0 0 = Ok prog'
     /\ only_adds empty_program prog' cs /\ List.length cs = 8%nat)
  /\ (box_intersects_sphere box_min box_max = true ->
      box_touches_sphere box_min box_max = true ->
      exists prog' cs,
        EmitCell zero_solver v_example B1_example v1_example v2_example 1
          (CalculateReflectedGrayCodes 1) empty_program 0 0 0 = Ok prog'
        /\ only_adds empty_program prog' cs /\ List.length cs = 128%nat)
  /\ (box_intersects_sphere box_min box_max = true ->
      box_touches_sphere box_min box_max = false ->
      forall prog',
        EmitCell zero_solver v_example B1_example v1_example v2_example 1
          (CalculateReflectedGrayCodes 1) empty_program 0 0 0 = Ok prog' ->
        exists pts Ab cs,
          ComputeBoxEdgesAndSphereIntersection box_min box_max = Ok pts
          /\ ComputeInnerFacetsForBoxSphereIntersection pts = Ok Ab
          /\ only_adds empty_program prog' cs
          /\ List.length cs = (8 * (List.length Ab + 6) + 4)%nat).
Proof.
  apply (EmitCell_constraint_count zero_solver v_example B1_example
           v1_example v2_example 1 (CalculateReflectedGrayCodes 1) 0 0 0
           empty_program).
  - exact valid_encoding_example_1.
  - unfold valid_cell. lia.
Defined.

(** ** The boxes addressed by a cell and an orthant *)

Lemma full_axis_index_value (N xi yi zi o : Z) (axis : nat) :
  (1 <= N < 2 ^ 30)%Z -> valid_cell N xi yi zi -> (axis < 3)%nat ->
  coef (PositiveAxisIntervalIndexToFullAxisIntervalIndex (vec3 xi yi zi) o N)
       axis
  = if Z.testbit o (Z.of_nat axis)
    then (N - 1 - coef (vec3 xi yi zi) axis)%Z
    else (coef (vec3 xi yi zi) axis + N)%Z.
Proof.
  intros HN (Hx & Hy & Hz) Ha.
  unfold PositiveAxisIntervalIndexToFullAxisIntervalIndex, OrthantToAxisMask,
    FlipVector.
  destruct axis as [|[|[|axis]]]; try lia; cbn [coef vx vy vz Z.of_nat];
    change (Z.pos (Pos.of_succ_nat 0)) with 1%Z;
    change (Z.pos (Pos.of_succ_nat 1)) with 2%Z;
    match goal with
    | |- context [Z.testbit o ?k] => destruct (Z.testbit o k)
    end;
    cbn [Z.opp Z.gtb Z.compare];
    unfold int_add, int_sub;
    rewrite ?(int_wrap_small (N - 1)) by lia;
    rewrite int_wrap_small by lia; reflexivity.
Qed.

Lemma testbit_opposite (o : Z) (k : Z) :
  (0 <= o < 8)%Z -> (0 <= k < 3)%Z ->
  Z.testbit (7 - o) k = negb (Z.testbit o k).
Proof.
  intros Ho Hk.
  assert (C : (o = 0 \/ o = 1 \/ o = 2 \/ o = 3 \/ o = 4 \/ o = 5 \/ o = 6
               \/ o = 7)%Z) by lia.
  assert (K : (k = 0 \/ k = 1 \/ k = 2)%Z) by lia.
  destruct C as [->|[->|[->|[->|[->|[->|[->| ->]]]]]]];
    destruct K as [->|[->| ->]]; reflexivity.
Qed.

Lemma orthant_bits (o o' : Z) :
  (0 <= o < 8)%Z -> (0 <= o' < 8)%Z ->
  Z.testbit o 0 = Z.testbit o' 0 -> Z.testbit o 1 = Z.testbit o' 1 ->
  Z.testbit o 2 = Z.testbit o' 2 -> o = o'.
Proof.
  intros Ho Ho'.
  assert (C : (o = 0 \/ o = 1 \/ o = 2 \/ o = 3 \/ o = 4 \/ o = 5 \/ o = 6
               \/ o = 7)%Z) by lia.
  assert (C' : (o' = 0 \/ o' = 1 \/ o' = 2 \/ o' = 3 \/ o' = 4 \/ o' = 5
                \/ o' = 6 \/ o' = 7)%Z) by lia.
  destruct C as [->|[->|[->|[->|[->|[->|[->| ->]]]]]]];
    destruct C' as [->|[->|[->|[->|[->|[->|[->| ->]]]]]]];
    cbn; intros; try reflexivity; discriminate.
Qed.

(** X19. For a resolution [1 <= N < 2^30] and cells of the grid,
    [PositiveAxisIntervalIndexToFullAxisIntervalIndex] addresses a different
    box of the full grid for every cell and orthant 0..7: equal index
    vectors come from the same cell and the same orthant.  The boxes of
    opposite orthants [o] and [7 - o] mirror each other: on every axis the
    two indices add up to [2 N - 1]. *)
Theorem PositiveAxisIntervalIndexToFullAxisIntervalIndex_injective
  (N xi yi zi o xi' yi' zi' o' : Z) :
  (1 <= N < 2 ^ 30)%Z ->
  valid_cell N xi yi zi -> valid_cell N xi' yi' zi' ->
  (0 <= o < 8)%Z -> (0 <= o' < 8)%Z ->
  (PositiveAxisIntervalIndexToFullAxisIntervalIndex (vec3 xi yi zi) o N
   = PositiveAxisIntervalIndexToFullAxisIntervalIndex (vec3 xi' yi' zi') o' N
   -> xi = xi' /\ yi = yi' /\ zi = zi' /\ o = o')
  /\ (forall axis, (axis < 3)%nat ->
        (coef (PositiveAxisIntervalIndexToFullAxisIntervalIndex
                 (vec3 xi yi zi) o N) axis
         + coef (PositiveAxisIntervalIndexToFullAxisIntervalIndex
                   (vec3 xi yi zi) (7 - o) N) axis
         = 2 * N - 1)%Z).
Proof.
  intros HN Hc Hc' Ho Ho'. split.
  - intros E.
    pose proof (full_axis_index_value N xi yi zi o 0 HN Hc ltac:(lia)) as X.
    pose proof (full_axis_index_value N xi yi zi o 1 HN Hc ltac:(lia)) as Y.
    pose proof (full_axis_index_value N xi yi zi o 2 HN Hc ltac:(lia)) as Z0.
    pose proof (full_axis_index_value N xi' yi' zi' o' 0 HN Hc' ltac:(lia)) as X'.
    pose proof (full_axis_index_value N xi' yi' zi' o' 1 HN Hc' ltac:(lia)) as Y'.
    pose proof (full_axis_index_value N xi' yi' zi' o' 2 HN Hc' ltac:(lia)) as Z'.
    rewrite E in X, Y, Z0. rewrite X' in X. rewrite Y' in Y. rewrite Z' in Z0.
    clear X' Y' Z' E.
    destruct Hc as (Hx & Hy & Hz), Hc' as (Hx' & Hy' & Hz').
    cbn [coef vx vy vz Z.of_nat] in X, Y, Z0.
    change (Z.pos (Pos.of_succ_nat 0)) with 1%Z in Y.
    change (Z.pos (Pos.of_succ_nat 1)) with 2%Z in Z0.
    assert (B0 : Z.testbit o 0 = Z.testbit o' 0)
      by (destruct (Z.testbit o 0), (Z.testbit o' 0); try reflexivity; lia).
    assert (B1 : Z.testbit o 1 = Z.testbit o' 1)
      by (destruct (Z.testbit o 1), (Z.testbit o' 1); try reflexivity; lia).
    assert (B2 : Z.testbit o 2 = Z.testbit o' 2)
      by (destruct (Z.testbit o 2), (Z.testbit o' 2); try reflexivity; lia).
    rewrite B0 in X. rewrite B1 in Y. rewrite B2 in Z0.
    split; [destruct (Z.testbit o' 0); lia|].
    split; [destruct (Z.testbit o' 1); lia|].
    split; [destruct (Z.testbit o' 2); lia|].
    apply orthant_bits; assumption.
  - intros axis Ha.
    rewrite !full_axis_index_value by assumption.
    rewrite testbit_opposite by lia.
    destruct (Z.testbit o (Z.of_nat axis)); cbn [negb]; lia.
Qed.

Lemma PositiveAxisIntervalIndexToFullAxisIntervalIndex_injective_example :
  (PositiveAxisIntervalIndexToFullAxisIntervalIndex (vec3 0 1 0)%Z 5 2
   = PositiveAxisIntervalIndexToFullAxisIntervalIndex (vec3 1 1 0)%Z 4 2
   -> 0%Z = 1%Z /\ 1%Z = 1%Z /\ 0%Z = 0%Z /\ 5%Z = 4%Z)
  /\ (forall axis, (axis < 3)%nat ->
        (coef (PositiveAxisIntervalIndexToFullAxisIntervalIndex
                 (vec3 0 1 0)%Z 5 2) axis
         + coef (PositiveAxisIntervalIndexToFullAxisIntervalIndex
                   (vec3 0 1 0)%Z (7 - 5) 2) axis
         = 2 * 2 - 1)%Z).
Proof.
  apply (PositiveAxisIntervalIndexToFullAxisIntervalIndex_injective
           2 0 1 0 5 1 1 0 4); unfold valid_cell; lia.
Defined.

(** ** The two instantiations of the indicator templates *)

Lemma vcoeff_map {A B : Type} (f : A -> B) (b : list A) (i : nat) :
  vcoeff (map f b) i = result_map f (vcoeff b i).
Proof.
  unfold vcoeff. rewrite nth_error_map.
  destruct (nth_error b i); reflexivity.
Qed.

Lemma pick_loop_instantiations (env : Environment) (G : MatrixXi) (k : Z)
  (b : list DecisionVariable) (l : list nat) (acc : Expression) :
  result_map (Evaluate env)
    (foldM (fun ret i =>
              g <- coeff G k (Z.of_nat i) ;;
              bi <- vcoeff b i ;;
              Ok (s_add ret (if (g =? 0)%Z
                             then cast bi
                             else s_sub (s_const 1) (cast bi))))
           l acc)
  = foldM (fun ret i =>
             g <- coeff G k (Z.of_nat i) ;;
             bi <- vcoeff (map env b) i ;;
             Ok (s_add ret (if (g =? 0)%Z
                            then cast bi
                            else s_sub (s_const 1) (cast bi))))
          l (Evaluate env acc).
Proof.
  revert acc. induction l as [|i l IH]; intros acc; [reflexivity|].
  cbn [foldM]. destruct (coeff G k (Z.of_nat i)) as [g| | |]; cbn [bind];
    try reflexivity.
  rewrite vcoeff_map. destruct (vcoeff b i) as [bi| | |];
    cbn [result_map bind]; try reflexivity.
  rewrite IH. f_equal.
  destruct (g =? 0)%Z; reflexivity.
Qed.

Lemma pick_instantiations (env : Environment) (G : MatrixXi) (k : Z)
  (b : list DecisionVariable) :
  result_map (Evaluate env)
    (PickBinaryExpressionGivenInterval (S1 := Expression) k G b)
  = PickBinaryExpressionGivenInterval (S1 := R) k G (map env b).
Proof.
  unfold PickBinaryExpressionGivenInterval. rewrite length_map.
  destruct ((0 <=? k)%Z && (k <=? rows G)%Z); cbn [DRAKE_ASSERT bind];
    [|reflexivity].
  destruct (Z.of_nat (List.length b) =? cols G)%Z; cbn [DRAKE_ASSERT bind];
    [|reflexivity].
  apply pick_loop_instantiations.
Qed.

(** X20. The two explicit instantiations of
    [CalcBoxBinaryExpressionInOrthant] agree: evaluating the expressions of
    the symbolic instantiation under an assignment gives the numbers the
    [double] instantiation computes from the values of the variables, and
    the two calls fail together, in the same way (the same holds for
    [PickBinaryExpressionGivenInterval]). *)
Theorem CalcBoxBinaryExpressionInOrthant_instantiations_agree
  (env : Environment) (xi yi zi orthant : Z) (gray_codes : MatrixXi)
  (B_vec : Vector3 (list DecisionVariable)) (N : Z) :
  result_map (vmap (Evaluate env))
    (CalcBoxBinaryExpressionInOrthant (S1 := Expression)
       (S2 := DecisionVariable) xi yi zi orthant gray_codes B_vec N)
  = CalcBoxBinaryExpressionInOrthant (S1 := R) (S2 := R) xi yi zi orthant
      gray_codes (vmap (map env) B_vec) N
  /\ forall (k : Z) (b : list DecisionVariable),
       result_map (Evaluate env)
         (PickBinaryExpressionGivenInterval (S1 := Expression) k gray_codes b)
       = PickBinaryExpressionGivenInterval (S1 := R) k gray_codes (map env b).
Proof.
  split; [|intros k b; apply pick_instantiations].
  unfold CalcBoxBinaryExpressionInOrthant. cbv zeta.
  set (idx := PositiveAxisIntervalIndexToFullAxisIntervalIndex _ _ _).
  cbn [coef vmap vx vy vz].
  rewrite <- !pick_instantiations.
  destruct (PickBinaryExpressionGivenInterval (vx idx) gray_codes (vx B_vec))
    as [c0| | |]; cbn [result_map bind]; try reflexivity.
  destruct (PickBinaryExpressionGivenInterval (vy idx) gray_codes (vy B_vec))
    as [c1| | |]; cbn [result_map bind]; try reflexivity.
  destruct (PickBinaryExpressionGivenInterval (vz idx) gray_codes (vz B_vec))
    as [c2| | |]; cbn [result_map bind]; reflexivity.
Qed.

(** ** What the orthant cut excludes *)

Lemma with_auxiliaries_old (prog : MathematicalProgram) (env : Environment)
  (ts : list R) (x : DecisionVariable) :
  (get_id x < fresh_id prog)%nat -> with_auxiliaries prog env ts x = env x.
Proof.
  intros H. unfold with_auxiliaries.
  destruct (Nat.leb_spec (fresh_id prog) (get_id x)); [lia | reflexivity].
Qed.

Lemma with_auxiliaries_new (prog : MathematicalProgram) (env : Environment)
  (ts : list R) (x : DecisionVariable) (k : nat) :
  get_id x = (fresh_id prog + k)%nat -> (k < List.length ts)%nat ->
  with_auxiliaries prog env ts x = nth k ts 0.
Proof.
  intros H Hk. unfold with_auxiliaries.
  destruct (Nat.leb_spec (fresh_id prog) (get_id x)); [|lia].
  replace (get_id x - fresh_id prog)%nat with k by lia.
  apply nth_indep. exact Hk.
Qed.

(** X21. The cut [AddNotInSameOrOppositeOrthantConstraint] adds for a pair
    of columns means what its name says.  When the entries of the two
    columns of [B] are 0 or 1, an assignment that satisfies the fourteen
    constraints has the two columns neither equal on all three rows (same
    orthant) nor different on all three rows (opposite orthants).
    Conversely, when [B] holds variables of the program, every 0/1
    assignment of the two columns that is neither extends to the auxiliary
    variables [t] and [s] so that the fourteen constraints hold: the cut
    excludes nothing else. *)
Theorem AddOrthantCutForColumnPair_excludes_same_and_opposite_orthants
  (B : Matrix3 DecisionVariable) (prog : MathematicalProgram) (c0 c1 : nat) :
  exists cs : list Constraint,
    constraints (AddOrthantCutForColumnPair B prog (c0, c1))
    = constraints prog ++ cs
    /\ List.length cs = 14%nat
    /\ forall env : Environment,
         (forall i, (i < 3)%nat ->
            is_binary (env (mcoef B i c0)) /\ is_binary (env (mcoef B i c1))) ->
         let same :=
           forall i, (i < 3)%nat -> env (mcoef B i c0) = env (mcoef B i c1) in
         let opposite :=
           forall i, (i < 3)%nat -> env (mcoef B i c0) <> env (mcoef B i c1) in
         (Forall (Satisfies env) cs -> ~ same /\ ~ opposite)
         /\ ((forall i, (i < 3)%nat ->
                (get_id (mcoef B i c0) < fresh_id prog)%nat
                /\ (get_id (mcoef B i c1) < fresh_id prog)%nat) ->
             ~ same -> ~ opposite ->
             exists ts : list R,
               List.length ts = 6%nat
               /\ Forall (Satisfies (with_auxiliaries prog env ts)) cs).
Proof.
  destruct (AddOrthantCutForColumnPair_spec B prog c0 c1)
    as (t & s & cs & _ & _ & C & L & _ & I & S).
  cbv zeta in C. exists cs. split; [exact C|]. split; [exact L|].
  intros env Hbin. cbv zeta.
  destruct (Hbin 0%nat ltac:(lia)) as [A0 B0].
  destruct (Hbin 1%nat ltac:(lia)) as [A1 B1].
  destruct (Hbin 2%nat ltac:(lia)) as [A2 B2].
  split.
  - intros H. apply S in H. destruct H as (Ht & Hs & H).
    pose proof (H 0%nat ltac:(lia)) as [T0 S0].
    pose proof (H 1%nat ltac:(lia)) as [T1 S1].
    pose proof (H 2%nat ltac:(lia)) as [T2 S2].
    cbn [coef] in T0, T1, T2, S0, S1, S2.
    split.
    + intros Hsame.
      pose proof (Hsame 0%nat ltac:(lia)) as E0.
      pose proof (Hsame 1%nat ltac:(lia)) as E1.
      pose proof (Hsame 2%nat ltac:(lia)) as E2.
      unfold is_binary in *.
      destruct A0, A1, A2; lra.
    + intros Hopp.
      pose proof (Hopp 0%nat ltac:(lia)) as E0.
      pose proof (Hopp 1%nat ltac:(lia)) as E1.
      pose proof (Hopp 2%nat ltac:(lia)) as E2.
      unfold is_binary in *.
      destruct A0, B0; try contradiction; try lra;
        destruct A1, B1; try contradiction; try lra;
        destruct A2, B2; try contradiction; try lra.
  - intros Hold Hsame Hopp.
    assert (Hex : forall P : nat -> Prop,
               ~ (forall i, (i < 3)%nat -> P i) ->
               (forall i, P i \/ ~ P i) ->
               ~ P 0%nat \/ ~ P 1%nat \/ ~ P 2%nat).
    { intros P HP Hdec.
      destruct (Hdec 0%nat) as [P0|P0]; [|left; exact P0].
      destruct (Hdec 1%nat) as [P1|P1]; [|right; left; exact P1].
      destruct (Hdec 2%nat) as [P2|P2]; [|right; right; exact P2].
      exfalso. apply HP. intros i Hi.
      destruct i as [|[|[|i]]]; try lia; assumption. }
    assert (Hs' : env (mcoef B 0 c0) <> env (mcoef B 0 c1)
                  \/ env (mcoef B 1 c0) <> env (mcoef B 1 c1)
                  \/ env (mcoef B 2 c0) <> env (mcoef B 2 c1)).
    { apply (Hex (fun i => env (mcoef B i c0) = env (mcoef B i c1)) Hsame).
      intros i.
      destruct (Req_dec_T (env (mcoef B i c0)) (env (mcoef B i c1)));
        [left | right]; assumption. }
    assert (Ho' : env (mcoef B 0 c0) = env (mcoef B 0 c1)
                  \/ env (mcoef B 1 c0) = env (mcoef B 1 c1)
                  \/ env (mcoef B 2 c0) = env (mcoef B 2 c1)).
    { destruct (Hex (fun i => env (mcoef B i c0) <> env (mcoef B i c1)) Hopp)
        as [H|[H|H]].
      - intros i.
        destruct (Req_dec_T (env (mcoef B i c0)) (env (mcoef B i c1)));
          [right | left]; tauto.
      - left. destruct (Req_dec_T (env (mcoef B 0 c0)) (env (mcoef B 0 c1)));
          tauto.
      - right; left.
        destruct (Req_dec_T (env (mcoef B 1 c0)) (env (mcoef B 1 c1))); tauto.
      - right; right.
        destruct (Req_dec_T (env (mcoef B 2 c0)) (env (mcoef B 2 c1))); tauto. }
    destruct (Hold 0%nat ltac:(lia)) as [Oa0 Ob0].
    destruct (Hold 1%nat ltac:(lia)) as [Oa1 Ob1].
    destruct (Hold 2%nat ltac:(lia)) as [Oa2 Ob2].
    cbn [vlist app map] in I.
    injection I as I0 I1 I2 I3 I4 I5.
    remember (env (mcoef B 0 c0)) as a0 eqn:Ea0.
    remember (env (mcoef B 1 c0)) as a1 eqn:Ea1.
    remember (env (mcoef B 2 c0)) as a2 eqn:Ea2.
    remember (env (mcoef B 0 c1)) as b0 eqn:Eb0.
    remember (env (mcoef B 1 c1)) as b1 eqn:Eb1.
    remember (env (mcoef B 2 c1)) as b2 eqn:Eb2.
    exists [ (a0 + b0 - 1) * (a0 + b0 - 1);
             (a1 + b1 - 1) * (a1 + b1 - 1);
             (a2 + b2 - 1) * (a2 + b2 - 1);
             (a0 - b0) * (a0 - b0);
             (a1 - b1) * (a1 - b1);
             (a2 - b2) * (a2 - b2) ].
    split; [reflexivity|].
    apply S. unfold orthant_cut_holds.
    rewrite (with_auxiliaries_new prog env _ (vx t) 0),
      (with_auxiliaries_new prog env _ (vy t) 1),
      (with_auxiliaries_new prog env _ (vz t) 2),
      (with_auxiliaries_new prog env _ (vx s) 3),
      (with_auxiliaries_new prog env _ (vy s) 4),
      (with_auxiliaries_new prog env _ (vz s) 5)
      by (cbn [List.length]; lia).
    cbn [nth].
    assert (Hsum : (a0 + b0 - 1) * (a0 + b0 - 1) + (a1 + b1 - 1) * (a1 + b1 - 1)
                   + (a2 + b2 - 1) * (a2 + b2 - 1) <= 2
                   /\ (a0 - b0) * (a0 - b0) + (a1 - b1) * (a1 - b1)
                      + (a2 - b2) * (a2 - b2) <= 2).
    { unfold is_binary in *.
      destruct A0 as [Xa0|Xa0], B0 as [Xb0|Xb0], A1 as [Xa1|Xa1],
        B1 as [Xb1|Xb1], A2 as [Xa2|Xa2], B2 as [Xb2|Xb2];
        rewrite Xa0, Xb0, Xa1, Xb1, Xa2, Xb2 in *;
        destruct Hs' as [H|[H|H]]; try lra;
        destruct Ho' as [H'|[H'|H']]; try lra. }
    split; [apply Hsum|]. split; [apply Hsum|].
    intros i Hi.
    assert (Hrow : forall a b : R, is_binary a -> is_binary b ->
               (- ((a + b - 1) * (a + b - 1)) <= a + b - 1
                <= (a + b - 1) * (a + b - 1))
               /\ (- ((a - b) * (a - b)) <= a - b <= (a - b) * (a - b))).
    { intros a b [-> | ->] [-> | ->]; lra. }
    destruct i as [|[|[|i]]]; try lia; cbn [coef];
      rewrite (with_auxiliaries_old prog env _ (mcoef B _ c0)),
        (with_auxiliaries_old prog env _ (mcoef B _ c1)) by assumption;
      rewrite ?(with_auxiliaries_new prog env _ (vx t) 0),
        ?(with_auxiliaries_new prog env _ (vy t) 1),
        ?(with_auxiliaries_new prog env _ (vz t) 2),
        ?(with_auxiliaries_new prog env _ (vx s) 3),
        ?(with_auxiliaries_new prog env _ (vy s) 4),
        ?(with_auxiliaries_new prog env _ (vz s) 5)
        by (cbn [List.length]; lia);
      cbn [nth]; rewrite <- ?Ea0, <- ?Ea1, <- ?Ea2, <- ?Eb0, <- ?Eb1, <- ?Eb2;
      apply Hrow; assumption.
Qed.

(** ** ComputeTriangleOutwardNormal does not depend on the order of the points *)

Lemma vdiv_vopp (c : Vector3d) (k : R) :
  k <> 0 -> vdiv (vopp c) k = vopp (vdiv c k).
Proof.
  intros Hk. unfold vdiv, vopp. cbn [vx vy vz].
  apply vector3_eq; cbn [vx vy vz]; field; exact Hk.
Qed.

(** The sign adjustment gives the same normal for a cross product and its
    opposite, except when the components sum to zero; the final demand then
    fails on both. *)
Lemma sign_adjusted_opposite (u : Vector3d) :
  squaredNorm u = 1 ->
  let n := if Rltb (vsum u) 0 then vscale (-1) u else u in
  let n' := if Rltb (vsum (vopp u)) 0 then vscale (-1) (vopp u) else vopp u in
  n' = n \/ (all_nonneg n = false /\ all_nonneg n' = false).
Proof.
  intros Hu. cbv zeta.
  assert (Hs : vsum (vopp u) = - vsum u)
    by (unfold vsum, vopp; cbn [vx vy vz]; lra).
  rewrite Hs.
  destruct (Rlt_dec (vsum u) 0) as [Neg|NNeg].
  - left. rewrite (Rltb_yes (vsum u)) by exact Neg.
    rewrite Rltb_no by lra.
    unfold vscale, vopp. cbn [vx vy vz]. apply vector3_eq; cbn [vx vy vz]; lra.
  - rewrite (Rltb_no (vsum u)) by lra.
    destruct (Rlt_dec 0 (vsum u)) as [Pos|NPos].
    + left. rewrite Rltb_yes by lra.
      unfold vscale, vopp. cbn [vx vy vz].
      apply vector3_eq; cbn [vx vy vz]; lra.
    + right. rewrite Rltb_no by lra.
      assert (Z0 : vsum u = 0) by lra.
      unfold vsum in Z0. unfold squaredNorm, dot in Hu.
      split; apply not_true_is_false; intros H; apply all_nonneg_true in H;
        unfold vopp in H; cbn [vx vy vz] in H; nra.
Qed.

Lemma triangle_unit_normal_of_opposite (pt0 pt1 pt2 q0 q1 q2 : Vector3d) :
  cross (vsub q2 q0) (vsub q1 q0) = vopp (cross (vsub pt2 pt0) (vsub pt1 pt0)) ->
  ~ norm (cross (vsub pt2 pt0) (vsub pt1 pt0)) < 1 / 1000 ->
  triangle_unit_normal q0 q1 q2 = triangle_unit_normal pt0 pt1 pt2
  \/ (all_nonneg (triangle_unit_normal pt0 pt1 pt2) = false
      /\ all_nonneg (triangle_unit_normal q0 q1 q2) = false).
Proof.
  intros Ec Hc. unfold triangle_unit_normal. rewrite Ec, norm_vopp.
  set (c := cross (vsub pt2 pt0) (vsub pt1 pt0)) in *.
  assert (Hk : norm c <> 0) by lra.
  rewrite (vdiv_vopp c (norm c) Hk).
  apply sign_adjusted_opposite.
  assert (Hu : norm (vdiv c (norm c)) = 1).
  { pose proof (triangle_unit_normal_norm pt0 pt1 pt2 Hc) as H.
    unfold triangle_unit_normal in H. fold c in H.
    destruct (Rltb (vsum (vdiv c (norm c))) 0); [|exact H].
    apply norm_eq_1. apply norm_eq_1 in H.
    unfold squaredNorm, dot, vscale in *. cbn [vx vy vz] in *. lra. }
  apply norm_eq_1. exact Hu.
Qed.

(** The outcome for two orderings whose cross products are opposite. *)
Lemma triangle_outcome_of_opposite (pt0 pt1 pt2 q0 q1 q2 : Vector3d) :
  all_nonneg q0 && all_nonneg q1 && all_nonneg q2
  = all_nonneg pt0 && all_nonneg pt1 && all_nonneg pt2 ->
  cross (vsub q2 q0) (vsub q1 q0) = vopp (cross (vsub pt2 pt0) (vsub pt1 pt0)) ->
  (forall n, dot q0 n = dot pt0 n)
  \/ (q0 = pt1 /\ q1 = pt0 /\ q2 = pt2)
  \/ (q0 = pt2 /\ q1 = pt1 /\ q2 = pt0) ->
  ComputeTriangleOutwardNormal q0 q1 q2
  = ComputeTriangleOutwardNormal pt0 pt1 pt2.
Proof.
  intros Hnn Ec Hd.
  destruct (all_nonneg pt0 && all_nonneg pt1 && all_nonneg pt2) eqn:Hp.
  2:{ assert (L : ComputeTriangleOutwardNormal pt0 pt1 pt2 = Abort).
      { unfold ComputeTriangleOutwardNormal.
        destruct (all_nonneg pt0); cbn [DRAKE_DEMAND bind]; [|reflexivity].
        destruct (all_nonneg pt1); cbn [DRAKE_DEMAND bind]; [|reflexivity].
        destruct (all_nonneg pt2); cbn [DRAKE_DEMAND bind]; [|reflexivity].
        discriminate. }
      assert (L' : ComputeTriangleOutwardNormal q0 q1 q2 = Abort).
      { unfold ComputeTriangleOutwardNormal.
        destruct (all_nonneg q0); cbn [DRAKE_DEMAND bind]; [|reflexivity].
        destruct (all_nonneg q1); cbn [DRAKE_DEMAND bind]; [|reflexivity].
        destruct (all_nonneg q2); cbn [DRAKE_DEMAND bind]; [|reflexivity].
        discriminate. }
      rewrite L, L'. reflexivity. }
  apply andb_true_iff in Hp as [Hp P2]. apply andb_true_iff in Hp as [P0 P1].
  apply andb_true_iff in Hnn as [Hq Q2]. apply andb_true_iff in Hq as [Q0 Q1].
  rewrite (ComputeTriangleOutwardNormal_unfold pt0 pt1 pt2 P0 P1 P2).
  rewrite (ComputeTriangleOutwardNormal_unfold q0 q1 q2 Q0 Q1 Q2).
  rewrite Ec, norm_vopp.
  destruct (Rltb (norm (cross (vsub pt2 pt0) (vsub pt1 pt0))) (1 / 1000))
    eqn:Hc; [reflexivity|].
  apply Rltb_false in Hc.
  destruct (triangle_unit_normal_of_opposite pt0 pt1 pt2 q0 q1 q2 Ec Hc)
    as [En | [F F']].
  - rewrite En.
    destruct (all_nonneg (triangle_unit_normal pt0 pt1 pt2)); [|reflexivity].
    f_equal. f_equal.
    destruct (triangle_unit_normal_orthogonal pt0 pt1 pt2 Hc) as [O1 O2].
    cbv zeta in O1, O2.
    destruct Hd as [Hd | [(-> & _ & _) | (-> & _ & _)]].
    + apply Hd.
    + unfold dot in *. lra.
    + unfold dot in *. lra.
  - rewrite F, F'. reflexivity.
Qed.

(** X22. [ComputeTriangleOutwardNormal] does not depend on the order in
    which the three points are given: exchanging two of them gives the same
    outcome, the same normal and the same offset. *)
Theorem ComputeTriangleOutwardNormal_symmetric (pt0 pt1 pt2 : Vector3d) :
  ComputeTriangleOutwardNormal pt0 pt2 pt1
  = ComputeTriangleOutwardNormal pt0 pt1 pt2
  /\ ComputeTriangleOutwardNormal pt1 pt0 pt2
     = ComputeTriangleOutwardNormal pt0 pt1 pt2
  /\ ComputeTriangleOutwardNormal pt2 pt1 pt0
     = ComputeTriangleOutwardNormal pt0 pt1 pt2.
Proof.
  split; [|split]; apply triangle_outcome_of_opposite.
  - destruct (all_nonneg pt0), (all_nonneg pt1), (all_nonneg pt2); reflexivity.
  - unfold cross, vsub, vopp. cbn [vx vy vz].
    apply vector3_eq; cbn [vx vy vz]; ring.
  - left. reflexivity.
  - destruct (all_nonneg pt0), (all_nonneg pt1), (all_nonneg pt2); reflexivity.
  - unfold cross, vsub, vopp. cbn [vx vy vz].
    apply vector3_eq; cbn [vx vy vz]; ring.
  - right; left. repeat split.
  - destruct (all_nonneg pt0), (all_nonneg pt1), (all_nonneg pt2); reflexivity.
  - unfold cross, vsub, vopp. cbn [vx vy vz].
    apply vector3_eq; cbn [vx vy vz]; ring.
  - right; right. repeat split.
Qed.

(** ** Intercept *)

(** X23. [Intercept] completes two coordinates to a point of the unit
    sphere: for [x^2 + y^2 <= 1] it returns a [z >= 0] with
    [x^2 + y^2 + z^2 = 1]; for [x^2 + y^2 > 1] its assertion fails. *)
Theorem Intercept_on_sphere (x y : R) :
  (x * x + y * y <= 1 ->
   exists z : R,
     Intercept x y = Ok z /\ 0 <= z /\ x * x + y * y + z * z = 1)
  /\ (1 < x * x + y * y -> Intercept x y = Abort).
Proof.
  unfold Intercept. split.
  - intros H. rewrite Rleb_yes by exact H. cbn [DRAKE_ASSERT bind].
    eexists. split; [reflexivity|]. split; [apply sqrt_pos|].
    rewrite sqrt_sqrt by lra. lra.
  - intros H. rewrite Rleb_no by exact H. reflexivity.
Qed.

(** ** NewRotationMatrixVars admits every rotation *)

Lemma rpy_trace (cr sr cp sp cy sy a b c d e f : R) :
  a * a + b * b = 1 -> c * c + d * d = 1 -> e * e + f * f = 1 ->
  cr = a * a - b * b -> sr = 2 * b * a ->
  cp = c * c - d * d -> sp = 2 * d * c ->
  cy = e * e - f * f -> sy = 2 * f * e ->
  cp * cy + (cr * cy + sp * sr * sy) + cp * cr + 1
  = 4 * ((a * c * e + b * d * f) * (a * c * e + b * d * f)).
Proof.
  intros Hr Hp Hy -> -> -> -> -> ->. nsatz.
Qed.

Lemma half_angles (x : R) :
  cos (x / 2) * cos (x / 2) + sin (x / 2) * sin (x / 2) = 1
  /\ cos x = cos (x / 2) * cos (x / 2) - sin (x / 2) * sin (x / 2)
  /\ sin x = 2 * sin (x / 2) * cos (x / 2).
Proof.
  split; [pose proof (sin_cos_one (x / 2)); lra|].
  assert (E : x = 2 * (x / 2)) by field.
  split; [rewrite E at 1; apply cos_2a | rewrite E at 1; apply sin_2a].
Qed.

Lemma unit_column_entries (a b c : R) :
  a * a + b * b + c * c = 1 ->
  (-1 <= a <= 1) /\ (-1 <= b <= 1) /\ (-1 <= c <= 1).
Proof. intros H. repeat split; nra. Qed.

(** X24. The two constraints of [NewRotationMatrixVars] exclude no
    rotation: when the new variables take the entries of the rotation
    matrix of any roll, pitch and yaw, the bounding box [-1 <= R(i,j) <= 1]
    and the trace bound [-1 <= trace(R) <= 3] hold. *)
Theorem NewRotationMatrixVars_sound
  (prog : MathematicalProgram) (name : string) (r p y : R)
  (env : Environment) :
  assigns env (fst (NewRotationMatrixVars prog name)) (rpy_matrix r p y) ->
  exists c_box c_trace : Constraint,
    constraints (snd (NewRotationMatrixVars prog name))
    = constraints prog ++ [c_box; c_trace]
    /\ Satisfies env c_box /\ Satisfies env c_trace.
Proof.
  intros Hval.
  unfold NewRotationMatrixVars, NewContinuousVariables33,
    AddBoundingBoxConstraint, AddLinearConstraint, add_constraint,
    add_variables in *.
  cbn [fst snd constraints decision_variables linear_costs] in *.
  eexists _, _. split; [rewrite <- app_assoc; reflexivity|].
  assert (V : forall i j, (i < 3)%nat -> (j < 3)%nat -> _) by exact Hval.
  pose proof (V 0%nat 0%nat ltac:(lia) ltac:(lia)) as V00.
  pose proof (V 1%nat 0%nat ltac:(lia) ltac:(lia)) as V10.
  pose proof (V 2%nat 0%nat ltac:(lia) ltac:(lia)) as V20.
  pose proof (V 0%nat 1%nat ltac:(lia) ltac:(lia)) as V01.
  pose proof (V 1%nat 1%nat ltac:(lia) ltac:(lia)) as V11.
  pose proof (V 2%nat 1%nat ltac:(lia) ltac:(lia)) as V21.
  pose proof (V 0%nat 2%nat ltac:(lia) ltac:(lia)) as V02.
  pose proof (V 1%nat 2%nat ltac:(lia) ltac:(lia)) as V12.
  pose proof (V 2%nat 2%nat ltac:(lia) ltac:(lia)) as V22.
  clear V Hval.
  unfold rpy_matrix, mcoef, col in *. cbn [coef vx vy vz] in *.
  pose proof (sin_cos_one r) as Er. pose proof (sin_cos_one p) as Ep.
  pose proof (sin_cos_one y) as Ey.
  destruct (half_angles r) as (Hr0 & Hr1 & Hr2).
  destruct (half_angles p) as (Hp0 & Hp1 & Hp2).
  destruct (half_angles y) as (Hy0 & Hy1 & Hy2).
  pose proof (rpy_trace (cos r) (sin r) (cos p) (sin p) (cos y) (sin y)
                _ _ _ _ _ _ Hr0 Hp0 Hy0 Hr1 Hr2 Hp1 Hp2 Hy1 Hy2) as Tr.
  pose proof (COS_bound r) as Br. pose proof (SIN_bound r) as Br'.
  pose proof (COS_bound p) as Bp. pose proof (SIN_bound p) as Bp'.
  pose proof (COS_bound y) as By. pose proof (SIN_bound y) as By'.
  set (cr := cos r) in *. set (sr := sin r) in *.
  set (cp := cos p) in *. set (sp := sin p) in *.
  set (cy := cos y) in *. set (sy := sin y) in *.
  assert (C0 : cp * cy * (cp * cy) + cp * sy * (cp * sy) + sp * sp = 1)
    by nsatz.
  assert (C1 : (cy * sp * sr - cr * sy) * (cy * sp * sr - cr * sy)
               + (cr * cy + sp * sr * sy) * (cr * cy + sp * sr * sy)
               + cp * sr * (cp * sr) = 1) by nsatz.
  assert (C2 : (sr * sy + cr * cy * sp) * (sr * sy + cr * cy * sp)
               + (cr * sp * sy - cy * sr) * (cr * sp * sy - cy * sr)
               + cp * cr * (cp * cr) = 1) by nsatz.
  destruct (unit_column_entries _ _ _ C0) as (B00 & B10 & B20).
  destruct (unit_column_entries _ _ _ C1) as (B01 & B11 & B21).
  destruct (unit_column_entries _ _ _ C2) as (B02 & B12 & B22).
  split.
  - cbn [Satisfies]. unfold mlist, vlist, col. cbn [coef vx vy vz app].
    repeat (constructor; [first [rewrite V00 | rewrite V10 | rewrite V20
                                |rewrite V01 | rewrite V11 | rewrite V21
                                |rewrite V02 | rewrite V12 | rewrite V22];
                          lra|]).
    constructor.
  - cbn [Satisfies lin vlist diagonal mcoef col coef vx vy vz].
    unfold mcoef, col. cbn [coef vx vy vz].
    rewrite V00, V11, V22.
    assert (0 <= (cos (r / 2) * cos (p / 2) * cos (y / 2)
                  + sin (r / 2) * sin (p / 2) * sin (y / 2))
                 * (cos (r / 2) * cos (p / 2) * cos (y / 2)
                    + sin (r / 2) * sin (p / 2) * sin (y / 2)))
      by apply (Rle_0_sqr _).
    split; lra.
Qed.

Lemma NewRotationMatrixVars_sound_example :
  exists c_box c_trace : Constraint,
    constraints (snd (NewRotationMatrixVars empty_program "R"))
    = constraints empty_program ++ [c_box; c_trace]
    /\ Satisfies env_rpy_zero c_box /\ Satisfies env_rpy_zero c_trace.
Proof.
  apply (NewRotationMatrixVars_sound empty_program "R" 0 0 0 env_rpy_zero).
  intros i j Hi Hj.
  destruct i as [|[|[|i]]]; try lia; destruct j as [|[|[|j]]]; try lia;
    reflexivity.
Defined.

(** ** The half space of a feasible solver answer *)

Lemma formula_loop_constraints {A : Type} (f : A -> Formula) (l : list A)
  (p : MathematicalProgram) :
  constraints (fold_left (fun prog a => AddLinearFormula prog (f a)) l p)
  = constraints p ++ map (fun a => LinearFormulaConstraint (f a)) l.
Proof.
  revert p. induction l as [|a l IH]; intros p.
  - cbn. rewrite app_nil_r. reflexivity.
  - cbn [fold_left map]. rewrite IH. cbn [AddLinearFormula add_constraint
      constraints]. rewrite <- app_assoc. reflexivity.
Qed.

Lemma half_space_program_constraints (pts : list Vector3d) :
  constraints (half_space_program pts)
  = map (fun pt => LinearFormulaConstraint
                     (FGe (sdot pt (vars half_space_n_var))
                          (EVar half_space_d_var))) pts
    ++ [LorentzConeConstraint (EConst 1 :: vlist (vars half_space_n_var))].
Proof.
  unfold half_space_program.
  cbn [NewContinuousVariables3 NewContinuousVariables1 fst snd].
  unfold AddLorentzConeConstraint, add_constraint at 1. cbn [constraints].
  rewrite (formula_loop_constraints
             (fun pt => FGe (sdot pt (vars half_space_n_var))
                            (EVar half_space_d_var))).
  reflexivity.
Qed.

(** The function on points that are not co-planar: it reads the answer of
    the solver on [half_space_program pts] and checks it. *)
Lemma half_space_solver_path (Solve : MathematicalProgram -> Environment)
  (pts : list Vector3d) (n0 : Vector3d) (d0 : R) :
  AreAllVerticesCoPlanar pts = Ok (false, n0, d0) ->
  ComputeHalfSpaceRelaxationForBoxSphereIntersection Solve pts
  = let solution := Solve (half_space_program pts) in
    let n := vmap solution half_space_n_var in
    let d := solution half_space_d_var in
    _ <- DRAKE_DEMAND (Rgtb (vx n) 0 && Rgtb (vy n) 0 && Rgtb (vz n) 0) ;;
    _ <- DRAKE_DEMAND (Rgtb d 0 && Rltb d 1) ;;
    Ok (n, d).
Proof.
  intros Eco.
  unfold ComputeHalfSpaceRelaxationForBoxSphereIntersection.
  destruct (3 <=? List.length pts)%nat eqn:L.
  - cbn [DRAKE_DEMAND bind]. rewrite Eco. reflexivity.
  - apply Nat.leb_gt in L.
    rewrite AreAllVerticesCoPlanar_short in Eco by exact L. discriminate.
Qed.

(** ** The postcondition of the half-space relaxation *)

(** A triangle plane is returned only when the cross product of the two
    sides is not short. *)
Lemma triangle_not_colinear (pt0 pt1 pt2 n : Vector3d) (d : R) :
  ComputeTriangleOutwardNormal pt0 pt1 pt2 = Ok (n, d) ->
  ~ norm (cross (vsub pt2 pt0) (vsub pt1 pt0)) < 1 / 1000.
Proof.
  intros E.
  destruct (triangle_plane pt0 pt1 pt2 n d E) as ((H0 & H1 & H2) & _).
  rewrite (ComputeTriangleOutwardNormal_unfold pt0 pt1 pt2 H0 H1 H2) in E.
  destruct (Rltb (norm (cross (vsub pt2 pt0) (vsub pt1 pt0))) (1 / 1000))
    eqn:Ec; [discriminate|].
  apply Rltb_false in Ec. exact Ec.
Qed.

(** The offset of the plane through three points of the unit sphere is
    less than 1. *)
Lemma triangle_plane_offset_lt_1 (pt0 pt1 pt2 n : Vector3d) (d : R) :
  ComputeTriangleOutwardNormal pt0 pt1 pt2 = Ok (n, d) ->
  norm pt0 = 1 -> norm pt1 = 1 -> d < 1.
Proof.
  intros E N0 N1.
  pose proof (triangle_not_colinear pt0 pt1 pt2 n d E) as Hc.
  destruct (triangle_plane pt0 pt1 pt2 n d E)
    as (_ & Nn & _ & (D0 & D1 & _) & _).
  apply norm_eq_1 in N0, N1, Nn.
  destruct (Rlt_dec d 1) as [Hd|Hd]; [exact Hd|]. exfalso. apply Hc.
  destruct pt0 as [x0 y0 z0], pt1 as [x1 y1 z1], pt2 as [x2 y2 z2],
    n as [a b c].
  clear E Hc. apply Rnot_lt_le in Hd.
  unfold squaredNorm, dot in *. cbn [vx vy vz] in *.
  assert (S0 : (a - x0) * (a - x0) + (b - y0) * (b - y0)
               + (c - z0) * (c - z0) <= 0).
  { replace ((a - x0) * (a - x0) + (b - y0) * (b - y0) + (c - z0) * (c - z0))
      with (a * a + b * b + c * c + (x0 * x0 + y0 * y0 + z0 * z0)
            - 2 * (a * x0 + b * y0 + c * z0)) by ring.
    rewrite Nn, N0, D0. lra. }
  assert (S1 : (a - x1) * (a - x1) + (b - y1) * (b - y1)
               + (c - z1) * (c - z1) <= 0).
  { replace ((a - x1) * (a - x1) + (b - y1) * (b - y1) + (c - z1) * (c - z1))
      with (a * a + b * b + c * c + (x1 * x1 + y1 * y1 + z1 * z1)
            - 2 * (a * x1 + b * y1 + c * z1)) by ring.
    rewrite Nn, N1, D1. lra. }
  pose proof (Rle_0_sqr (a - x0)) as Q1. pose proof (Rle_0_sqr (b - y0)) as Q2.
  pose proof (Rle_0_sqr (c - z0)) as Q3. pose proof (Rle_0_sqr (a - x1)) as Q4.
  pose proof (Rle_0_sqr (b - y1)) as Q5. pose proof (Rle_0_sqr (c - z1)) as Q6.
  unfold Rsqr in Q1, Q2, Q3, Q4, Q5, Q6.
  assert (Ex0 : x0 = a) by nra. assert (Ey0 : y0 = b) by nra.
  assert (Ez0 : z0 = c) by nra.
  assert (Ex1 : x1 = a) by nra. assert (Ey1 : y1 = b) by nra.
  assert (Ez1 : z1 = c) by nra.
  subst x0 y0 z0 x1 y1 z1.
  unfold norm, squaredNorm, dot, cross, vsub. cbn [vx vy vz].
  replace ((y2 - b) * (c - c) - (z2 - c) * (b - b)) with 0 by ring.
  replace ((z2 - c) * (a - a) - (x2 - a) * (c - c)) with 0 by ring.
  replace ((x2 - a) * (b - b) - (y2 - b) * (a - a)) with 0 by ring.
  replace (0 * 0 + 0 * 0 + 0 * 0) with 0 by ring.
  rewrite sqrt_0. lra.
Qed.

(** The offset of the plane through three points that do not lie in one
    coordinate plane is positive. *)
Lemma triangle_plane_offset_pos (pt0 pt1 pt2 n : Vector3d) (d : R) :
  ComputeTriangleOutwardNormal pt0 pt1 pt2 = Ok (n, d) ->
  (forall axis, (axis < 3)%nat ->
     Exists (fun p => 0 < coef p axis) [pt0; pt1; pt2]) ->
  0 < d.
Proof.
  intros E Hax.
  destruct (triangle_plane pt0 pt1 pt2 n d E)
    as ((H0 & H1 & H2) & Nn & (Px & Py & Pz) & (D0 & D1 & D2) & _).
  apply all_nonneg_true in H0, H1, H2.
  destruct H0 as (X0 & Y0 & Z0), H1 as (X1 & Y1 & Z1), H2 as (X2 & Y2 & Z2).
  apply norm_eq_1 in Nn.
  assert (Hp : forall p : Vector3d,
             0 <= vx p -> 0 <= vy p -> 0 <= vz p -> dot n p = d ->
             forall axis, (axis < 3)%nat ->
               0 < coef n axis -> 0 < coef p axis -> 0 < d).
  { intros p Qx Qy Qz Dp axis _ Hn Hq. rewrite <- Dp. unfold dot.
    pose proof (Rmult_le_pos _ _ Px Qx). pose proof (Rmult_le_pos _ _ Py Qy).
    pose proof (Rmult_le_pos _ _ Pz Qz).
    destruct axis as [|[|axis]]; cbn [coef] in Hn, Hq;
      pose proof (Rmult_lt_0_compat _ _ Hn Hq); lra. }
  assert (Hsome : exists axis, (axis < 3)%nat /\ 0 < coef n axis).
  { destruct (Rlt_dec 0 (vx n)) as [Hx|Hx]; [exists 0%nat; split; [lia|exact Hx]|].
    destruct (Rlt_dec 0 (vy n)) as [Hy|Hy]; [exists 1%nat; split; [lia|exact Hy]|].
    exists 2%nat. split; [lia|]. cbn [coef].
    assert (Ex : vx n = 0) by lra. assert (Ey : vy n = 0) by lra.
    unfold squaredNorm, dot in Nn. rewrite Ex, Ey in Nn. nra. }
  destruct Hsome as (axis & Ha & Hn).
  specialize (Hax axis Ha).
  apply Exists_exists in Hax. destruct Hax as (p & Hin & Hq).
  cbn [In] in Hin. destruct Hin as [<-|[<-|[<-|[]]]].
  - exact (Hp pt0 X0 Y0 Z0 D0 axis Ha Hn Hq).
  - exact (Hp pt1 X1 Y1 Z1 D1 axis Ha Hn Hq).
  - exact (Hp pt2 X2 Y2 Z2 D2 axis Ha Hn Hq).
Qed.

(** The postcondition is decidable. *)
Lemma half_space_postcondition_checked (n : Vector3d) (d : R) :
  (half_space_postcondition n d ->
   Rgtb (vx n) 0 && Rgtb (vy n) 0 && Rgtb (vz n) 0 = true
   /\ Rgtb d 0 && Rltb d 1 = true)
  /\ (~ half_space_postcondition n d ->
      Rgtb (vx n) 0 && Rgtb (vy n) 0 && Rgtb (vz n) 0 = false
      \/ Rgtb d 0 && Rltb d 1 = false).
Proof.
  unfold half_space_postcondition. split.
  - intros ((Hx & Hy & Hz) & (Hd0 & Hd1)).
    rewrite !andb_true_iff, !Rgtb_true, Rltb_true. tauto.
  - intros H.
    destruct (Rgtb (vx n) 0 && Rgtb (vy n) 0 && Rgtb (vz n) 0) eqn:E1;
      [|left; reflexivity].
    destruct (Rgtb d 0 && Rltb d 1) eqn:E2; [|right; reflexivity].
    exfalso. apply H.
    rewrite !andb_true_iff, !Rgtb_true in E1.
    rewrite andb_true_iff, Rgtb_true, Rltb_true in E2. tauto.
Qed.

(** C1 (amended). For every vertex list with at least three points,
    [ComputeHalfSpaceRelaxationForBoxSphereIntersection] checks the
    postcondition ([n] strictly positive in all three components and
    [0 < d < 1]) on the answer of the solver only.  When the vertices are
    not co-planar, the answer of the solver is returned if it satisfies the
    postcondition and is a fatal failure otherwise.  When the vertices are
    co-planar, the plane through the first three points is returned through
    the early exit, whatever the solver, without that check: its normal has
    unit length and no negative component and [d >= 0]; moreover [d < 1]
    when the first three points are on the unit sphere, and [d > 0] when
    they do not lie in one coordinate plane.  So every result that is
    returned either is the plane of co-planar vertices or satisfies the
    postcondition. *)
Theorem ComputeHalfSpaceRelaxationForBoxSphereIntersection_postcondition
  (Solve : MathematicalProgram -> Environment) (pts : list Vector3d) :
  (3 <= List.length pts)%nat ->
  (AreAllVerticesCoPlanar pts = Ok (false, vzero, 0) ->
   let solution := Solve (half_space_program pts) in
   let n := vmap solution half_space_n_var in
   let d := solution half_space_d_var in
   (half_space_postcondition n d ->
    ComputeHalfSpaceRelaxationForBoxSphereIntersection Solve pts = Ok (n, d))
   /\ (~ half_space_postcondition n d ->
       ComputeHalfSpaceRelaxationForBoxSphereIntersection Solve pts = Abort))
  /\ (forall (n : Vector3d) (d : R),
        AreAllVerticesCoPlanar pts = Ok (true, n, d) ->
        ComputeHalfSpaceRelaxationForBoxSphereIntersection Solve pts
        = Ok (n, d)
        /\ ComputeTriangleOutwardNormal (nth 0 pts vzero) (nth 1 pts vzero)
             (nth 2 pts vzero) = Ok (n, d)
        /\ norm n = 1
        /\ (0 <= vx n /\ 0 <= vy n /\ 0 <= vz n)
        /\ 0 <= d
        /\ (Forall (fun p => norm p = 1) (firstn 3 pts) -> d < 1)
        /\ ((forall axis, (axis < 3)%nat ->
               Exists (fun p => 0 < coef p axis) (firstn 3 pts)) ->
            0 < d))
  /\ (forall (n : Vector3d) (d : R),
        ComputeHalfSpaceRelaxationForBoxSphereIntersection Solve pts
        = Ok (n, d) ->
        AreAllVerticesCoPlanar pts = Ok (true, n, d)
        \/ (AreAllVerticesCoPlanar pts = Ok (false, vzero, 0)
            /\ half_space_postcondition n d)).
Proof.
  intros L. split; [|split].
  - intros Eco. cbv zeta.
    rewrite (half_space_solver_path Solve pts vzero 0 Eco). cbv zeta.
    set (n := vmap (Solve (half_space_program pts)) half_space_n_var).
    set (d := Solve (half_space_program pts) half_space_d_var).
    destruct (half_space_postcondition_checked n d) as [Hyes Hno].
    split.
    + intros P. destruct (Hyes P) as [-> ->]. reflexivity.
    + intros P. destruct (Hno P) as [E|E].
      * rewrite E. reflexivity.
      * rewrite E.
        destruct (Rgtb (vx n) 0 && Rgtb (vy n) 0 && Rgtb (vz n) 0);
          reflexivity.
  - intros n d Eco.
    destruct (coplanar_answer pts true n d Eco)
      as (p0 & p1 & p2 & rest & n1 & d1 & -> & Et & Ht & _).
    destruct (Ht eq_refl) as (-> & -> & _).
    cbn [nth firstn].
    destruct (triangle_plane p0 p1 p2 n1 d1 Et) as (_ & Nn & Hn & _ & Hd).
    split.
    { unfold ComputeHalfSpaceRelaxationForBoxSphereIntersection.
      apply Nat.leb_le in L. rewrite L, Eco. reflexivity. }
    split; [exact Et|]. split; [exact Nn|]. split; [exact Hn|].
    split; [exact Hd|]. split.
    + intros Hs. inversion Hs as [|? ? N0 Hs']. inversion Hs' as [|? ? N1 _].
      exact (triangle_plane_offset_lt_1 p0 p1 p2 n1 d1 Et N0 N1).
    + intros Hax. exact (triangle_plane_offset_pos p0 p1 p2 n1 d1 Et Hax).
  - intros n d E. pose proof E as E'.
    unfold ComputeHalfSpaceRelaxationForBoxSphereIntersection in E.
    apply Nat.leb_le in L. rewrite L in E. cbn [DRAKE_DEMAND bind] in E.
    destruct (AreAllVerticesCoPlanar pts) as [[[flag n0] d0]| | |] eqn:Eco;
      cbn [bind] in E; try discriminate.
    destruct flag.
    + injection E as <- <-. left. reflexivity.
    + destruct (coplanar_answer pts false n0 d0 Eco)
        as (p0 & p1 & p2 & rest & n1 & d1 & _ & _ & _ & Hf).
      destruct (Hf eq_refl) as (-> & -> & _).
      right. split; [reflexivity|].
      exact (half_space_solver_path_checked Solve pts vzero n 0 d Eco E').
Qed.

Lemma ComputeHalfSpaceRelaxationForBoxSphereIntersection_postcondition_example :
  ComputeHalfSpaceRelaxationForBoxSphereIntersection zero_solver unit_cube_pts
  = Ok (unit_cube_normal, 1 / sqrt 3)
  /\ norm unit_cube_normal = 1
  /\ (0 <= vx unit_cube_normal /\ 0 <= vy unit_cube_normal
      /\ 0 <= vz unit_cube_normal)
  /\ 0 < 1 / sqrt 3 < 1.
Proof.
  destruct (ComputeHalfSpaceRelaxationForBoxSphereIntersection_postcondition
              zero_solver unit_cube_pts) as (_ & Hco & _);
    [unfold unit_cube_pts; cbn [List.length]; lia|].
  destruct (Hco unit_cube_normal (1 / sqrt 3) unit_cube_coplanar)
    as (E & _ & Nn & Hn & _ & H1 & H0).
  split; [exact E|]. split; [exact Nn|]. split; [exact Hn|]. split.
  - apply H0. intros axis Ha. unfold unit_cube_pts. cbn [firstn].
    destruct axis as [|[|[|axis]]]; [| | |lia].
    + apply Exists_cons_tl, Exists_cons_tl, Exists_cons_hd. cbn [coef vx]. lra.
    + apply Exists_cons_tl, Exists_cons_hd. cbn [coef vy]. lra.
    + apply Exists_cons_hd. cbn [coef vz]. lra.
  - apply H1. unfold unit_cube_pts. cbn [firstn].
    repeat constructor; apply norm_eq_1; unfold squaredNorm, dot;
      cbn [vx vy vz]; lra.
Defined.

(** ** The half space contains the points *)

(** X25. When the answer of the solver is feasible for the program
    [ComputeHalfSpaceRelaxationForBoxSphereIntersection] builds (maximize
    [d] subject to [n . pt >= d] for every point and [|n| <= 1]), a half
    space the function returns contains every point, up to the tolerance
    1e-10 of the co-planarity test, and its normal is not longer than 1. *)
Theorem ComputeHalfSpaceRelaxationForBoxSphereIntersection_contains_points
  (Solve : MathematicalProgram -> Environment) (pts : list Vector3d)
  (n : Vector3d) (d : R) :
  Forall (Satisfies (Solve (half_space_program pts)))
         (constraints (half_space_program pts)) ->
  ComputeHalfSpaceRelaxationForBoxSphereIntersection Solve pts = Ok (n, d) ->
  Forall (fun p => d - 1 / 10 ^ 10 <= dot n p) pts /\ squaredNorm n <= 1.
Proof.
  intros Hfeas E.
  assert (T : 0 < 1 / 10 ^ 10)
    by (apply Rdiv_lt_0_compat; [lra | apply pow_lt; lra]).
  pose proof E as E'.
  unfold ComputeHalfSpaceRelaxationForBoxSphereIntersection in E'.
  destruct (3 <=? List.length pts)%nat; cbn [DRAKE_DEMAND bind] in E';
    [|discriminate].
  destruct (AreAllVerticesCoPlanar pts) as [[[flag n0] d0]| | |] eqn:Eco;
    cbn [bind] in E'; try discriminate.
  destruct flag.
  - injection E' as <- <-.
    destruct (coplanar_answer pts true n0 d0 Eco)
      as (p0 & p1 & p2 & rest & n1 & d1 & _ & Et & Ht & _).
    destruct (Ht eq_refl) as (-> & -> & Hall).
    destruct (triangle_plane p0 p1 p2 n1 d1 Et) as (_ & Hn & _).
    split.
    + revert Hall. apply Forall_impl. intros p Hp.
      unfold Rabs in Hp. destruct (Rcase_abs (dot n1 p - d1)) in Hp; lra.
    + apply norm_eq_1 in Hn. lra.
  - clear E'. rewrite (half_space_solver_path Solve pts n0 d0 Eco) in E.
    cbv zeta in E.
    destruct (DRAKE_DEMAND _) in E; cbn [bind] in E; [|discriminate..].
    destruct (DRAKE_DEMAND _) in E; cbn [bind] in E; [|discriminate..].
    injection E as <- <-.
    rewrite half_space_program_constraints in Hfeas.
    set (sol := Solve (half_space_program pts)) in *.
    apply Forall_app in Hfeas as [Hpts Hcone].
    split.
    + rewrite Forall_map in Hpts. revert Hpts. apply Forall_impl.
      intros p Hp.
      cbn [Satisfies Holds Evaluate sdot vars vmap vx vy vz
           half_space_n_var] in Hp.
      unfold dot, vmap, half_space_n_var. cbn [vx vy vz]. lra.
    + inversion Hcone as [|? ? Hc _]; subst.
      cbn [Satisfies vlist vars vmap vx vy vz fold_right Evaluate
           half_space_n_var] in Hc.
      unfold squaredNorm, dot, vmap, half_space_n_var. cbn [vx vy vz].
      match type of Hc with
      | sqrt ?s <= 1 =>
          assert (Hs : 0 <= s) by apply sum_of_three_squares_nonneg;
          pose proof (sqrt_sqrt s Hs) as Q; pose proof (sqrt_pos s) as P
      end.
      nra.
Qed.

Lemma four_pts_not_coplanar :
  AreAllVerticesCoPlanar four_pts = Ok (false, vzero, 0).
Proof.
  unfold four_pts. rewrite AreAllVerticesCoPlanar_unfold.
  rewrite unit_triangle_normal. cbn [bind forallb].
  assert (H : Rgtb (Rabs (dot (vec3 (1 / sqrt 3) (1 / sqrt 3) (1 / sqrt 3))
                              (vec3 (3 / 5) (4 / 5) 0) - 1 / sqrt 3))
                   (1 / 10 ^ 10) = true).
  { apply Rgtb_true. unfold dot. cbn [vx vy vz].
    pose proof sqrt_3_gt_1 as S1.
    assert (S2 : sqrt 3 <= 2).
    { rewrite <- (sqrt_square 2) by lra. apply sqrt_le_1; lra. }
    assert (I3 : / 2 <= / sqrt 3) by (apply Rinv_le_contravar; lra).
    assert (T : 1 / 10 ^ 10 <= 1 / 10).
    { unfold Rdiv. rewrite !Rmult_1_l. apply Rinv_le_contravar; [lra|].
      change 10%nat with (1 + 9)%nat. rewrite pow_add.
      assert (1 <= 10 ^ 9) by (apply pow_R1_Rle; lra). simpl (10 ^ 1). nra. }
    rewrite Rabs_right; unfold Rdiv in *; nra. }
  rewrite H. reflexivity.
Qed.

Lemma half_solver_answer :
  ComputeHalfSpaceRelaxationForBoxSphereIntersection half_solver four_pts
  = Ok (vec3 (1 / 2) (1 / 2) (1 / 2), 1 / 2).
Proof.
  rewrite (half_space_solver_path half_solver four_pts vzero 0
             four_pts_not_coplanar).
  cbv zeta. unfold half_solver, vmap, half_space_n_var. cbn [vx vy vz].
  decide_comparisons. reflexivity.
Qed.

Lemma ComputeHalfSpaceRelaxationForBoxSphereIntersection_contains_points_example :
  Forall (fun p => 1 / 2 - 1 / 10 ^ 10 <= dot (vec3 (1 / 2) (1 / 2) (1 / 2)) p)
         four_pts
  /\ squaredNorm (vec3 (1 / 2) (1 / 2) (1 / 2)) <= 1.
Proof.
  apply (ComputeHalfSpaceRelaxationForBoxSphereIntersection_contains_points
           half_solver four_pts).
  - rewrite half_space_program_constraints.
    unfold four_pts, half_solver. cbn [map app].
    repeat (constructor;
            [cbn [Satisfies Holds Evaluate sdot vars vmap vx vy vz
                  half_space_n_var]; lra|]).
    constructor; [|constructor].
    cbn [Satisfies vlist vars vmap vx vy vz fold_right Evaluate
         half_space_n_var].
    apply Rle_trans with (sqrt 1); [apply sqrt_le_1; lra | rewrite sqrt_1; lra].
  - exact half_solver_answer.
Defined.

(** ** The outcomes of PickBinaryExpressionGivenInterval *)

(** X26. All the outcomes of [PickBinaryExpressionGivenInterval], for both
    instantiations and any table.  A negative row index, a row index larger
    than the number of rows or a vector [b] whose length is not the number
    of columns fails an assertion.  A row index inside the table returns an
    expression.  The row index equal to the number of rows passes the
    assertions and is read outside the table, unless the table has no
    column, in which case the empty sum 0 is returned. *)
Theorem PickBinaryExpressionGivenInterval_outcome {S1 S2 : Type}
  `{Scalar S1} `{Cast S2 S1} (k : Z) (G : MatrixXi) (b : list S2) :
  ((k < 0 \/ rows G < k \/ Z.of_nat (List.length b) <> cols G)%Z ->
   PickBinaryExpressionGivenInterval (S1 := S1) k G b = Abort)
  /\ ((0 <= k < rows G)%Z -> Z.of_nat (List.length b) = cols G ->
      exists e : S1, PickBinaryExpressionGivenInterval (S1 := S1) k G b = Ok e)
  /\ ((0 <= k)%Z -> k = rows G -> Z.of_nat (List.length b) = cols G ->
      PickBinaryExpressionGivenInterval (S1 := S1) k G b
      = if (0 <? cols G)%Z then OutOfRange else Ok (s_const 0)).
Proof.
  split; [|split].
  - intros Hbad. unfold PickBinaryExpressionGivenInterval.
    destruct ((0 <=? k)%Z && (k <=? rows G)%Z) eqn:E1;
      cbn [DRAKE_ASSERT bind]; [|reflexivity].
    destruct (Z.of_nat (List.length b) =? cols G)%Z eqn:E2;
      cbn [DRAKE_ASSERT bind]; [|reflexivity].
    apply andb_true_iff in E1 as [E0 E1]. apply Z.eqb_eq in E2. lia.
  - intros Hk Hb. unfold PickBinaryExpressionGivenInterval.
    replace ((0 <=? k)%Z && (k <=? rows G)%Z) with true
      by (symmetry; rewrite andb_true_iff, !Z.leb_le; lia).
    replace (Z.of_nat (List.length b) =? cols G)%Z with true
      by (symmetry; apply Z.eqb_eq; exact Hb).
    cbn [DRAKE_ASSERT bind].
    match goal with
    | |- exists e, foldM ?f ?l ?s0 = Ok e =>
        destruct (foldM_invariant (fun _ => True) f l) with (s := s0)
          as (e & E & _); [|exact I|exists e; exact E]
    end.
    intros ret i Hi _. apply in_seq in Hi.
    unfold coeff.
    replace ((0 <=? k)%Z && (k <? rows G)%Z && (0 <=? Z.of_nat i)%Z
             && (Z.of_nat i <? cols G)%Z) with true
      by (symmetry; rewrite !andb_true_iff, !Z.leb_le, !Z.ltb_lt; lia).
    cbn [bind]. unfold vcoeff.
    destruct (nth_error b i) as [bi|] eqn:Eb.
    + cbn [bind]. eexists. split; [reflexivity | exact I].
    + apply nth_error_None in Eb. lia.
  - intros Hk -> Hb.
    destruct (Z.ltb_spec 0 (cols G)) as [Hc|Hc].
    + apply (pick_asserts_off_by_one (S1 := S1) G b Hk Hc Hb).
    + unfold PickBinaryExpressionGivenInterval.
      replace ((0 <=? rows G)%Z && (rows G <=? rows G)%Z) with true
        by (symmetry; rewrite andb_true_iff, !Z.leb_le; lia).
      replace (Z.of_nat (List.length b) =? cols G)%Z with true
        by (symmetry; apply Z.eqb_eq; exact Hb).
      cbn [DRAKE_ASSERT bind].
      replace (Z.to_nat (cols G)) with 0%nat by lia. reflexivity.
Qed.

(** ** The touching point of a box in state B *)

Lemma unit_of_normalized (a : Vector3d) :
  0 < norm a -> squaredNorm (vdiv a (norm a)) = 1.
Proof.
  intros Hn. pose proof (norm_norm a) as NN.
  unfold squaredNorm, dot, vdiv in *. cbn [vx vy vz].
  set (k := norm a) in *.
  replace (vx a / k * (vx a / k) + vy a / k * (vy a / k)
           + vz a / k * (vz a / k))
    with ((vx a * vx a + vy a * vy a + vz a * vz a) / (k * k))
    by (field; lra).
  rewrite <- NN. field. lra.
Qed.

(** X27. On a grid cell whose box touches the sphere (state B), [EmitCell]
    runs [EmitUniqueIntersection] in the eight orthants on the corner of
    the box that is within [2 eps] of the sphere, [box_min] first, scaled to
    a vector of unit length. *)
Theorem EmitCell_touching_point
  (Solve : MathematicalProgram -> Environment)
  (v : Vector3 DecisionVariable) (B_i : Vector3 (list DecisionVariable))
  (v1 v2 : Vector3 DecisionVariable) (N : Z) (G : MatrixXi)
  (prog : MathematicalProgram) (xi yi zi : Z) :
  let box_min := box_min_of N xi yi zi in
  let box_max := box_max_of N xi yi zi in
  box_intersects_sphere box_min box_max = true ->
  box_touches_sphere box_min box_max = true ->
  exists u : Vector3d,
    squaredNorm u = 1
    /\ ((Rabs (norm box_min - 1) < 2 * epsilon
         /\ u = vdiv box_min (norm box_min))
        \/ (~ Rabs (norm box_min - 1) < 2 * epsilon
            /\ Rabs (norm box_max - 1) < 2 * epsilon
            /\ u = vdiv box_max (norm box_max)))
    /\ EmitCell Solve v B_i v1 v2 N G prog xi yi zi
       = foldM (EmitUniqueIntersection v B_i v1 v2 N G xi yi zi u)
               (range 8) prog.
Proof.
  intros box_min box_max HA HB.
  unfold EmitCell. cbv zeta. fold box_min box_max. rewrite HA, HB.
  pose proof epsilon_small as He.
  unfold box_touches_sphere in HB.
  destruct (Rltb (Rabs (norm box_min - 1)) (2 * epsilon)) eqn:E1.
  - apply Rltb_true in E1. eexists. split; [|split; [|reflexivity]].
    + apply unit_of_normalized.
      unfold Rabs in E1. destruct (Rcase_abs (norm box_min - 1)) in E1; lra.
    + left. split; [exact E1 | reflexivity].
  - cbn [orb] in HB. apply Rltb_true in HB. apply Rltb_false in E1.
    eexists. split; [|split; [|reflexivity]].
    + apply unit_of_normalized.
      unfold Rabs in HB. destruct (Rcase_abs (norm box_max - 1)) in HB; lra.
    + right. split; [exact E1|]. split; [exact HB | reflexivity].
Qed.

(** With five intervals per half axis the cell (3, 4, 0) has its corner
    (3/5, 4/5, 0) on the sphere. *)
Lemma corner_on_sphere :
  norm (box_min_of 5 3 4 0) = 1 /\ 1 <= norm (box_max_of 5 3 4 0).
Proof.
  split; [apply norm_eq_1 | apply norm_ge_1];
    unfold box_min_of, box_max_of, EnvelopeMinValue, squaredNorm, dot;
    cbn [vx vy vz];
    change (int_add 3 1) with 4%Z; change (int_add 4 1) with 5%Z;
    change (int_add 0 1) with 1%Z; lra.
Qed.

Lemma EmitCell_touching_point_example :
  let box_min := box_min_of 5 3 4 0 in
  let box_max := box_max_of 5 3 4 0 in
  exists u : Vector3d,
    squaredNorm u = 1
    /\ ((Rabs (norm box_min - 1) < 2 * epsilon
         /\ u = vdiv box_min (norm box_min))
        \/ (~ Rabs (norm box_min - 1) < 2 * epsilon
            /\ Rabs (norm box_max - 1) < 2 * epsilon
            /\ u = vdiv box_max (norm box_max)))
    /\ EmitCell zero_solver v_example B4_example v1_example v2_example 5
         (CalculateReflectedGrayCodes 4) empty_program 3 4 0
       = foldM (EmitUniqueIntersection v_example B4_example v1_example
                  v2_example 5 (CalculateReflectedGrayCodes 4) 3 4 0 u)
               (range 8) empty_program.
Proof.
  destruct corner_on_sphere as [E0 E1]. pose proof epsilon_small as He.
  apply (EmitCell_touching_point zero_solver v_example B4_example v1_example
           v2_example 5 (CalculateReflectedGrayCodes 4) empty_program 3 4 0).
  - unfold box_intersects_sphere, Rgeb. rewrite E0.
    rewrite !Rleb_yes by lra. reflexivity.
  - unfold box_touches_sphere. rewrite E0.
    rewrite Rltb_yes; [reflexivity|].
    replace (1 - 1) with 0 by lra. rewrite Rabs_R0. lra.
Defined.

(** ** The SOCP relaxation *)

(** The rotated cone [z = [1; 1; x]] says [|x|^2 <= 1]. *)
Lemma unit_ball_cone (env : Environment) (x : Vector3 DecisionVariable) :
  in_rotated_cone env
    (mkRotatedCone [[0; 0; 0]; [0; 0; 0]; [1; 0; 0]; [0; 1; 0]; [0; 0; 1]]
                   [1; 1; 0; 0; 0] (vlist x))
  <-> squaredNorm (values env x) <= 1.
Proof.
  unfold in_rotated_cone, values, squaredNorm, dot, vmap.
  cbn [cone_A cone_b cone_x combine map fst snd lin vlist fold_right vx vy vz].
  split; [intros (_ & _ & H) | intros H; repeat split]; lra.
Qed.

(** What [AddOrthogonalConstraint] adds, on its own. *)
Lemma orthogonal_pair_constraints (p : MathematicalProgram)
  (v1 v2 : Vector3 DecisionVariable) :
  exists c_sum c_diff : Constraint,
    only_adds p (AddOrthogonalConstraint p v1 v2) [c_sum; c_diff]
    /\ forall env,
         let a := values env v1 in
         let b := values env v2 in
         (Satisfies env c_sum
          <-> squaredNorm a + 2 * dot a b + squaredNorm b <= 2)
         /\ (Satisfies env c_diff
             <-> squaredNorm a - 2 * dot a b + squaredNorm b <= 2).
Proof.
  eexists _, _. split.
  - unfold AddOrthogonalConstraint, AddLorentzConeConstraint. cbv zeta.
    cbn [firstn app].
    unfold add_constraint, only_adds.
    cbn [decision_variables linear_costs constraints].
    rewrite <- app_assoc. repeat split.
  - intros env a b. split.
    + cbn [Satisfies vlist vars_add vx vy vz fold_right Evaluate].
      rewrite sqrt_le_sqrt_2 by apply sum_of_three_squares_nonneg.
      subst a b. unfold values, squaredNorm, dot, vmap. cbn [vx vy vz].
      split; intros H; nra.
    + cbn [Satisfies vlist vars_sub vx vy vz fold_right Evaluate].
      rewrite sqrt_le_sqrt_2 by apply sum_of_three_squares_nonneg.
      subst a b. unfold values, squaredNorm, dot, vmap. cbn [vx vy vz].
      split; intros H; nra.
Qed.

(** The rotation matrix of any roll, pitch and yaw is orthonormal. *)
Lemma rpy_matrix_orthonormal (r p y : R) : orthonormal (rpy_matrix r p y).
Proof.
  pose proof (sin_cos_one r) as Er. pose proof (sin_cos_one p) as Ep.
  pose proof (sin_cos_one y) as Ey.
  unfold orthonormal, rpy_matrix.
  generalize dependent (cos r). generalize dependent (sin r).
  generalize dependent (cos p). generalize dependent (sin p).
  generalize dependent (cos y). generalize dependent (sin y).
  intros sy cy Ey sp cp Ep sr cr Er.
  split.
  - intros i Hi. destruct i as [|[|[|i]]]; try lia;
      unfold squaredNorm, dot, row, mcoef, col; cbn [coef vx vy vz];
      split; nsatz.
  - intros i j Hi Hj Hij.
    destruct i as [|[|[|i]]]; try lia; destruct j as [|[|[|j]]]; try lia;
      try contradiction;
      unfold dot, row, mcoef, col; cbn [coef vx vy vz]; split; nsatz.
Qed.

(** The six rotated cones under an assignment. *)
Lemma socp_cones (prog : SocpProgram) (Rv : Matrix3 DecisionVariable) :
  exists cones : list RotatedLorentzConeConstraint,
    rotated_lorentz_cone_constraints
      (AddRotationMatrixOrthonormalSocpConstraint prog Rv)
    = rotated_lorentz_cone_constraints prog ++ cones
    /\ List.length cones = 6%nat
    /\ forall env,
         Forall (in_rotated_cone env) cones
         <-> (squaredNorm (values env (col Rv 0)) <= 1
              /\ squaredNorm (values env (row Rv 0)) <= 1)
             /\ (squaredNorm (values env (col Rv 1)) <= 1
                 /\ squaredNorm (values env (row Rv 1)) <= 1)
             /\ (squaredNorm (values env (col Rv 2)) <= 1
                 /\ squaredNorm (values env (row Rv 2)) <= 1).
Proof.
  eexists. split; [|split].
  - unfold AddRotationMatrixOrthonormalSocpConstraint, in_program,
      AddRotatedLorentzConeConstraint.
    cbn [fold_left program rotated_lorentz_cone_constraints].
    rewrite <- !app_assoc. cbn [app]. reflexivity.
  - reflexivity.
  - intros env. rewrite !Forall_cons_iff, !unit_ball_cone, Forall_nil_iff.
    tauto.
Qed.

(** The twelve Lorentz cones under an assignment. *)
Lemma socp_lorentz_cones (prog : SocpProgram)
  (Rv : Matrix3 DecisionVariable) :
  exists cs : list Constraint,
    only_adds (program prog)
      (program (AddRotationMatrixOrthonormalSocpConstraint prog Rv)) cs
    /\ List.length cs = 12%nat
    /\ forall env,
         let pair a b :=
           squaredNorm (values env a) + 2 * dot (values env a) (values env b)
           + squaredNorm (values env b) <= 2
           /\ squaredNorm (values env a)
              - 2 * dot (values env a) (values env b)
              + squaredNorm (values env b) <= 2 in
         Forall (Satisfies env) cs
         <-> pair (col Rv 0) (col Rv 1) /\ pair (col Rv 1) (col Rv 2)
             /\ pair (col Rv 0) (col Rv 2)
             /\ pair (row Rv 0) (row Rv 1) /\ pair (row Rv 1) (row Rv 2)
             /\ pair (row Rv 0) (row Rv 2).
Proof.
  unfold AddRotationMatrixOrthonormalSocpConstraint, in_program,
    AddRotatedLorentzConeConstraint.
  cbn [fold_left program rotated_lorentz_cone_constraints].
  set (p0 := program prog).
  destruct (orthogonal_pair_constraints p0 (col Rv 0) (col Rv 1))
    as (c1 & d1 & A1 & S1).
  set (p1 := AddOrthogonalConstraint p0 _ _) in *.
  destruct (orthogonal_pair_constraints p1 (col Rv 1) (col Rv 2))
    as (c2 & d2 & A2 & S2).
  set (p2 := AddOrthogonalConstraint p1 _ _) in *.
  destruct (orthogonal_pair_constraints p2 (col Rv 0) (col Rv 2))
    as (c3 & d3 & A3 & S3).
  set (p3 := AddOrthogonalConstraint p2 _ _) in *.
  destruct (orthogonal_pair_constraints p3 (row Rv 0) (row Rv 1))
    as (c4 & d4 & A4 & S4).
  set (p4 := AddOrthogonalConstraint p3 _ _) in *.
  destruct (orthogonal_pair_constraints p4 (row Rv 1) (row Rv 2))
    as (c5 & d5 & A5 & S5).
  set (p5 := AddOrthogonalConstraint p4 _ _) in *.
  destruct (orthogonal_pair_constraints p5 (row Rv 0) (row Rv 2))
    as (c6 & d6 & A6 & S6).
  exists [c1; d1; c2; d2; c3; d3; c4; d4; c5; d5; c6; d6].
  split; [|split; [reflexivity|]].
  - apply (only_adds_trans p0 p1 _ [c1; d1] _ A1).
    apply (only_adds_trans p1 p2 _ [c2; d2] _ A2).
    apply (only_adds_trans p2 p3 _ [c3; d3] _ A3).
    apply (only_adds_trans p3 p4 _ [c4; d4] _ A4).
    apply (only_adds_trans p4 p5 _ [c5; d5] _ A5).
    exact A6.
  - intros env. cbv zeta beta.
    rewrite !Forall_cons_iff, Forall_nil_iff.
    destruct (S1 env) as [-> ->]. destruct (S2 env) as [-> ->].
    destruct (S3 env) as [-> ->]. destruct (S4 env) as [-> ->].
    destruct (S5 env) as [-> ->]. destruct (S6 env) as [-> ->].
    tauto.
Qed.

(** X28. [AddRotationMatrixOrthonormalSocpConstraint] adds six rotated
    cones and twelve Lorentz cones and nothing else.  Under an assignment
    they hold exactly when any two columns, and any two rows, of [R] are no
    longer than 1 and satisfy [|u + w|^2 <= 2] and [|u - w|^2 <= 2]; so they
    hold at every orthonormal matrix, and when they hold and two columns
    have unit length, the two columns are orthogonal. *)
Theorem AddRotationMatrixOrthonormalSocpConstraint_meaning
  (prog : SocpProgram) (Rv : Matrix3 DecisionVariable) :
  let prog' := AddRotationMatrixOrthonormalSocpConstraint prog Rv in
  exists (cones : list RotatedLorentzConeConstraint) (cs : list Constraint),
    rotated_lorentz_cone_constraints prog'
    = rotated_lorentz_cone_constraints prog ++ cones
    /\ List.length cones = 6%nat
    /\ only_adds (program prog) (program prog') cs
    /\ List.length cs = 12%nat
    /\ forall env : Environment,
         let M := matrix_values env Rv in
         let holds :=
           Forall (in_rotated_cone env) cones /\ Forall (Satisfies env) cs in
         (holds <->
          forall i j, (i < 3)%nat -> (j < 3)%nat -> i <> j ->
            relaxed_orthonormal_pair (col M i) (col M j)
            /\ relaxed_orthonormal_pair (row M i) (row M j))
         /\ (orthonormal M -> holds)
         /\ (holds ->
             forall i j, (i < 3)%nat -> (j < 3)%nat -> i <> j ->
               squaredNorm (col M i) = 1 -> squaredNorm (col M j) = 1 ->
               dot (col M i) (col M j) = 0).
Proof.
  intros prog'.
  destruct (socp_cones prog Rv) as (cones & Ec & Lc & Sc).
  destruct (socp_lorentz_cones prog Rv) as (cs & Ac & La & Sa).
  exists cones, cs. repeat (split; [assumption|]).
  intros env M holds.
  assert (Hiff : holds <->
            forall i j, (i < 3)%nat -> (j < 3)%nat -> i <> j ->
              relaxed_orthonormal_pair (col M i) (col M j)
              /\ relaxed_orthonormal_pair (row M i) (row M j)).
  { subst holds. rewrite (Sc env). pose proof (Sa env) as Sa'.
    cbv zeta in Sa'. rewrite Sa'. clear Sc Sa Sa'.
    subst M. unfold matrix_values, relaxed_orthonormal_pair.
    destruct Rv as [[x00 x10 x20] [x01 x11 x21] [x02 x12 x22]].
    unfold values, row, mcoef, col, squaredNorm, dot, vmap.
    cbn [coef vx vy vz].
    generalize (env x00) (env x10) (env x20) (env x01) (env x11) (env x21)
               (env x02) (env x12) (env x22).
    intros a00 a10 a20 a01 a11 a21 a02 a12 a22.
    split.
    - intros H i j Hi Hj Hij.
      destruct i as [|[|[|i]]]; try lia; destruct j as [|[|[|j]]]; try lia;
        try contradiction; cbn [coef vx vy vz]; repeat split; lra.
    - intros H.
      pose proof (H 0%nat 1%nat ltac:(lia) ltac:(lia) ltac:(lia)) as H01.
      pose proof (H 1%nat 2%nat ltac:(lia) ltac:(lia) ltac:(lia)) as H12.
      pose proof (H 0%nat 2%nat ltac:(lia) ltac:(lia) ltac:(lia)) as H02.
      cbn [coef vx vy vz] in H01, H12, H02.
      repeat split; lra. }
  split; [exact Hiff|split].
  - intros [Hn Ho]. apply Hiff. intros i j Hi Hj Hij.
    destruct (Hn i Hi) as [Ci Ri]. destruct (Hn j Hj) as [Cj Rj].
    destruct (Ho i j Hi Hj Hij) as [Cij Rij].
    unfold relaxed_orthonormal_pair. rewrite Ci, Cj, Ri, Rj, Cij, Rij.
    repeat split; lra.
  - intros H i j Hi Hj Hij Ei Ej.
    destruct (proj1 Hiff H i j Hi Hj Hij) as [(_ & _ & Hs & Hd) _].
    lra.
Qed.

(** X29. [AddRotationMatrixOrthonormalSocpConstraint] excludes no rotation:
    when the variables of [R] take the entries of the rotation matrix of any
    roll, pitch and yaw, every cone it adds holds. *)
Theorem AddRotationMatrixOrthonormalSocpConstraint_sound
  (prog : SocpProgram) (Rv : Matrix3 DecisionVariable) (env : Environment)
  (r p y : R) :
  assigns env Rv (rpy_matrix r p y) ->
  let prog' := AddRotationMatrixOrthonormalSocpConstraint prog Rv in
  exists (cones : list RotatedLorentzConeConstraint) (cs : list Constraint),
    rotated_lorentz_cone_constraints prog'
    = rotated_lorentz_cone_constraints prog ++ cones
    /\ only_adds (program prog) (program prog') cs
    /\ Forall (in_rotated_cone env) cones /\ Forall (Satisfies env) cs.
Proof.
  intros Hval prog'.
  destruct (socp_cones prog Rv) as (cones & Ec & Lc & Sc).
  destruct (socp_lorentz_cones prog Rv) as (cs & Ac & La & Sa).
  exists cones, cs. repeat (split; [assumption|]).
  rewrite (Sc env). pose proof (Sa env) as Sa'.
  cbv zeta in Sa'. rewrite Sa'. clear Sc Sa Sa'.
  assert (EM : matrix_values env Rv = rpy_matrix r p y).
  { assert (V : forall i j, (i < 3)%nat -> (j < 3)%nat -> _) by exact Hval.
    pose proof (V 0%nat 0%nat ltac:(lia) ltac:(lia)) as V00.
    pose proof (V 1%nat 0%nat ltac:(lia) ltac:(lia)) as V10.
    pose proof (V 2%nat 0%nat ltac:(lia) ltac:(lia)) as V20.
    pose proof (V 0%nat 1%nat ltac:(lia) ltac:(lia)) as V01.
    pose proof (V 1%nat 1%nat ltac:(lia) ltac:(lia)) as V11.
    pose proof (V 2%nat 1%nat ltac:(lia) ltac:(lia)) as V21.
    pose proof (V 0%nat 2%nat ltac:(lia) ltac:(lia)) as V02.
    pose proof (V 1%nat 2%nat ltac:(lia) ltac:(lia)) as V12.
    pose proof (V 2%nat 2%nat ltac:(lia) ltac:(lia)) as V22.
    clear V Hval.
    destruct Rv as [[x00 x10 x20] [x01 x11 x21] [x02 x12 x22]].
    unfold mcoef, col in *. cbn [coef vx vy vz] in *.
    unfold matrix_values, vmap. cbn [vx vy vz].
    rewrite V00, V10, V20, V01, V11, V21, V02, V12, V22.
    reflexivity. }
  destruct (rpy_matrix_orthonormal r p y) as [Hn Ho].
  rewrite <- EM in Hn, Ho.
  pose proof (Hn 0%nat ltac:(lia)) as [C0 R0].
  pose proof (Hn 1%nat ltac:(lia)) as [C1 R1].
  pose proof (Hn 2%nat ltac:(lia)) as [C2 R2].
  pose proof (Ho 0%nat 1%nat ltac:(lia) ltac:(lia) ltac:(lia)) as [C01 R01].
  pose proof (Ho 1%nat 2%nat ltac:(lia) ltac:(lia) ltac:(lia)) as [C12 R12].
  pose proof (Ho 0%nat 2%nat ltac:(lia) ltac:(lia) ltac:(lia)) as [C02 R02].
  clear Hn Ho EM.
  destruct Rv as [[x00 x10 x20] [x01 x11 x21] [x02 x12 x22]].
  unfold matrix_values, values, row, mcoef, col, squaredNorm, dot, vmap in *.
  cbn [coef vx vy vz] in *.
  repeat split; lra.
Qed.

Lemma AddRotationMatrixOrthonormalSocpConstraint_sound_example :
  let prog' :=
    AddRotationMatrixOrthonormalSocpConstraint (mkSocp empty_program [])
      R_example in
  exists (cones : list RotatedLorentzConeConstraint) (cs : list Constraint),
    rotated_lorentz_cone_constraints prog' = [] ++ cones
    /\ only_adds empty_program (program prog') cs
    /\ Forall (in_rotated_cone env_rpy_zero) cones
    /\ Forall (Satisfies env_rpy_zero) cs.
Proof.
  apply (AddRotationMatrixOrthonormalSocpConstraint_sound
           (mkSocp empty_program []) R_example env_rpy_zero 0 0 0).
  intros i j Hi Hj.
  destruct i as [|[|[|i]]]; try lia; destruct j as [|[|[|j]]]; try lia;
    reflexivity.
Defined.
